(** * Parcel: artifact store, asset wrappers and bundle reference replacement

    A shallow embedding of
    - [LMDBCache] (packages/core/cache: the LMDB backed key/value store with
      file backed chunked large blobs),
    - the public asset wrappers [Asset], [MutableAsset], [CommittedAsset]
      (packages/core/core/src/public/Asset.js),
    - [replaceBundleReferences.js] (packages/core/utils).

    JavaScript objects are modelled by references into explicit stores,
    promises by their settled outcome, and the closure variables mutated by
    the [String.prototype.replace] callback by an explicit scan state. *)

From Stdlib Require Import ZArith Ascii String DecimalString DecimalNat.
From Stdlib Require Import Sorting.Sorted.
From Stdlib Require Init.Byte.
From stdpp Require Import gmap strings list fin_maps.

Local Open Scope string_scope.
Local Open Scope list_scope.
Local Open Scope nat_scope.

(** ** Settled promises and thrown errors *)

(** [new Error(message)]. *)
Inductive JsError : Type :=
| Error (message : string).

(** The outcome of an awaited promise, or of a call that may throw. *)
Inductive Outcome (A : Type) : Type :=
| Resolved (a : A)
| Rejected (e : JsError).
Arguments Resolved {A} a.
Arguments Rejected {A} e.

Abbreviation Buffer := (list Byte.byte).

(** ** LMDBCache *)
Module LMDBCache.

(** [Buffer | string]: the payload type of [setBlob] and [setLargeBlob].
    A string is a sequence of UTF-16 code units. *)
Inductive Contents : Type :=
| Buf (b : Buffer)
| Str (s : list ascii).

(** [contents.length] *)
Definition contents_length (c : Contents) : nat :=
  match c with
  | Buf b => length b
  | Str s => length s
  end.

(** [Array/String/TypedArray slice(start, end)] with both bounds in range
    or beyond the end (they are clamped to the length). *)
Definition slice {A} (l : list A) (start stop : nat) : list A :=
  take (stop - start) (drop start l).

(** The instance state: [this.dir], the LMDB [this.store] and the files
    reachable through [this.fs]. *)
Record Cache : Type := mkCache {
  dir : string;
  store : gmap string Buffer;
  fs : gmap string Buffer;
}.

Definition with_store (c : Cache) (s : gmap string Buffer) : Cache :=
  mkCache (dir c) s (fs c).

Definition with_fs (c : Cache) (f : gmap string Buffer) : Cache :=
  mkCache (dir c) (store c) f.

(** Template literal rendering of a non-negative integer. *)
Definition number_to_string (n : nat) : string :=
  NilEmpty.string_of_uint (Nat.to_uint n).

(** [path.join(a, b)] for a plain file name [b] ([plain_key]): the
    normalisation that [path.join] applies to a name with path separators
    is not modelled. *)
Definition path_join (a b : string) : string :=
  String.append a (String.append "/" b).

(** A key that is a plain file name: it holds no path separator, so that
    [path.join] has nothing to normalise in the names made from it. *)
Definition plain_key (key : string) : Prop :=
  Forall (λ c, c ∉ ["/"%char; "\"%char]) (list_ascii_of_string key).

(** [#getFilePath(key, index)] *)
Definition getFilePath (c : Cache) (key : string) (index : nat) : string :=
  path_join (dir c) (String.append key (String.append "-" (number_to_string index))).

(** [this.fs.exists(path)] *)
Definition fs_exists (f : gmap string Buffer) (p : string) : bool :=
  bool_decide (is_Some (f !! p)).

(** [this.fs.readFile(path)]: rejects when the file is missing. *)
Definition fs_readFile (f : gmap string Buffer) (p : string) : Outcome Buffer :=
  match f !! p with
  | Some b => Resolved b
  | None => Rejected (Error (String.append "ENOENT: no such file or directory, open " p))
  end.

Section WithEnvironment.

(** [WRITE_LIMIT_CHUNK] is imported from './constants'. *)
Variable WRITE_LIMIT_CHUNK : nat.

(** [deserialize] is imported from '@parcel/core'. *)
Variable T : Type.
Variable deserialize : Buffer → T.

(** Node writes a string to a file in its UTF-8 encoding. *)
Variable utf8 : list ascii → Buffer.

(** The bytes that [writeFile] stores for [contents]. *)
Definition file_bytes (contents : Contents) : Buffer :=
  match contents with
  | Buf b => b
  | Str s => utf8 s
  end.

(** [this.fs.writeFile(path, contents)] *)
Definition fs_writeFile (f : gmap string Buffer) (p : string) (c : Contents)
  : gmap string Buffer :=
  <[p := file_bytes c]> f.

(** [has(key)] *)
Definition has (c : Cache) (key : string) : Outcome bool :=
  Resolved (bool_decide (is_Some (store c !! key))).

(** [get(key)]: the resolved value is [None] for [null]. *)
Definition get (c : Cache) (key : string) : Outcome (option T) :=
  let data := store c !! key in
  match data with
  | None => Resolved None
  | Some data => Resolved (Some (deserialize data))
  end.

(** [getBlob(key)] *)
Definition getBlob (c : Cache) (key : string) : Outcome Buffer :=
  let buffer := store c !! key in
  match buffer with
  | Some buffer => Resolved buffer
  | None =>
      Rejected (Error (String.append "Key " (String.append key " not found in cache")))
  end.

(** [setBlob(key, contents)] for a buffer. *)
Definition setBlob (c : Cache) (key : string) (contents : Buffer) : Cache :=
  with_store c (<[key := contents]> (store c)).

(** [serialize] is imported from '@parcel/core'. *)
Variable serialize : T → Buffer.

(** [set(key, value)] *)
Definition set (c : Cache) (key : string) (value : T) : Cache :=
  setBlob c key (serialize value).

(** [getBuffer(key)]: the resolved value is [None] for [undefined]. *)
Definition getBuffer (c : Cache) (key : string) : Outcome (option Buffer) :=
  Resolved (store c !! key).

(** [hasLargeBlob(key)] *)
Definition hasLargeBlob (c : Cache) (key : string) : Outcome bool :=
  Resolved (fs_exists (fs c) (getFilePath c key 0)).

(** The [for] loop of [getLargeBlob]: the read promises pushed from index
    [i] on. [None] when the iteration budget [fuel] is used up. *)
Fixpoint getLargeBlob_loop (fuel : nat) (c : Cache) (key : string) (i : nat)
  : option (list (Outcome Buffer)) :=
  match fuel with
  | O => None
  | S fuel' =>
      if fs_exists (fs c) (getFilePath c key i) then
        let file := fs_readFile (fs c) (getFilePath c key i) in
        match getLargeBlob_loop fuel' c key (S i) with
        | Some buffers => Some (file :: buffers)
        | None => None
        end
      else Some []
  end.

(** [Promise.all(buffers)] *)
Fixpoint promise_all {A} (ps : list (Outcome A)) : Outcome (list A) :=
  match ps with
  | [] => Resolved []
  | Resolved a :: ps' =>
      match promise_all ps' with
      | Resolved l => Resolved (a :: l)
      | Rejected e => Rejected e
      end
  | Rejected e :: _ => Rejected e
  end.

(** [getLargeBlob(key)]. Every iteration of the loop finds a distinct
    existing file, so one more iteration than there are files is enough
    (see [getLargeBlob_loop_total]). *)
Definition getLargeBlob (c : Cache) (key : string) : option (Outcome Buffer) :=
  match getLargeBlob_loop (S (size (fs c))) c key 0 with
  | Some buffers =>
      Some (match promise_all buffers with
            | Resolved l => Resolved (concat l)
            | Rejected e => Rejected e
            end)
  | None => None
  end.

(** [Math.ceil(a / b)] for non-negative integers, [b] positive. *)
Definition ceil_div (a b : nat) : nat :=
  a / b + (if (a mod b =? 0)%nat then 0 else 1).

(** The payload of chunk [i]: [contents.slice] or [contents.subarray]. *)
Definition chunk (contents : Contents) (i : nat) : Contents :=
  match contents with
  | Str s => Str (slice s (i * WRITE_LIMIT_CHUNK) ((i + 1) * WRITE_LIMIT_CHUNK))
  | Buf b => Buf (slice b (i * WRITE_LIMIT_CHUNK) ((i + 1) * WRITE_LIMIT_CHUNK))
  end.

(** The chunk writes of [setLargeBlob], [i] running over [indices]. All
    writes succeed; they go to distinct files, so the order in which the
    concurrent writes land does not matter. *)
Definition write_chunks (c : Cache) (key : string) (contents : Contents)
    (indices : list nat) (f : gmap string Buffer) : gmap string Buffer :=
  foldl (λ f i, fs_writeFile f (getFilePath c key i) (chunk contents i)) f indices.

(** [setLargeBlob(key, contents)] *)
Definition setLargeBlob (c : Cache) (key : string) (contents : Contents) : Cache :=
  let chunks := ceil_div (contents_length contents) WRITE_LIMIT_CHUNK in
  if (chunks =? 1)%nat then
    with_fs c (fs_writeFile (fs c) (getFilePath c key 0) contents)
  else
    with_fs c (write_chunks c key contents (seq 0 chunks) (fs c)).

End WithEnvironment.

End LMDBCache.

(** ** The public asset wrappers (public/Asset.js) *)
Module PublicAsset.

(** Object identity: every JavaScript object that a [WeakMap] or a private
    field refers to is named by a reference. *)
Abbreviation Ref := positive.

(** [CommittedAssetId], the address of a committed asset. *)
Abbreviation CommittedAssetId := N.

(** The fields of an asset value record that [MutableAsset] assigns. *)
Record AssetValue : Type := mkAssetValue {
  type : string;
  isBundleSplittable : bool;
  sideEffects : bool;
  uniqueKey : option string;
}.

(** An [UncommittedAsset]: [asset.value] refers to a value record in the
    heap, [asset.options] to the build options. *)
Record UncommittedAsset : Type := mkUncommittedAsset {
  value : Ref;
  options : Ref;
}.

(** An [InternalCommittedAsset], with [asset.value.addr]. *)
Record InternalCommittedAsset : Type := mkInternalCommittedAsset {
  addr : CommittedAssetId;
  committed_options : Ref;
}.

(** The module state: the heap of value records, the private [#asset]
    field of every wrapper object, the allocator of wrapper objects, and
    the five module level maps. [committedAssetValueToAsset] is a [Map]
    obtained from [createBuildCache()]; the others are [WeakMap]s, whose
    entries live as long as their key is reachable. *)
Record Heap : Type := mkHeap {
  next_object : Ref;
  values : gmap Ref AssetValue;
  asset_field : gmap Ref UncommittedAsset;
  committed_asset_field : gmap Ref InternalCommittedAsset;
  uncommittedAssetValueToAsset : gmap Ref Ref;
  committedAssetValueToAsset : gmap CommittedAssetId Ref;
  assetValueToMutableAsset : gmap Ref Ref;
  _assetToAssetValue : gmap Ref CommittedAssetId;
  _mutableAssetToUncommittedAsset : gmap Ref UncommittedAsset;
}.

(** [new Asset(asset)]. In a derived class [this] is allocated by
    [super(asset)], after the lookup. *)
Definition new_Asset (asset : UncommittedAsset) (h : Heap) : Ref * Heap :=
  match uncommittedAssetValueToAsset h !! value asset with
  | Some existing => (existing, h)
  | None =>
      let this := next_object h in
      (this,
       mkHeap (Pos.succ this) (values h)
         (<[this := asset]> (asset_field h))
         (committed_asset_field h)
         (<[value asset := this]> (uncommittedAssetValueToAsset h))
         (committedAssetValueToAsset h)
         (assetValueToMutableAsset h)
         (_assetToAssetValue h)
         (_mutableAssetToUncommittedAsset h))
  end.

(** [new MutableAsset(asset)] *)
Definition new_MutableAsset (asset : UncommittedAsset) (h : Heap) : Ref * Heap :=
  match assetValueToMutableAsset h !! value asset with
  | Some existing => (existing, h)
  | None =>
      let this := next_object h in
      (this,
       mkHeap (Pos.succ this) (values h)
         (<[this := asset]> (asset_field h))
         (committed_asset_field h)
         (uncommittedAssetValueToAsset h)
         (committedAssetValueToAsset h)
         (<[value asset := this]> (assetValueToMutableAsset h))
         (_assetToAssetValue h)
         (<[this := asset]> (_mutableAssetToUncommittedAsset h)))
  end.

(** [new CommittedAsset(asset)]. The class has no parent, so [this] is
    allocated on entry, also when the existing wrapper is returned. *)
Definition new_CommittedAsset (asset : InternalCommittedAsset) (h : Heap)
  : Ref * Heap :=
  let this := next_object h in
  match committedAssetValueToAsset h !! addr asset with
  | Some existing =>
      (existing,
       mkHeap (Pos.succ this) (values h) (asset_field h)
         (committed_asset_field h)
         (uncommittedAssetValueToAsset h)
         (committedAssetValueToAsset h)
         (assetValueToMutableAsset h)
         (_assetToAssetValue h)
         (_mutableAssetToUncommittedAsset h))
  | None =>
      (this,
       mkHeap (Pos.succ this) (values h) (asset_field h)
         (<[this := asset]> (committed_asset_field h))
         (uncommittedAssetValueToAsset h)
         (<[addr asset := this]> (committedAssetValueToAsset h))
         (assetValueToMutableAsset h)
         (<[this := addr asset]> (_assetToAssetValue h))
         (_mutableAssetToUncommittedAsset h))
  end.

(** Assignment to a field of the value record at [v]. *)
Definition store_value (h : Heap) (v : Ref) (r : AssetValue) : Heap :=
  mkHeap (next_object h) (<[v := r]> (values h)) (asset_field h)
    (committed_asset_field h)
    (uncommittedAssetValueToAsset h)
    (committedAssetValueToAsset h)
    (assetValueToMutableAsset h)
    (_assetToAssetValue h)
    (_mutableAssetToUncommittedAsset h).

(** [this.#asset.value] of a wrapper of an uncommitted asset; [None] for a
    reference that is no such wrapper. *)
Definition asset_value (h : Heap) (this : Ref) : option (Ref * AssetValue) :=
  match asset_field h !! this with
  | Some asset =>
      match values h !! value asset with
      | Some r => Some (value asset, r)
      | None => None
      end
  | None => None
  end.

(** [get uniqueKey()] of [BaseAsset] and [MutableAsset]. *)
Definition get_uniqueKey (h : Heap) (this : Ref) : option (option string) :=
  match asset_value h this with
  | Some (_, r) => Some (uniqueKey r)
  | None => None
  end.

(** [set uniqueKey(uniqueKey)] of [MutableAsset]: the outcome of the
    assignment and the heap after it. *)
Definition set_uniqueKey (h : Heap) (this : Ref) (new_uniqueKey : option string)
  : option (Outcome unit * Heap) :=
  match asset_value h this with
  | Some (v, r) =>
      match uniqueKey r with
      | Some _ =>
          Some (Rejected
                  (Error "Cannot change an asset's uniqueKey after it has been set."),
                h)
      | None =>
          Some (Resolved tt,
                store_value h v
                  (mkAssetValue (type r) (isBundleSplittable r) (sideEffects r)
                     new_uniqueKey))
      end
  | None => None
  end.

(** [set sideEffects(sideEffects)] of [MutableAsset]. *)
Definition set_sideEffects (h : Heap) (this : Ref) (new_sideEffects : bool)
  : option Heap :=
  match asset_value h this with
  | Some (v, r) =>
      Some (store_value h v
              (mkAssetValue (type r) (isBundleSplittable r) new_sideEffects
                 (uniqueKey r)))
  | None => None
  end.

(** A call into the module. *)
Inductive Call : Type :=
| NewAsset (asset : UncommittedAsset)
| NewMutableAsset (asset : UncommittedAsset)
| NewCommittedAsset (asset : InternalCommittedAsset)
| SetUniqueKey (this : Ref) (k : option string)
| SetSideEffects (this : Ref) (b : bool).

(** The heap after a call; a setter on a reference that is no wrapper is
    no call at all and leaves the heap as it is. *)
Definition call (c : Call) (h : Heap) : Heap :=
  match c with
  | NewAsset a => snd (new_Asset a h)
  | NewMutableAsset a => snd (new_MutableAsset a h)
  | NewCommittedAsset a => snd (new_CommittedAsset a h)
  | SetUniqueKey this k =>
      match set_uniqueKey h this k with
      | Some (_, h') => h'
      | None => h
      end
  | SetSideEffects this b =>
      match set_sideEffects h this b with
      | Some h' => h'
      | None => h
      end
  end.

(** The heap after a sequence of calls. *)
Definition calls (cs : list Call) (h : Heap) : Heap :=
  foldl (λ h c, call c h) h cs.

End PublicAsset.

(** ** replaceBundleReferences.js *)
Module ReplaceBundleReferences.

(** A JavaScript string, as its sequence of code units. *)
Abbreviation Text := (list ascii).

(** The string ['\n']. *)
Definition newline : Text := ["010"%char].

(** *** [Map<string, V>]: entries in insertion order, keys unique *)

Definition JsMap (V : Type) : Type := list (Text * V).

(** [map.get(key)] *)
Fixpoint map_get {V} (m : JsMap V) (key : Text) : option V :=
  match m with
  | [] => None
  | (k, v) :: m' => if decide (k = key) then Some v else map_get m' key
  end.

(** [map.set(key, v)]: an existing key keeps its place. *)
Fixpoint map_set {V} (m : JsMap V) (key : Text) (v : V) : JsMap V :=
  match m with
  | [] => [(key, v)]
  | (k, v') :: m' =>
      if decide (k = key) then (k, v) :: m' else (k, v') :: map_set m' key v
  end.

(** [map.keys()] and [map.values()] *)
Definition map_keys {V} (m : JsMap V) : list Text := m.*1.
Definition map_values {V} (m : JsMap V) : list V := m.*2.

(** [new Map(entries)] *)
Definition new_Map {V} (entries : list (Text * V)) : JsMap V :=
  foldl (λ m kv, map_set m kv.1 kv.2) [] entries.

(** *** [regexReplaceWithLocations] *)

(** [keys.sort((a, b) => b.length - a.length)]: a stable sort, longest key
    first. *)
Fixpoint sort_insert (k : Text) (sorted : list Text) : list Text :=
  match sorted with
  | [] => [k]
  | k' :: rest =>
      if (length k' <=? length k)%nat then k :: k' :: rest
      else k' :: sort_insert k rest
  end.

Definition sort_by_length (keys : list Text) : list Text :=
  foldr sort_insert [] keys.

(** The order of the sorted keys: [a] may stand before [b] when it is at
    least as long. *)
Definition longer_first (a b : Text) : Prop := length b ≤ length a.

(** Does the literal [k] match at the start of [s]? *)
Fixpoint starts_with (k s : Text) : bool :=
  match k, s with
  | [], _ => true
  | a :: k', b :: s' => if decide (a = b) then starts_with k' s' else false
  | _ :: _, [] => false
  end.

(** The syntax characters of the pattern language. *)
Definition pattern_syntax_characters : list ascii :=
  list_ascii_of_string "\^$.*+?()[]{}|".

(** A key that [new RegExp] reads as the literal token it is: none of its
    code units is a syntax character. *)
Definition literal_key (k : Text) : Prop :=
  Forall (λ c, c ∉ pattern_syntax_characters) k.

(** One match attempt of the pattern [alternatives.join('|')] at the
    current position, [s] being the text from there on: the alternatives
    are tried in order. The keys are dependency ids and are taken as
    literal tokens, free of pattern metacharacters ([literal_key]); a key
    that holds a syntax character is read by [new RegExp] as a pattern,
    which is not modelled. *)
Definition regex_exec (alternatives : list Text) (s : Text) : option Text :=
  List.find (λ k, starts_with k s) alternatives.

(** [input.replace(regex, callback)] for a global pattern, the variables
    that the callback closes over passed along as [st]. [s] is the input
    from [index] on, [skip] the number of its leading code units that the
    last match still covers, [out] the text produced so far. An empty
    match is followed by a literal copy of the next code unit. *)
Fixpoint replace_from {St : Type} (alternatives : list Text)
    (callback : St → Text → Z → St * Text)
    (s : Text) (index : nat) (skip : nat) (st : St) (out : Text) {struct s}
  : St * Text :=
  match skip with
  | S skip' =>
      match s with
      | [] => (st, out)
      | _ :: s' => replace_from alternatives callback s' (S index) skip' st out
      end
  | O =>
      match regex_exec alternatives s with
      | Some m =>
          let '(st', r) := callback st m (Z.of_nat index) in
          match s with
          | [] => (st', out ++ r)
          | c :: s' =>
              match m with
              | [] =>
                  replace_from alternatives callback s' (S index) 0 st'
                    (out ++ r ++ [c])
              | _ :: m' =>
                  replace_from alternatives callback s' (S index) (length m') st'
                    (out ++ r)
              end
          end
      | None =>
          match s with
          | [] => (st, out)
          | c :: s' =>
              replace_from alternatives callback s' (S index) 0 st (out ++ [c])
          end
      end
  end.

(** An element of [offsets]: [{line, column, offset}]. *)
Record OffsetEntry : Type := mkOffsetEntry {
  entry_line : Z;
  entry_column : Z;
  entry_offset : Z;
}.

(** The variables [line], [offset], [columnStartIndex] and [offsets]. *)
Record ScanState : Type := mkScanState {
  line : Z;
  offset : Z;
  columnStartIndex : Z;
  offsets : list OffsetEntry;
}.

Definition initial_state : ScanState := mkScanState 1 0 0 [].

(** The callback [(match, index) => ...]. *)
Definition replace_callback (replacementMap : JsMap Text) (st : ScanState)
    (match_ : Text) (index : Z) : ScanState * Text :=
  if decide (match_ = newline) then
    (mkScanState (line st + 1) (offset st) (index + offset st + 1) (offsets st),
     newline)
  else
    match map_get replacementMap match_ with
    | Some replacement =>
        let lengthDifference :=
          (Z.of_nat (length replacement) - Z.of_nat (length match_))%Z in
        if decide (lengthDifference ≠ 0%Z) then
          (mkScanState (line st) (offset st + lengthDifference)
             (columnStartIndex st)
             (offsets st ++
              [mkOffsetEntry (line st)
                 (index + offset st - columnStartIndex st)
                 lengthDifference]),
           replacement)
        else (st, replacement)
    | None => (st, match_)
    end.

(** The scan of [regexReplaceWithLocations], final state included. *)
Definition scan (input : Text) (replacementMap : JsMap Text) : ScanState * Text :=
  let keysArray := sort_by_length (map_keys replacementMap) in
  let regex := newline :: keysArray in
  replace_from regex (replace_callback replacementMap) input 0 0 initial_state [].

(** [regexReplaceWithLocations(input, replacementMap)]: [{result, offsets}]. *)
Definition regexReplaceWithLocations (input : Text) (replacementMap : JsMap Text)
  : Text * list OffsetEntry :=
  let '(st, result) := scan input replacementMap in
  (result, offsets st).

(** *** Positions in the original text *)










(** *** The two passes *)

(** A [Dependency]. *)
Record Dependency : Type := mkDependency {
  dep_id : Text;
  isURL : bool;
  moduleSpecifier : Text;
}.

(** An entry asset of a bundle, with [asset.meta.inlineType]; [None] is
    [null] or [undefined]. *)
Record EntryAsset : Type := mkEntryAsset {
  inlineType : option Text;
}.

(** A node that [bundle.traverse] visits. *)
Inductive Node : Type :=
| dependency (node_value : Dependency)
| asset (node_value : EntryAsset).

(** A [NamedBundle]: [name], [isInline], [target.publicUrl], the nodes
    that [traverse] visits, in order, and [getEntryAssets()]. *)
Record Bundle : Type := mkBundle {
  name : option Text;
  bundle_isInline : bool;
  publicUrl : Text;
  traverse : list Node;
  getEntryAssets : list EntryAsset;
}.

(** [{from, to}] *)
Record Replacement : Type := mkReplacement {
  from : Text;
  to : Text;
}.

(** A [SourceMap], as the [offsetColumns(line, column, offset)] calls it
    has received. *)
Abbreviation SourceMap := (list (Z * Z * Z)).

(** A [Blob]: a string, a buffer, or a readable stream given by the bytes
    it yields. *)
Inductive Blob : Type :=
| BlobString (s : Text)
| BlobBuffer (b : Buffer)
| BlobReadable (b : Buffer).

(** [nullthrows(x)] *)
Definition nullthrows {A} (x : option A) : Outcome A :=
  match x with
  | Some a => Resolved a
  | None => Rejected (Error "Got unexpected undefined")
  end.

(** [performReplacement(replacements, contents, map)] *)
Definition performReplacement (replacements : JsMap Replacement)
    (contents : Text) (map : option SourceMap) : Text * option SourceMap :=
  let '(result, offsets) :=
    regexReplaceWithLocations contents
      (new_Map ((λ val, (from val, to val)) <$> map_values replacements)) in
  (result,
   match map with
   | Some m =>
       Some (foldl (λ m o, m ++ [(entry_line o, entry_column o, entry_offset o)])
               m offsets)
   | None => None
   end).

Section Passes.

(** The bundle graph query [bundleGraph.getReferencedBundle(dependency,
    bundle)]. *)
Variable getReferencedBundle : Dependency → Bundle → option Bundle.

(** [URL.parse], assignment to [url.pathname], [URL.format], and the
    helpers [relativeBundlePath(from, to, {leadingDotSlash: false})] and
    [urlJoin], all imported. *)
Variable Url : Type.
Variable URL_parse : Text → Url.
Variable set_pathname : Url → Text → Url.
Variable URL_format : Url → Text.
Variable relativeBundlePath : Bundle → Bundle → Text.
Variable urlJoin : Text → Text → Text.

(** [getURLReplacement({dependency, fromBundle, toBundle, relative})] *)
Definition getURLReplacement (d : Dependency) (fromBundle toBundle : Bundle)
    (relative : bool) : Outcome Replacement :=
  let url := URL_parse (moduleSpecifier d) in
  if relative then
    let url := set_pathname url (relativeBundlePath fromBundle toBundle) in
    Resolved (mkReplacement (dep_id d) (URL_format url))
  else
    match nullthrows (name toBundle) with
    | Resolved n =>
        let url := set_pathname url n in
        Resolved (mkReplacement (dep_id d) (urlJoin (publicUrl toBundle) (URL_format url)))
    | Rejected e => Rejected e
    end.

(** [urlDependencies], collected by the traversal. *)
Definition urlDependencies (bundle : Bundle) : list Dependency :=
  flat_map (λ node,
    match node with
    | dependency d => if isURL d then [d] else []
    | asset _ => []
    end) (traverse bundle).

(** One iteration of the loop of [replaceURLReferences]. *)
Definition url_step (bundle : Bundle) (relative : bool)
    (replacements : JsMap Replacement) (d : Dependency)
  : Outcome (JsMap Replacement) :=
  if negb (isURL d) then Resolved replacements
  else
    match getReferencedBundle d bundle with
    | None =>
        Resolved (map_set replacements (dep_id d)
                    (mkReplacement (dep_id d) (moduleSpecifier d)))
    | Some resolved =>
        if bundle_isInline resolved then Resolved replacements
        else
          match getURLReplacement d bundle resolved relative with
          | Resolved r => Resolved (map_set replacements (dep_id d) r)
          | Rejected e => Rejected e
          end
    end.

(** A [for ... of] loop whose body may throw. *)
Fixpoint for_of {A B} (body : B → A → Outcome B) (l : list A) (b : B) : Outcome B :=
  match l with
  | [] => Resolved b
  | a :: l' =>
      match body b a with
      | Resolved b' => for_of body l' b'
      | Rejected e => Rejected e
      end
  end.

(** The replacement map that [replaceURLReferences] builds. *)
Definition url_replacements (bundle : Bundle) (relative : bool)
  : Outcome (JsMap Replacement) :=
  for_of (url_step bundle relative) (urlDependencies bundle) [].

(** [replaceURLReferences({bundle, bundleGraph, contents, map, relative})] *)
Definition replaceURLReferences (bundle : Bundle) (contents : Text)
    (map : option SourceMap) (relative : bool)
  : Outcome (Text * option SourceMap) :=
  match url_replacements bundle relative with
  | Resolved replacements => Resolved (performReplacement replacements contents map)
  | Rejected e => Rejected e
  end.

(** The callbacks of [replaceInlineReferences], and [Buffer.toString()]. *)
Variable getInlineReplacement : Dependency → option Text → Text → Replacement.
Variable getInlineBundleContents : Bundle → Outcome Blob.
Variable buffer_toString : Buffer → Text.

(** [(contents instanceof Readable ? await bufferStream(contents) :
    contents).toString()] *)
Definition blob_toString (contents : Blob) : Text :=
  match contents with
  | BlobString s => s
  | BlobBuffer b => buffer_toString b
  | BlobReadable b => buffer_toString b
  end.

(** [dependencies], collected by the traversal. *)
Definition dependencies (bundle : Bundle) : list Dependency :=
  flat_map (λ node,
    match node with
    | dependency d => [d]
    | asset _ => []
    end) (traverse bundle).

(** One iteration of the loop of [replaceInlineReferences]. *)
Definition inline_step (bundle : Bundle) (replacements : JsMap Replacement)
    (d : Dependency) : Outcome (JsMap Replacement) :=
  match getReferencedBundle d bundle with
  | None => Resolved replacements
  | Some entryBundle =>
      if negb (bundle_isInline entryBundle) then Resolved replacements
      else
        match getInlineBundleContents entryBundle with
        | Rejected e => Rejected e
        | Resolved packagedBundle =>
            let packagedContents := blob_toString packagedBundle in
            match nullthrows (head (getEntryAssets entryBundle)) with
            | Rejected e => Rejected e
            | Resolved entry =>
                let inlineType := inlineType entry in
                if bool_decide (inlineType = None
                                ∨ inlineType = Some (list_ascii_of_string "string"))
                then
                  Resolved (map_set replacements (dep_id d)
                              (getInlineReplacement d inlineType packagedContents))
                else Resolved replacements
            end
        end
  end.

(** The replacement map that [replaceInlineReferences] builds. *)
Definition inline_replacements (bundle : Bundle) : Outcome (JsMap Replacement) :=
  for_of (inline_step bundle) (dependencies bundle) [].

(** [replaceInlineReferences({bundle, bundleGraph, contents, map,
    getInlineReplacement, getInlineBundleContents})] *)
Definition replaceInlineReferences (bundle : Bundle) (contents : Text)
    (map : option SourceMap) : Outcome (Text * option SourceMap) :=
  match inline_replacements bundle with
  | Resolved replacements => Resolved (performReplacement replacements contents map)
  | Rejected e => Rejected e
  end.

End Passes.

End ReplaceBundleReferences.

(** ** public/Asset.js: the exported lookups and the remaining accessors *)
Module PublicAssetLookups.

Import PublicAsset.

(** The module state when the module is loaded: the five maps are empty
    and no wrapper has been constructed. *)
Definition initial_heap (next : Ref) (values : gmap Ref AssetValue) : Heap :=
  mkHeap next values ∅ ∅ ∅ ∅ ∅ ∅ ∅.

(** [assetToAssetValue(asset)] *)
Definition assetToAssetValue (h : Heap) (asset : Ref) : Outcome CommittedAssetId :=
  ReplaceBundleReferences.nullthrows (_assetToAssetValue h !! asset).

(** [mutableAssetToUncommittedAsset(mutableAsset)] *)
Definition mutableAssetToUncommittedAsset (h : Heap) (mutableAsset : Ref)
  : Outcome UncommittedAsset :=
  ReplaceBundleReferences.nullthrows (_mutableAssetToUncommittedAsset h !! mutableAsset).

(** [get sideEffects()] of [BaseAsset] and [MutableAsset]. *)
Definition get_sideEffects (h : Heap) (this : Ref) : option bool :=
  match asset_value h this with
  | Some (_, r) => Some (sideEffects r)
  | None => None
  end.

(** [get isBundleSplittable()] of [BaseAsset] and [MutableAsset]. *)
Definition get_isBundleSplittable (h : Heap) (this : Ref) : option bool :=
  match asset_value h this with
  | Some (_, r) => Some (isBundleSplittable r)
  | None => None
  end.

(** [set isBundleSplittable(isBundleSplittable)] of [MutableAsset]. *)
Definition set_isBundleSplittable (h : Heap) (this : Ref) (b : bool) : option Heap :=
  match asset_value h this with
  | Some (v, r) =>
      Some (store_value h v
              (mkAssetValue (type r) b (sideEffects r) (uniqueKey r)))
  | None => None
  end.

(** What the constructors keep true of the module state: a wrapper object
    is allocated before the allocator's next reference; a registered
    wrapper holds, in its [#asset], the identity it is registered under,
    and has its entry in the lookup map of its class; a wrapper is
    registered in one of the three maps only; only wrappers of committed
    assets have an entry in [_assetToAssetValue], only wrappers from the
    [MutableAsset] map one in [_mutableAssetToUncommittedAsset]. *)
Record heap_consistent (h : Heap) : Prop := mkConsistent {
  asset_field_allocated :
    ∀ w a, asset_field h !! w = Some a → (w < next_object h)%positive;
  committed_asset_field_allocated :
    ∀ w a, committed_asset_field h !! w = Some a → (w < next_object h)%positive;
  asset_registered :
    ∀ v w, uncommittedAssetValueToAsset h !! v = Some w →
           ∃ a, asset_field h !! w = Some a ∧ value a = v;
  mutable_registered :
    ∀ v w, assetValueToMutableAsset h !! v = Some w →
           ∃ a, asset_field h !! w = Some a ∧ value a = v
                ∧ _mutableAssetToUncommittedAsset h !! w = Some a;
  committed_registered :
    ∀ ad w, committedAssetValueToAsset h !! ad = Some w →
            ∃ a, committed_asset_field h !! w = Some a ∧ addr a = ad
                 ∧ _assetToAssetValue h !! w = Some ad;
  asset_not_mutable :
    ∀ v v' w, uncommittedAssetValueToAsset h !! v = Some w →
              assetValueToMutableAsset h !! v' = Some w → False;
  asset_not_committed :
    ∀ w a, asset_field h !! w = Some a → committed_asset_field h !! w = None;
  assetToAssetValue_committed :
    ∀ w ad, _assetToAssetValue h !! w = Some ad →
            is_Some (committed_asset_field h !! w);
  mutableAssetToUncommittedAsset_mutable :
    ∀ w a, _mutableAssetToUncommittedAsset h !! w = Some a →
           assetValueToMutableAsset h !! value a = Some w;
}.

End PublicAssetLookups.

(** * Properties *)

(** ** LMDBCache *)
Section LMDBCacheFacts.

Import LMDBCache.

Context (WRITE_LIMIT_CHUNK : nat) (T : Type) (deserialize : Buffer → T)
        (utf8 : list ascii → Buffer).

Local Abbreviation setLargeBlob := (LMDBCache.setLargeBlob WRITE_LIMIT_CHUNK utf8).
Local Abbreviation write_chunks := (LMDBCache.write_chunks WRITE_LIMIT_CHUNK utf8).
Local Abbreviation chunk := (LMDBCache.chunk WRITE_LIMIT_CHUNK).

(** *** File names *)

Lemma append_inj_r (p a b : string) :
  String.append p a = String.append p b → a = b.
Proof.
  induction p as [|ch p IH]; simpl; [done|].
  intros H. injection H as H. by apply IH.
Qed.

Lemma number_to_string_inj (i j : nat) :
  number_to_string i = number_to_string j → i = j.
Proof.
  unfold number_to_string. intros H.
  apply (f_equal NilEmpty.uint_of_string) in H.
  rewrite !NilEmpty.usu in H.
  injection H as H.
  apply (f_equal Nat.of_uint) in H.
  by rewrite !DecimalNat.Unsigned.of_to in H.
Qed.

Lemma getFilePath_inj (c : Cache) (key : string) (i j : nat) :
  getFilePath c key i = getFilePath c key j → i = j.
Proof.
  unfold getFilePath, path_join. intros H.
  do 4 apply append_inj_r in H.
  by apply number_to_string_inj.
Qed.

Lemma getFilePath_dir (c c' : Cache) (key : string) (i : nat) :
  dir c' = dir c → getFilePath c' key i = getFilePath c key i.
Proof. unfold getFilePath. by intros ->. Qed.

Lemma with_fs_same (c : Cache) : with_fs c (fs c) = c.
Proof. by destruct c. Qed.

Lemma fs_exists_true (f : gmap string Buffer) (p : string) :
  fs_exists f p = true ↔ is_Some (f !! p).
Proof. unfold fs_exists. apply bool_decide_eq_true. Qed.

Lemma fs_exists_false (f : gmap string Buffer) (p : string) :
  fs_exists f p = false ↔ f !! p = None.
Proof.
  unfold fs_exists. rewrite bool_decide_eq_false.
  by rewrite eq_None_not_Some.
Qed.

(** *** The read loop *)

(** The files [key-i], ..., [key-(i+n-1)] are [n] different files. *)
Lemma chunk_files_bound (c : Cache) (key : string) (n i : nat)
    (f : gmap string Buffer) :
  (∀ j, i ≤ j < i + n → is_Some (f !! getFilePath c key j)) → n ≤ size f.
Proof.
  revert i f. induction n as [|n IH]; intros i f Hall; [lia|].
  assert (is_Some (f !! getFilePath c key i)) as Hi by (apply Hall; lia).
  specialize (IH (S i) (delete (getFilePath c key i) f)).
  rewrite map_size_delete_Some in IH by done.
  assert (size f ≠ 0).
  { intros Hz. apply map_size_empty_inv in Hz. subst f.
    rewrite lookup_empty in Hi. by destruct Hi. }
  enough (n ≤ Nat.pred (size f)) by lia.
  apply IH. intros j Hj.
  rewrite lookup_delete_ne; [apply Hall; lia|].
  intros Heq. apply getFilePath_inj in Heq. lia.
Qed.

(** The loop stops at the first missing chunk, whatever budget is left. *)
Lemma getLargeBlob_loop_stops (c : Cache) (key : string) (n : nat) :
  ∀ fuel i,
    (∀ j, i ≤ j < i + n → is_Some (fs c !! getFilePath c key j)) →
    fs c !! getFilePath c key (i + n) = None →
    n < fuel →
    getLargeBlob_loop fuel c key i =
      Some ((λ j, fs_readFile (fs c) (getFilePath c key j)) <$> seq i n).
Proof.
  induction n as [|n IH]; intros fuel i Hall Hnone Hfuel.
  - destruct fuel as [|fuel]; [lia|]. simpl.
    rewrite Nat.add_0_r in Hnone.
    apply fs_exists_false in Hnone. by rewrite Hnone.
  - destruct fuel as [|fuel]; [lia|]. simpl.
    assert (fs_exists (fs c) (getFilePath c key i) = true) as ->.
    { apply fs_exists_true, Hall. lia. }
    rewrite (IH fuel (S i)); [done| |by replace (S i + n) with (i + S n) by lia|lia].
    intros j Hj. apply Hall. lia.
Qed.

(** The loop always ends within the budget that [getLargeBlob] gives it. *)
Lemma getLargeBlob_loop_total (c : Cache) (key : string) :
  ∃ n,
    (∀ j, j < n → is_Some (fs c !! getFilePath c key j)) ∧
    fs c !! getFilePath c key n = None ∧
    getLargeBlob_loop (S (size (fs c))) c key 0 =
      Some ((λ j, fs_readFile (fs c) (getFilePath c key j)) <$> seq 0 n).
Proof.
  assert (∃ n, n ≤ size (fs c) ∧
               (∀ j, j < n → is_Some (fs c !! getFilePath c key j)) ∧
               fs c !! getFilePath c key n = None) as (n & Hle & Hall & Hnone).
  { assert (∀ k, (∀ j, j < k → is_Some (fs c !! getFilePath c key j)) →
                 k ≤ size (fs c)) as Hbound.
    { intros k Hk. apply (chunk_files_bound c key k 0). intros j Hj. apply Hk. lia. }
    assert (∀ k, (∀ j, j < k → is_Some (fs c !! getFilePath c key j)) →
                 ∃ n, n ≤ size (fs c) ∧
                      (∀ j, j < n → is_Some (fs c !! getFilePath c key j)) ∧
                      fs c !! getFilePath c key n = None) as Hsearch.
    { intros k. remember (size (fs c) - k) as d eqn:Hd.
      revert k Hd. induction d as [|d IH]; intros k Hd Hk.
      - destruct (fs c !! getFilePath c key k) eqn:E.
        + exfalso. assert (S k ≤ size (fs c)); [|lia].
          apply Hbound. intros j Hj.
          destruct (decide (j = k)) as [->|]; [by rewrite E|apply Hk; lia].
        + exists k. split; [by apply Hbound|done].
      - destruct (fs c !! getFilePath c key k) eqn:E.
        + apply (IH (S k)); [lia|]. intros j Hj.
          destruct (decide (j = k)) as [->|]; [by rewrite E|apply Hk; lia].
        + exists k. split; [by apply Hbound|done]. }
    apply (Hsearch 0). intros j Hj. lia. }
  exists n. split; [done|]. split; [done|].
  apply getLargeBlob_loop_stops; [|done|lia].
  intros j Hj. apply Hall. lia.
Qed.

(** [getLargeBlob] returns: the budget never runs out. *)
Lemma getLargeBlob_total (c : Cache) (key : string) :
  is_Some (getLargeBlob c key).
Proof.
  unfold getLargeBlob.
  destruct (getLargeBlob_loop_total c key) as (n & _ & _ & ->). eauto.
Qed.

Lemma promise_all_resolved {A} (l : list A) :
  promise_all (Resolved <$> l) = Resolved l.
Proof.
  induction l as [|a l IH]; [done|].
  rewrite fmap_cons. cbn [promise_all]. by rewrite IH.
Qed.

(** What [getLargeBlob] returns when chunks [0..n-1] exist and chunk [n]
    does not. *)
Lemma getLargeBlob_chunks (c : Cache) (key : string) (n : nat)
    (g : nat → Buffer) :
  (∀ j, j < n → fs c !! getFilePath c key j = Some (g j)) →
  fs c !! getFilePath c key n = None →
  getLargeBlob c key = Some (Resolved (concat (g <$> seq 0 n))).
Proof.
  intros Hall Hnone. unfold getLargeBlob.
  rewrite (getLargeBlob_loop_stops c key n).
  - replace ((λ j, fs_readFile (fs c) (getFilePath c key j)) <$> seq 0 n)
      with (Resolved <$> (g <$> seq 0 n)).
    + by rewrite promise_all_resolved.
    + rewrite <- list_fmap_compose. apply list_fmap_ext.
      intros i j Hj. apply lookup_seq in Hj as [-> Hj]. simpl.
      unfold fs_readFile. by rewrite Hall.
  - intros j Hj. rewrite Hall; [eauto|lia].
  - done.
  - enough (n ≤ size (fs c)) by lia.
    apply (chunk_files_bound c key n 0). intros j Hj. rewrite Hall; [eauto|lia].
Qed.

(** *** The chunk writes *)

Local Abbreviation file_bytes := (LMDBCache.file_bytes utf8).

Lemma write_chunks_lookup (c : Cache) (key : string) (contents : Contents)
    (indices : list nat) (f : gmap string Buffer) (i : nat) :
  i ∈ indices ∨ f !! getFilePath c key i = Some (file_bytes (chunk contents i)) →
  write_chunks c key contents indices f !! getFilePath c key i
    = Some (file_bytes (chunk contents i)).
Proof.
  revert f. induction indices as [|a l IH]; intros f H.
  - destruct H as [H|H]; [by apply elem_of_nil in H|done].
  - cbn [LMDBCache.write_chunks foldl]. apply IH.
    destruct (decide (i = a)) as [->|Hne].
    + right. unfold fs_writeFile. by rewrite lookup_insert_eq.
    + destruct H as [H|H].
      * left. apply elem_of_cons in H as [?|?]; [done|done].
      * right. unfold fs_writeFile. rewrite lookup_insert_ne; [done|].
        intros Heq. by apply getFilePath_inj in Heq.
Qed.

Lemma write_chunks_lookup_other (c : Cache) (key : string) (contents : Contents)
    (indices : list nat) (f : gmap string Buffer) (p : string) :
  (∀ i, i ∈ indices → getFilePath c key i ≠ p) →
  write_chunks c key contents indices f !! p = f !! p.
Proof.
  revert f. induction indices as [|a l IH]; intros f H; [done|].
  cbn [LMDBCache.write_chunks foldl].
  etrans; [apply IH|].
  - intros i Hi. apply H. by apply elem_of_cons; right.
  - unfold fs_writeFile. rewrite lookup_insert_ne; [done|].
    apply H. by apply elem_of_cons; left.
Qed.

Lemma ceil_div_upper (a b : nat) : 0 < b → a ≤ ceil_div a b * b.
Proof.
  intros Hb. unfold ceil_div.
  pose proof (Nat.div_mod_eq a b) as Hdm.
  pose proof (Nat.mod_upper_bound a b ltac:(lia)) as Hm.
  destruct (Nat.eqb_spec (a mod b) 0) as [Hz|Hz]; nia.
Qed.

Lemma slice_0_ge {A} (l : list A) (n : nat) : length l ≤ n → slice l 0 n = l.
Proof. intros H. unfold slice. rewrite drop_0, Nat.sub_0_r. by apply take_ge. Qed.

Lemma chunk_0_single (contents : Contents) :
  contents_length contents ≤ WRITE_LIMIT_CHUNK →
  chunk contents 0 = contents.
Proof.
  intros H. destruct contents as [b|s]; unfold LMDBCache.chunk; simpl in *;
    rewrite slice_0_ge; (done || lia).
Qed.

Lemma setLargeBlob_dir (c : Cache) (key : string) (contents : Contents) :
  dir (setLargeBlob c key contents) = dir c.
Proof. unfold LMDBCache.setLargeBlob. by case_match. Qed.

(** After [setLargeBlob], every chunk below the chunk count holds its
    slice of the payload. *)
Lemma setLargeBlob_lookup_chunk (c : Cache) (key : string) (contents : Contents)
    (j : nat) :
  0 < WRITE_LIMIT_CHUNK →
  j < ceil_div (contents_length contents) WRITE_LIMIT_CHUNK →
  fs (setLargeBlob c key contents) !! getFilePath c key j
    = Some (file_bytes (chunk contents j)).
Proof.
  intros HW Hj. unfold LMDBCache.setLargeBlob.
  destruct (Nat.eqb_spec (ceil_div (contents_length contents) WRITE_LIMIT_CHUNK) 1)
    as [H1|H1]; simpl.
  - assert (j = 0) as -> by lia.
    unfold fs_writeFile. rewrite lookup_insert_eq.
    rewrite chunk_0_single; [done|].
    pose proof (ceil_div_upper (contents_length contents) WRITE_LIMIT_CHUNK HW). lia.
  - apply write_chunks_lookup. left. apply elem_of_seq. lia.
Qed.

(** [setLargeBlob] touches no file from the chunk count on. *)
Lemma setLargeBlob_lookup_beyond (c : Cache) (key : string) (contents : Contents)
    (j : nat) :
  ceil_div (contents_length contents) WRITE_LIMIT_CHUNK ≤ j →
  fs (setLargeBlob c key contents) !! getFilePath c key j
    = fs c !! getFilePath c key j.
Proof.
  intros Hj. unfold LMDBCache.setLargeBlob.
  destruct (Nat.eqb_spec (ceil_div (contents_length contents) WRITE_LIMIT_CHUNK) 1)
    as [H1|H1]; simpl.
  - unfold fs_writeFile. rewrite lookup_insert_ne; [done|].
    intros Heq. apply getFilePath_inj in Heq. lia.
  - apply write_chunks_lookup_other. intros i Hi Heq.
    apply elem_of_seq in Hi. apply getFilePath_inj in Heq. lia.
Qed.

Lemma concat_slices {A} (l : list A) (w n : nat) :
  concat ((λ j, slice l (j * w) ((j + 1) * w)) <$> seq 0 n) = take (n * w) l.
Proof.
  induction n as [|n IH]; [done|].
  rewrite seq_S, fmap_app, concat_app, IH. simpl.
  rewrite app_nil_r. unfold slice.
  replace ((n + 1) * w - n * w) with w by lia.
  rewrite take_take_drop. f_equal. lia.
Qed.

(** Round trip on a key whose chunk file just above the written ones is
    absent: [getLargeBlob] returns the bytes of the slices, in order. *)
Lemma large_blob_roundtrip_fresh (c : Cache) (key : string) (contents : Contents) :
  0 < WRITE_LIMIT_CHUNK →
  fs c !! getFilePath c key (ceil_div (contents_length contents) WRITE_LIMIT_CHUNK)
    = None →
  getLargeBlob (setLargeBlob c key contents) key =
    Some (Resolved
            (concat ((λ j, file_bytes (chunk contents j)) <$>
                     seq 0 (ceil_div (contents_length contents) WRITE_LIMIT_CHUNK)))).
Proof.
  intros HW Hfresh.
  apply getLargeBlob_chunks.
  - intros j Hj. rewrite (getFilePath_dir c) by apply setLargeBlob_dir.
    by apply setLargeBlob_lookup_chunk.
  - rewrite (getFilePath_dir c) by apply setLargeBlob_dir.
    by rewrite setLargeBlob_lookup_beyond.
Qed.

(** For a buffer that is the payload itself. *)
Lemma large_blob_roundtrip_fresh_buffer (c : Cache) (key : string) (b : Buffer) :
  0 < WRITE_LIMIT_CHUNK →
  fs c !! getFilePath c key (ceil_div (length b) WRITE_LIMIT_CHUNK) = None →
  getLargeBlob (setLargeBlob c key (Buf b)) key = Some (Resolved b).
Proof.
  intros HW Hfresh.
  rewrite large_blob_roundtrip_fresh by done. cbn [contents_length].
  do 2 f_equal.
  change (λ j, file_bytes (chunk (Buf b) j))
    with (λ j, slice b (j * WRITE_LIMIT_CHUNK) ((j + 1) * WRITE_LIMIT_CHUNK)).
  rewrite concat_slices. apply take_ge. by apply ceil_div_upper.
Qed.

(** For every chunk size: on a key that holds a blob of more than one
    chunk, writing a non-empty payload of at most one chunk replaces chunk
    0 only, and the read returns the new payload followed by the old blob
    from its second chunk on. *)
Lemma stale_chunks_after_shorter_overwrite (c : Cache) (key : string)
    (old new : Buffer) :
  0 < WRITE_LIMIT_CHUNK →
  (∀ j, fs c !! getFilePath c key j = None) →
  WRITE_LIMIT_CHUNK < length old →
  0 < length new ≤ WRITE_LIMIT_CHUNK →
  getLargeBlob (setLargeBlob (setLargeBlob c key (Buf old)) key (Buf new)) key
  = Some (Resolved (new ++ drop WRITE_LIMIT_CHUNK old)).
Proof.
  intros HW Hfresh Hold Hnew.
  set (n := ceil_div (length old) WRITE_LIMIT_CHUNK).
  set (c1 := setLargeBlob c key (Buf old)).
  assert (dir c1 = dir c) as Hdir1 by apply setLargeBlob_dir.
  assert (ceil_div (length new) WRITE_LIMIT_CHUNK = 1) as Hn1.
  { unfold ceil_div.
    destruct (decide (length new = WRITE_LIMIT_CHUNK)) as [->|Hne].
    - rewrite Nat.div_same, Nat.Div0.mod_same by lia. done.
    - rewrite Nat.div_small, Nat.mod_small by lia.
      destruct (Nat.eqb_spec (length new) 0); lia. }
  assert (2 ≤ n) as Hn.
  { unfold n, ceil_div.
    pose proof (Nat.div_mod_eq (length old) WRITE_LIMIT_CHUNK).
    pose proof (Nat.mod_upper_bound (length old) WRITE_LIMIT_CHUNK ltac:(lia)).
    destruct (Nat.eqb_spec (length old mod WRITE_LIMIT_CHUNK) 0); nia. }
  rewrite (getLargeBlob_chunks _ key n
             (λ j, if decide (j = 0) then new
                   else slice old (j * WRITE_LIMIT_CHUNK) ((j + 1) * WRITE_LIMIT_CHUNK))).
  - do 2 f_equal.
    pose proof (ceil_div_upper (length old) WRITE_LIMIT_CHUNK HW) as Hup.
    fold n in Hup. clearbody n.
    destruct n as [|n']; [lia|]. cbn [seq fmap list_fmap concat].
    rewrite decide_True by done. f_equal.
    pose proof (concat_slices old WRITE_LIMIT_CHUNK (S n')) as Hall.
    cbn [seq fmap list_fmap concat] in Hall.
    rewrite (take_ge old (S n' * WRITE_LIMIT_CHUNK)) in Hall by done.
    unfold slice at 1 in Hall. rewrite drop_0 in Hall.
    replace ((0 + 1) * WRITE_LIMIT_CHUNK - 0 * WRITE_LIMIT_CHUNK)
      with WRITE_LIMIT_CHUNK in Hall by lia.
    apply (app_inv_head (take WRITE_LIMIT_CHUNK old)).
    rewrite take_drop. etrans; [|exact Hall]. do 2 f_equal.
    apply list_fmap_ext. intros i j Hj. apply lookup_seq in Hj as [-> Hj].
    by rewrite decide_False by lia.
  - intros j Hj.
    rewrite (getFilePath_dir c1) by apply setLargeBlob_dir.
    destruct (decide (j = 0)) as [->|Hj0].
    + rewrite setLargeBlob_lookup_chunk by (done || (cbn; lia)).
      cbn. f_equal. apply slice_0_ge. lia.
    + rewrite setLargeBlob_lookup_beyond by (cbn [contents_length]; lia).
      rewrite (getFilePath_dir c) by done.
      unfold c1. by rewrite setLargeBlob_lookup_chunk.
  - rewrite (getFilePath_dir c1) by apply setLargeBlob_dir.
    rewrite setLargeBlob_lookup_beyond by (cbn [contents_length]; lia).
    rewrite (getFilePath_dir c) by done.
    unfold c1. by rewrite setLargeBlob_lookup_beyond.
Qed.

(** *** Claims *)

(** C5. On a key that is absent from the store, [getBlob] rejects with the
    error "Key <key> not found in cache", while [get] and [getBuffer]
    resolve, with [null] and [undefined]. *)
Theorem getBlob_absent_rejects (c : Cache) (key : string) :
  store c !! key = None →
  getBlob c key
    = Rejected (Error (String.append "Key " (String.append key " not found in cache")))
  ∧ get T deserialize c key = Resolved None
  ∧ getBuffer c key = Resolved None.
Proof.
  intros Habsent. unfold getBlob, get, getBuffer. by rewrite Habsent.
Qed.

(** C8. [hasLargeBlob(key)] is true exactly when the file of chunk 0
    exists; writing or removing the file of any chunk of higher index
    does not change its answer. *)
Theorem hasLargeBlob_probes_chunk_0 (c : Cache) (key : string) :
  (hasLargeBlob c key = Resolved true ↔ is_Some (fs c !! getFilePath c key 0))
  ∧ (∀ (i : nat) (b : Buffer),
       hasLargeBlob (with_fs c (<[getFilePath c key (S i) := b]> (fs c))) key
       = hasLargeBlob c key)
  ∧ (∀ i : nat,
       hasLargeBlob (with_fs c (delete (getFilePath c key (S i)) (fs c))) key
       = hasLargeBlob c key).
Proof.
  split; [|split].
  - unfold hasLargeBlob. rewrite <- fs_exists_true.
    split; [by intros [= ->]|by intros ->].
  - intros i b. unfold hasLargeBlob, fs_exists. simpl.
    rewrite (getFilePath_dir c) by done.
    rewrite lookup_insert_ne; [done|].
    intros Heq. by apply getFilePath_inj in Heq.
  - intros i. unfold hasLargeBlob, fs_exists. simpl.
    rewrite (getFilePath_dir c) by done.
    rewrite lookup_delete_ne; [done|].
    intros Heq. by apply getFilePath_inj in Heq.
Qed.

(** C10. [setLargeBlob] with contents of length 0 writes no file: the
    cache is left as it was. So for a key whose chunk 0 is absent,
    [hasLargeBlob] is false afterwards and [getLargeBlob] returns the empty
    buffer, as they do for a key that was never written. *)
Theorem setLargeBlob_empty_writes_nothing (c : Cache) (key : string)
    (contents : Contents) :
  contents_length contents = 0 →
  setLargeBlob c key contents = c
  ∧ (fs c !! getFilePath c key 0 = None →
     hasLargeBlob (setLargeBlob c key contents) key = Resolved false
     ∧ getLargeBlob (setLargeBlob c key contents) key = Some (Resolved [])
     ∧ hasLargeBlob c key = Resolved false
     ∧ getLargeBlob c key = Some (Resolved [])).
Proof.
  intros Hlen.
  assert (setLargeBlob c key contents = c) as Hsame.
  { unfold LMDBCache.setLargeBlob. rewrite Hlen.
    assert (ceil_div 0 WRITE_LIMIT_CHUNK = 0) as ->.
    { unfold ceil_div. rewrite Nat.Div0.div_0_l, Nat.Div0.mod_0_l. done. }
    simpl. apply with_fs_same. }
  split; [done|]. intros Hfresh. rewrite Hsame.
  assert (hasLargeBlob c key = Resolved false) as Hhas.
  { unfold hasLargeBlob. by apply fs_exists_false in Hfresh as ->. }
  assert (getLargeBlob c key = Some (Resolved [])) as Hget.
  { by rewrite (getLargeBlob_chunks c key 0 (λ _, [])); [|lia|]. }
  done.
Qed.

End LMDBCacheFacts.

Lemma getBlob_absent_rejects_witness :
  let c := LMDBCache.mkCache "cache" {["present" := [Byte.x01]]} ∅ in
  LMDBCache.store c !! "missing" = None
  ∧ LMDBCache.getBlob c "missing" = Rejected (Error "Key missing not found in cache")
  ∧ LMDBCache.get Buffer (λ b, b) c "missing" = Resolved None
  ∧ LMDBCache.getBuffer c "missing" = Resolved None.
Proof.
  split; [reflexivity|].
  apply (getBlob_absent_rejects Buffer (λ b, b)
           (LMDBCache.mkCache "cache" {["present" := [Byte.x01]]} ∅) "missing").
  reflexivity.
Defined.

Lemma setLargeBlob_empty_writes_nothing_witness :
  let c := LMDBCache.mkCache "cache" ∅ {["cache/other-0" := [Byte.x01]]} in
  LMDBCache.contents_length (LMDBCache.Buf []) = 0
  ∧ LMDBCache.fs c !! LMDBCache.getFilePath c "k" 0 = None
  ∧ LMDBCache.setLargeBlob 4 (λ _, []) c "k" (LMDBCache.Buf []) = c
  ∧ LMDBCache.hasLargeBlob (LMDBCache.setLargeBlob 4 (λ _, []) c "k" (LMDBCache.Buf [])) "k"
    = Resolved false
  ∧ LMDBCache.getLargeBlob (LMDBCache.setLargeBlob 4 (λ _, []) c "k" (LMDBCache.Buf [])) "k"
    = Some (Resolved []).
Proof.
  intros c.
  destruct (setLargeBlob_empty_writes_nothing 4 (λ _, []) c "k" (LMDBCache.Buf [])
              eq_refl) as [Hsame Hrest].
  destruct (Hrest eq_refl) as (Hhas & Hget & _).
  split; [reflexivity|]. split; [reflexivity|].
  split; [exact Hsame|]. split; [exact Hhas|exact Hget].
Defined.

(** C4. The round trip fails on a key that already holds a longer blob:
    with a chunk size of 4, a 10 byte payload is written as three chunks;
    writing a 1 byte payload under the same key replaces chunk 0 only, and
    [getLargeBlob] then returns that byte followed by the old chunks 1
    and 2. *)
Theorem setLargeBlob_overwrite_keeps_stale_chunks (utf8 : list ascii → Buffer) :
  let old := [Byte.x61; Byte.x62; Byte.x63; Byte.x64; Byte.x65;
              Byte.x66; Byte.x67; Byte.x68; Byte.x69; Byte.x6a] in
  let new := [Byte.x7a] in
  let c0 := LMDBCache.mkCache "cache" ∅ ∅ in
  let c1 := LMDBCache.setLargeBlob 4 utf8 c0 "k" (LMDBCache.Buf old) in
  let c2 := LMDBCache.setLargeBlob 4 utf8 c1 "k" (LMDBCache.Buf new) in
  LMDBCache.getLargeBlob c1 "k" = Some (Resolved old)
  ∧ LMDBCache.getLargeBlob c2 "k"
    = Some (Resolved [Byte.x7a; Byte.x65; Byte.x66; Byte.x67; Byte.x68;
                      Byte.x69; Byte.x6a])
  ∧ LMDBCache.getLargeBlob c2 "k" ≠ Some (Resolved new).
Proof.
  cbv zeta. split; [|split].
  - vm_compute. reflexivity.
  - vm_compute. reflexivity.
  - vm_compute. discriminate.
Qed.

(** ** The public asset wrappers *)
Section PublicAssetFacts.

Import PublicAsset.

(** A call never removes or changes a registered wrapper. *)
Lemma call_keeps_registrations (c : Call) (h : Heap) :
  (∀ v w, uncommittedAssetValueToAsset h !! v = Some w →
          uncommittedAssetValueToAsset (call c h) !! v = Some w)
  ∧ (∀ v w, assetValueToMutableAsset h !! v = Some w →
            assetValueToMutableAsset (call c h) !! v = Some w)
  ∧ (∀ a w, committedAssetValueToAsset h !! a = Some w →
            committedAssetValueToAsset (call c h) !! a = Some w).
Proof.
  destruct c as [a|a|a|this k|this b]; cbn [call].
  - unfold new_Asset.
    destruct (uncommittedAssetValueToAsset h !! value a) eqn:E; simpl; [done|].
    split; [|done]. intros v w Hv.
    rewrite lookup_insert_ne; [done|]. intros <-. congruence.
  - unfold new_MutableAsset.
    destruct (assetValueToMutableAsset h !! value a) eqn:E; simpl; [done|].
    split; [done|]. split; [|done]. intros v w Hv.
    rewrite lookup_insert_ne; [done|]. intros <-. congruence.
  - unfold new_CommittedAsset.
    destruct (committedAssetValueToAsset h !! addr a) eqn:E; simpl; [done|].
    split; [done|]. split; [done|]. intros v w Hv.
    rewrite lookup_insert_ne; [done|]. intros <-. congruence.
  - unfold set_uniqueKey.
    destruct (asset_value h this) as [[v r]|]; [|done].
    by destruct (uniqueKey r).
  - unfold set_sideEffects.
    by destruct (asset_value h this) as [[v r]|].
Qed.

Lemma calls_keep_registrations (cs : list Call) (h : Heap) :
  (∀ v w, uncommittedAssetValueToAsset h !! v = Some w →
          uncommittedAssetValueToAsset (calls cs h) !! v = Some w)
  ∧ (∀ v w, assetValueToMutableAsset h !! v = Some w →
            assetValueToMutableAsset (calls cs h) !! v = Some w)
  ∧ (∀ a w, committedAssetValueToAsset h !! a = Some w →
            committedAssetValueToAsset (calls cs h) !! a = Some w).
Proof.
  revert h. induction cs as [|c cs IH]; intros h; [done|].
  unfold calls. cbn [foldl]. fold (calls cs (call c h)).
  destruct (call_keeps_registrations c h) as (H1 & H2 & H3).
  destruct (IH (call c h)) as (I1 & I2 & I3).
  repeat split; eauto.
Qed.

(** Construction registers the wrapper that it returns. *)
Lemma new_Asset_registered (a : UncommittedAsset) (h : Heap) :
  uncommittedAssetValueToAsset (snd (new_Asset a h)) !! value a
    = Some (fst (new_Asset a h)).
Proof.
  unfold new_Asset.
  destruct (uncommittedAssetValueToAsset h !! value a) eqn:E; simpl; [done|].
  by rewrite lookup_insert_eq.
Qed.

Lemma new_MutableAsset_registered (a : UncommittedAsset) (h : Heap) :
  assetValueToMutableAsset (snd (new_MutableAsset a h)) !! value a
    = Some (fst (new_MutableAsset a h)).
Proof.
  unfold new_MutableAsset.
  destruct (assetValueToMutableAsset h !! value a) eqn:E; simpl; [done|].
  by rewrite lookup_insert_eq.
Qed.

Lemma new_CommittedAsset_registered (a : InternalCommittedAsset) (h : Heap) :
  committedAssetValueToAsset (snd (new_CommittedAsset a h)) !! addr a
    = Some (fst (new_CommittedAsset a h)).
Proof.
  unfold new_CommittedAsset.
  destruct (committedAssetValueToAsset h !! addr a) eqn:E; simpl; [done|].
  by rewrite lookup_insert_eq.
Qed.

(** Construction for a registered identity returns the registered
    wrapper. *)
Lemma new_Asset_existing (a : UncommittedAsset) (h : Heap) (w : Ref) :
  uncommittedAssetValueToAsset h !! value a = Some w →
  new_Asset a h = (w, h).
Proof. intros E. unfold new_Asset. by rewrite E. Qed.

Lemma new_MutableAsset_existing (a : UncommittedAsset) (h : Heap) (w : Ref) :
  assetValueToMutableAsset h !! value a = Some w →
  new_MutableAsset a h = (w, h).
Proof. intros E. unfold new_MutableAsset. by rewrite E. Qed.

Lemma new_CommittedAsset_existing (a : InternalCommittedAsset) (h : Heap) (w : Ref) :
  committedAssetValueToAsset h !! addr a = Some w →
  fst (new_CommittedAsset a h) = w
  ∧ committedAssetValueToAsset (snd (new_CommittedAsset a h))
    = committedAssetValueToAsset h
  ∧ _assetToAssetValue (snd (new_CommittedAsset a h)) = _assetToAssetValue h
  ∧ committed_asset_field (snd (new_CommittedAsset a h)) = committed_asset_field h.
Proof. intros E. unfold new_CommittedAsset. by rewrite E. Qed.

(** A wrapper that is constructed, not found, is a new object. *)
Lemma new_Asset_allocates (a : UncommittedAsset) (h : Heap) :
  uncommittedAssetValueToAsset h !! value a = None →
  fst (new_Asset a h) = next_object h
  ∧ next_object (snd (new_Asset a h)) = Pos.succ (next_object h).
Proof. intros E. unfold new_Asset. by rewrite E. Qed.

(** C1. Constructing a wrapper again for the same identity, after any
    calls in between, returns the wrapper of the first construction and
    registers nothing: [Asset] per value record, [MutableAsset] per value
    record, [CommittedAsset] per address. *)
Theorem wrappers_are_canonical (h : Heap) (cs : list Call)
    (v o o' : Ref) (a : CommittedAssetId) :
  (let first := new_Asset (mkUncommittedAsset v o) h in
   let h' := calls cs (snd first) in
   new_Asset (mkUncommittedAsset v o') h' = (fst first, h'))
  ∧ (let first := new_MutableAsset (mkUncommittedAsset v o) h in
     let h' := calls cs (snd first) in
     new_MutableAsset (mkUncommittedAsset v o') h' = (fst first, h'))
  ∧ (let first := new_CommittedAsset (mkInternalCommittedAsset a o) h in
     let h' := calls cs (snd first) in
     let second := new_CommittedAsset (mkInternalCommittedAsset a o') h' in
     fst second = fst first
     ∧ committedAssetValueToAsset (snd second) = committedAssetValueToAsset h'
     ∧ _assetToAssetValue (snd second) = _assetToAssetValue h'
     ∧ committed_asset_field (snd second) = committed_asset_field h').
Proof.
  split; [|split]; cbv zeta.
  - apply new_Asset_existing. simpl.
    apply (calls_keep_registrations cs).
    apply (new_Asset_registered (mkUncommittedAsset v o) h).
  - apply new_MutableAsset_existing. simpl.
    apply (calls_keep_registrations cs).
    apply (new_MutableAsset_registered (mkUncommittedAsset v o) h).
  - apply new_CommittedAsset_existing. simpl.
    apply (calls_keep_registrations cs).
    apply (new_CommittedAsset_registered (mkInternalCommittedAsset a o) h).
Qed.

(** C9. Assigning [uniqueKey] on a mutable asset whose [uniqueKey] is set
    throws "Cannot change an asset's uniqueKey after it has been set." and
    leaves the heap, so the stored key, as it was; when it is unset the
    assignment succeeds and the key reads back as assigned. *)
Theorem uniqueKey_set_once (h : Heap) (this : Ref) (current new : option string) :
  get_uniqueKey h this = Some current →
  match current with
  | Some _ =>
      set_uniqueKey h this new
      = Some (Rejected (Error "Cannot change an asset's uniqueKey after it has been set."),
              h)
  | None =>
      ∃ h', set_uniqueKey h this new = Some (Resolved tt, h')
            ∧ get_uniqueKey h' this = Some new
  end.
Proof.
  unfold get_uniqueKey, set_uniqueKey.
  destruct (asset_value h this) as [[v r]|] eqn:E; [|done].
  intros [= <-].
  destruct (uniqueKey r) as [k|] eqn:Ek; [done|].
  eexists. split; [done|].
  unfold asset_value in *. simpl.
  destruct (asset_field h !! this) as [asset|]; [|done].
  destruct (values h !! value asset) as [r'|] eqn:Er; [|done].
  injection E as <- <-.
  by rewrite lookup_insert_eq.
Qed.

End PublicAssetFacts.

Lemma uniqueKey_set_once_witness :
  let h0 := PublicAsset.mkHeap 1
              {[ 7%positive := PublicAsset.mkAssetValue "js" true true (Some "first") ]}
              ∅ ∅ ∅ ∅ ∅ ∅ ∅ in
  let '(this, h) :=
    PublicAsset.new_MutableAsset (PublicAsset.mkUncommittedAsset 7 9) h0 in
  PublicAsset.get_uniqueKey h this = Some (Some "first")
  ∧ PublicAsset.set_uniqueKey h this (Some "second")
    = Some (Rejected (Error "Cannot change an asset's uniqueKey after it has been set."),
            h).
Proof.
  split; [reflexivity|].
  apply (uniqueKey_set_once _ _ (Some "first") (Some "second")). reflexivity.
Defined.

(** ** replaceBundleReferences.js *)
Section ReplaceFacts.

Import ReplaceBundleReferences.

(** *** [Map] *)

Lemma map_get_set_eq {V} (m : JsMap V) (k : Text) (v : V) :
  map_get (map_set m k v) k = Some v.
Proof.
  induction m as [|[k' v'] m IH]; simpl.
  - by rewrite decide_True.
  - destruct (decide (k' = k)) as [->|Hne]; simpl.
    + by rewrite decide_True.
    + by rewrite decide_False.
Qed.

Lemma map_get_set_ne {V} (m : JsMap V) (k k' : Text) (v : V) :
  k ≠ k' → map_get (map_set m k v) k' = map_get m k'.
Proof.
  intros Hne. induction m as [|[k0 v0] m IH]; simpl.
  - by rewrite decide_False.
  - destruct (decide (k0 = k)) as [->|Hk]; simpl.
    + by rewrite !decide_False.
    + destruct (decide (k0 = k')); [done|apply IH].
Qed.

Lemma map_get_is_Some {V} (m : JsMap V) (k : Text) :
  k ∈ map_keys m → is_Some (map_get m k).
Proof.
  unfold map_keys. induction m as [|[k0 v0] m IH]; simpl.
  - intros H. by apply elem_of_nil in H.
  - intros H. destruct (decide (k0 = k)); [eauto|].
    apply elem_of_cons in H as [?|?]; [congruence|by apply IH].
Qed.

Lemma map_get_None {V} (m : JsMap V) (k : Text) :
  k ∉ map_keys m → map_get m k = None.
Proof.
  unfold map_keys. induction m as [|[k0 v0] m IH]; simpl; [done|].
  intros H. rewrite not_elem_of_cons in H. destruct H as [Hne Hnin].
  rewrite decide_False by done. by apply IH.
Qed.

Lemma map_get_app {V} (m1 m2 : JsMap V) (k : Text) :
  map_get (m1 ++ m2) k
  = match map_get m1 k with
    | Some v => Some v
    | None => map_get m2 k
    end.
Proof.
  induction m1 as [|[k0 v0] m1 IH]; simpl; [done|].
  by destruct (decide (k0 = k)).
Qed.

Lemma map_set_keys_elem {V} (m : JsMap V) (k x : Text) (v : V) :
  x ∈ map_keys (map_set m k v) ↔ x = k ∨ x ∈ map_keys m.
Proof.
  unfold map_keys. induction m as [|[k0 v0] m IH]; simpl.
  - rewrite list_elem_of_singleton, elem_of_nil. tauto.
  - destruct (decide (k0 = k)) as [->|Hne]; simpl.
    + rewrite elem_of_cons. tauto.
    + rewrite !elem_of_cons, IH. tauto.
Qed.

Lemma map_set_NoDup {V} (m : JsMap V) (k : Text) (v : V) :
  NoDup (map_keys m) → NoDup (map_keys (map_set m k v)).
Proof.
  induction m as [|[k0 v0] m IH]; simpl.
  - intros _. unfold map_keys. simpl. apply NoDup_singleton.
  - unfold map_keys in *. simpl. intros Hnd.
    apply NoDup_cons in Hnd as [Hnin Hnd].
    destruct (decide (k0 = k)) as [->|Hne]; simpl.
    + by apply NoDup_cons.
    + apply NoDup_cons. split; [|by apply IH].
      intros Hin. apply (map_set_keys_elem m k k0 v) in Hin as [?|?]; done.
Qed.

Lemma map_set_Forall {V} (P : Text * V → Prop) (m : JsMap V) (k : Text) (v : V) :
  Forall P m → P (k, v) → Forall P (map_set m k v).
Proof.
  intros Hall Hkv. induction Hall as [|[k0 v0] m Hx Hall IH]; simpl.
  - by constructor.
  - destruct (decide (k0 = k)) as [->|]; by constructor.
Qed.

Lemma new_Map_snoc {V} (entries : list (Text * V)) (k : Text) (v : V) :
  new_Map (entries ++ [(k, v)]) = map_set (new_Map entries) k v.
Proof. unfold new_Map. by rewrite foldl_snoc. Qed.

(** The map that [performReplacement] hands on has the entries of
    [replacements] when every replacement is keyed by its [from]. *)
Lemma new_Map_from_to (replacements : JsMap Replacement) (i : Text) :
  NoDup (map_keys replacements) →
  Forall (λ kr, from kr.2 = kr.1) replacements →
  map_get (new_Map ((λ val, (from val, to val)) <$> map_values replacements)) i
  = to <$> map_get replacements i.
Proof.
  induction replacements as [|[k r] m IH] using rev_ind; [done|].
  unfold map_keys, map_values. rewrite !fmap_app. simpl.
  intros Hnd Hall.
  apply NoDup_app in Hnd as (Hnd & Hdisj & _).
  apply Forall_app in Hall as [Hall Hkr].
  apply Forall_inv in Hkr. simpl in Hkr.
  rewrite new_Map_snoc, map_get_app. simpl. rewrite Hkr.
  destruct (decide (k = i)) as [->|Hne].
  - rewrite map_get_set_eq.
    rewrite (map_get_None m i); [done|].
    intros Hin. apply (Hdisj i Hin). by left.
  - rewrite map_get_set_ne by done.
    unfold map_keys, map_values in IH. rewrite IH by done.
    by destruct (map_get m i).
Qed.

(** *** The sort *)

Lemma sort_insert_elem (k x : Text) (l : list Text) :
  x ∈ sort_insert k l ↔ x = k ∨ x ∈ l.
Proof.
  induction l as [|k' l IH]; simpl.
  - rewrite list_elem_of_singleton, elem_of_nil. tauto.
  - destruct (length k' <=? length k); [by rewrite elem_of_cons|].
    rewrite !elem_of_cons, IH. tauto.
Qed.

Lemma sort_by_length_elem (x : Text) (l : list Text) :
  x ∈ sort_by_length l ↔ x ∈ l.
Proof.
  induction l as [|k l IH]; [done|].
  unfold sort_by_length in *. simpl.
  rewrite sort_insert_elem, IH, elem_of_cons. tauto.
Qed.

Lemma sort_insert_sorted (k : Text) (l : list Text) :
  StronglySorted longer_first l → StronglySorted longer_first (sort_insert k l).
Proof.
  induction 1 as [|k' l Hs IH Hall]; simpl.
  - repeat constructor.
  - destruct (Nat.leb_spec (length k') (length k)) as [Hle|Hlt].
    + constructor; [by constructor|].
      constructor; [done|].
      eapply Forall_impl; [exact Hall|].
      unfold longer_first. intros x Hx. lia.
    + constructor; [done|].
      apply Forall_forall. intros x Hx.
      apply sort_insert_elem in Hx as [->|Hx].
      * unfold longer_first. lia.
      * by eapply Forall_forall in Hall.
Qed.

Lemma sort_by_length_sorted (l : list Text) :
  StronglySorted longer_first (sort_by_length l).
Proof.
  induction l as [|k l IH]; [constructor|].
  by apply sort_insert_sorted.
Qed.

(** *** One match attempt *)

Lemma find_sorted_longest (f : Text → bool) (l : list Text) (k : Text) :
  StronglySorted longer_first l →
  List.find f l = Some k →
  f k = true ∧ k ∈ l ∧ ∀ k', k' ∈ l → f k' = true → length k' ≤ length k.
Proof.
  induction 1 as [|a l Hs IH Hall]; simpl; [done|].
  destruct (f a) eqn:Ea.
  - intros [= <-]. split; [done|]. split; [by left|].
    intros k' Hk' _. apply elem_of_cons in Hk' as [->|Hk']; [done|].
    by eapply Forall_forall in Hall.
  - intros Hfind. destruct (IH Hfind) as (Hf & Hin & Hmax).
    split; [done|]. split; [by right|].
    intros k' Hk' Hfk'. apply elem_of_cons in Hk' as [->|Hk']; [congruence|].
    by apply Hmax.
Qed.

Lemma find_is_Some (f : Text → bool) (l : list Text) (k' : Text) :
  k' ∈ l → f k' = true → is_Some (List.find f l).
Proof.
  induction l as [|a l IH]; simpl; intros Hin Hf.
  - by apply elem_of_nil in Hin.
  - destruct (f a) eqn:Ea; [eauto|].
    apply elem_of_cons in Hin as [->|Hin]; [congruence|by apply IH].
Qed.

(** *** The scan *)

(** Two callbacks that are run over the same input see the same matches:
    a relation between their states that every pair of calls preserves
    holds at the end. *)
Lemma replace_from_related {S1 S2 : Type} (R : S1 → S2 → Prop)
    (alternatives : list Text)
    (cb1 : S1 → Text → Z → S1 * Text) (cb2 : S2 → Text → Z → S2 * Text) :
  (∀ st1 st2 m index, R st1 st2 → R (fst (cb1 st1 m index)) (fst (cb2 st2 m index))) →
  ∀ s index skip st1 st2 out1 out2,
    R st1 st2 →
    R (fst (replace_from alternatives cb1 s index skip st1 out1))
      (fst (replace_from alternatives cb2 s index skip st2 out2)).
Proof.
  intros Hcb. induction s as [|c s IH]; intros index skip st1 st2 out1 out2 HR.
  - destruct skip as [|skip]; cbn [replace_from]; [|done].
    destruct (regex_exec alternatives []) as [m|]; [|done].
    specialize (Hcb st1 st2 m (Z.of_nat index) HR).
    destruct (cb1 st1 m (Z.of_nat index)) as [st1' r1].
    destruct (cb2 st2 m (Z.of_nat index)) as [st2' r2]. done.
  - destruct skip as [|skip]; cbn [replace_from]; [|by apply IH].
    destruct (regex_exec alternatives (c :: s)) as [m|]; [|by apply IH].
    specialize (Hcb st1 st2 m (Z.of_nat index) HR).
    destruct (cb1 st1 m (Z.of_nat index)) as [st1' r1].
    destruct (cb2 st2 m (Z.of_nat index)) as [st2' r2].
    destruct m as [|a m']; by apply IH.
Qed.


Lemma starts_with_length (k s : Text) :
  starts_with k s = true → length k ≤ length s.
Proof.
  revert s. induction k as [|a k IH]; intros [|b s]; simpl; try done; [lia|].
  destruct (decide (a = b)); [|done]. intros H. apply IH in H. lia.
Qed.

Lemma regex_exec_starts_with (alternatives : list Text) (s m : Text) :
  regex_exec alternatives s = Some m → starts_with m s = true.
Proof. unfold regex_exec. intros H. by apply find_some in H as [_ H]. Qed.

(** What a call of the callback returns is longer than the match by what
    it adds to [offset]. *)
Lemma replace_callback_offset (replacementMap : JsMap Text) (st : ScanState)
    (m : Text) (index : Z) :
  (offset (fst (replace_callback replacementMap st m index)) - offset st
   = Z.of_nat (length (snd (replace_callback replacementMap st m index)))
     - Z.of_nat (length m))%Z.
Proof.
  unfold replace_callback.
  destruct (decide (m = newline)) as [->|Hm]; cbn; [lia|].
  destruct (map_get replacementMap m) as [replacement|]; cbn; [|lia].
  case_decide; cbn; lia.
Qed.


(** The text produced so far is as long as the text consumed so far plus
    [offset]. *)
Lemma replace_from_length (replacementMap : JsMap Text) (alternatives : list Text) :
  ∀ s index skip st out,
    skip ≤ length s →
    let res := replace_from alternatives (replace_callback replacementMap)
                 s index skip st out in
    (Z.of_nat (length (snd res)) - offset (fst res)
     = Z.of_nat (length out) - offset st + Z.of_nat (length s) - Z.of_nat skip)%Z.
Proof.
  induction s as [|c s IH]; intros index skip st out Hskip; cbv zeta.
  - destruct skip as [|skip]; [|simpl in Hskip; lia]. cbn [replace_from].
    destruct (regex_exec alternatives []) as [m|] eqn:E; [|cbn; lia].
    pose proof (replace_callback_offset replacementMap st m (Z.of_nat index)) as Hcb.
    apply regex_exec_starts_with, starts_with_length in E.
    destruct (replace_callback replacementMap st m (Z.of_nat index)) as [st' r].
    cbn [fst snd] in *. rewrite length_app. simpl in *. lia.
  - destruct skip as [|skip]; cbn [replace_from].
    + destruct (regex_exec alternatives (c :: s)) as [m|] eqn:E.
      * pose proof (replace_callback_offset replacementMap st m (Z.of_nat index))
          as Hcb.
        apply regex_exec_starts_with, starts_with_length in E.
        destruct (replace_callback replacementMap st m (Z.of_nat index)) as [st' r].
        cbn [fst snd] in *.
        destruct m as [|a m'].
        -- specialize (IH (S index) 0 st' (out ++ r ++ [c]) ltac:(lia)).
           cbv zeta in IH. rewrite IH. rewrite !length_app. simpl in *. lia.
        -- simpl in E.
           specialize (IH (S index) (length m') st' (out ++ r) ltac:(lia)).
           cbv zeta in IH. rewrite IH. rewrite !length_app. simpl in *. lia.
      * specialize (IH (S index) 0 st (out ++ [c]) ltac:(lia)).
        cbv zeta in IH. rewrite IH. rewrite !length_app. simpl in *. lia.
    + simpl in Hskip.
      specialize (IH (S index) skip st out ltac:(lia)).
      cbv zeta in IH. rewrite IH. simpl. lia.
Qed.


End ReplaceFacts.


(** *** The two passes *)
Section PassFacts.

Import ReplaceBundleReferences.

Context (getReferencedBundle : Dependency → Bundle → option Bundle)
        (Url : Type) (URL_parse : Text → Url) (set_pathname : Url → Text → Url)
        (URL_format : Url → Text) (relativeBundlePath : Bundle → Bundle → Text)
        (urlJoin : Text → Text → Text)
        (getInlineReplacement : Dependency → option Text → Text → Replacement)
        (getInlineBundleContents : Bundle → Outcome Blob)
        (buffer_toString : Buffer → Text).

Local Abbreviation url_step :=
  (ReplaceBundleReferences.url_step getReferencedBundle Url URL_parse
     set_pathname URL_format relativeBundlePath urlJoin).
Local Abbreviation url_replacements :=
  (ReplaceBundleReferences.url_replacements getReferencedBundle Url URL_parse
     set_pathname URL_format relativeBundlePath urlJoin).
Local Abbreviation inline_step :=
  (ReplaceBundleReferences.inline_step getReferencedBundle getInlineReplacement
     getInlineBundleContents buffer_toString).
Local Abbreviation inline_replacements :=
  (ReplaceBundleReferences.inline_replacements getReferencedBundle
     getInlineReplacement getInlineBundleContents buffer_toString).
Local Abbreviation blob_toString :=
  (ReplaceBundleReferences.blob_toString buffer_toString).

(** A property of the accumulator that every iteration preserves holds
    when the loop ends. *)
Lemma for_of_invariant {A B} (body : B → A → Outcome B) (P : B → Prop)
    (l : list A) (b b' : B) :
  (∀ a b b', a ∈ l → P b → body b a = Resolved b' → P b') →
  P b → for_of body l b = Resolved b' → P b'.
Proof.
  revert b. induction l as [|a l IH]; intros b Hstep Hb; simpl.
  - by intros [= <-].
  - destruct (body b a) as [b1|e] eqn:E; [|done].
    apply IH.
    + intros a0 b0 b0' Ha0. apply Hstep. by right.
    + eapply Hstep; [by left|done|done].
Qed.

(** A property that the iteration on [a0] establishes and every other
    iteration preserves holds when the loop ends. *)
Lemma for_of_established {A B} (body : B → A → Outcome B) (Q : B → Prop)
    (l : list A) (a0 : A) (b b' : B) :
  a0 ∈ l →
  (∀ b b', body b a0 = Resolved b' → Q b') →
  (∀ a b b', a ∈ l → Q b → body b a = Resolved b' → Q b') →
  for_of body l b = Resolved b' → Q b'.
Proof.
  revert b. induction l as [|a l IH]; intros b Hin Hset Hkeep; simpl.
  - by apply elem_of_nil in Hin.
  - destruct (body b a) as [b1|e] eqn:E; [|done].
    apply elem_of_cons in Hin as [->|Hin].
    + apply (for_of_invariant body Q l b1 b').
      * intros a0 b0 b0' Ha0. apply Hkeep. by right.
      * by eapply Hset.
    + apply IH; [done|done|].
      intros a1 b0 b0' Ha1. apply Hkeep. by right.
Qed.

Lemma urlDependencies_elem (bundle : Bundle) (d : Dependency) :
  d ∈ urlDependencies bundle → d ∈ dependencies bundle ∧ isURL d = true.
Proof.
  unfold urlDependencies, dependencies.
  rewrite !list_elem_of_In, !in_flat_map.
  intros (node & Hnode & Hd). destruct node as [d'|a]; [|done].
  destruct (isURL d') eqn:E; [|done].
  destruct Hd as [->|[]]. split; [|done].
  exists (dependency d). split; [done|by left].
Qed.

(** An iteration on a dependency leaves the replacements of other
    dependency ids alone. *)
Lemma url_step_frame (bundle : Bundle) (relative : bool)
    (acc acc' : JsMap Replacement) (d : Dependency) (i : Text) :
  url_step bundle relative acc d = Resolved acc' →
  dep_id d ≠ i → map_get acc' i = map_get acc i.
Proof.
  unfold ReplaceBundleReferences.url_step. intros H Hne.
  destruct (negb (isURL d)); [by injection H as <-|].
  destruct (getReferencedBundle d bundle) as [resolved|].
  - destruct (bundle_isInline resolved); [by injection H as <-|].
    destruct (getURLReplacement _ _ _ _ _ _ _ _ _ _) as [r|e]; [|done].
    injection H as <-. by apply map_get_set_ne.
  - injection H as <-. by apply map_get_set_ne.
Qed.

Lemma inline_step_frame (bundle : Bundle) (acc acc' : JsMap Replacement)
    (d : Dependency) (i : Text) :
  inline_step bundle acc d = Resolved acc' →
  dep_id d ≠ i → map_get acc' i = map_get acc i.
Proof.
  unfold ReplaceBundleReferences.inline_step. intros H Hne.
  destruct (getReferencedBundle d bundle) as [entryBundle|];
    [|by injection H as <-].
  destruct (negb (bundle_isInline entryBundle)); [by injection H as <-|].
  destruct (getInlineBundleContents entryBundle) as [blob|e]; [|done].
  destruct (nullthrows (head (getEntryAssets entryBundle))) as [entry|e]; [|done].
  case_bool_decide; injection H as <-; [by apply map_get_set_ne|done].
Qed.

(** The URL pass keys every replacement by its [from], once. *)
Lemma url_step_keyed (bundle : Bundle) (relative : bool)
    (acc acc' : JsMap Replacement) (d : Dependency) :
  url_step bundle relative acc d = Resolved acc' →
  NoDup (map_keys acc) ∧ Forall (λ kr, from kr.2 = kr.1) acc →
  NoDup (map_keys acc') ∧ Forall (λ kr, from kr.2 = kr.1) acc'.
Proof.
  unfold ReplaceBundleReferences.url_step. intros H [Hnd Hall].
  destruct (negb (isURL d)); [by injection H as <-|].
  destruct (getReferencedBundle d bundle) as [resolved|].
  - destruct (bundle_isInline resolved); [by injection H as <-|].
    destruct (getURLReplacement _ _ _ _ _ _ _ _ _ _) as [r|e] eqn:E; [|done].
    injection H as <-. split; [by apply map_set_NoDup|].
    apply map_set_Forall; [done|]. simpl.
    unfold getURLReplacement in E. destruct relative.
    + by injection E as <-.
    + destruct (nullthrows (name resolved)); [|done]. by injection E as <-.
  - injection H as <-. split; [by apply map_set_NoDup|].
    by apply map_set_Forall.
Qed.

End PassFacts.

(** An unresolved URL dependency, end to end. *)
Example replaceURLReferences_external :
  let t := list_ascii_of_string in
  let d := ReplaceBundleReferences.mkDependency (t "dep1") true
             (t "https://example.com/a.js?v=1") in
  let bundle := ReplaceBundleReferences.mkBundle (Some (t "index.js")) false (t "/")
                  [ReplaceBundleReferences.dependency d] [] in
  ReplaceBundleReferences.replaceURLReferences (λ _ _, None)
    ReplaceBundleReferences.Text (λ s, s) (λ _ p, p) (λ u, u) (λ _ _, []) app
    bundle (t "import('dep1')") (Some []) true
  = Resolved (t "import('https://example.com/a.js?v=1')", Some [(1, 8, 24)%Z]).
Proof. by vm_compute. Qed.

(** ** LMDBCache: blobs, values and large blobs on a clean key *)
Section LMDBCacheStore.

Import LMDBCache.

Context (WRITE_LIMIT_CHUNK : nat) (T : Type) (deserialize : Buffer → T)
        (serialize : T → Buffer) (utf8 : list ascii → Buffer).

Local Abbreviation setLargeBlob := (LMDBCache.setLargeBlob WRITE_LIMIT_CHUNK utf8).
Local Abbreviation chunk := (LMDBCache.chunk WRITE_LIMIT_CHUNK).
Local Abbreviation file_bytes := (LMDBCache.file_bytes utf8).
Local Abbreviation get := (LMDBCache.get T deserialize).
Local Abbreviation set := (LMDBCache.set T serialize).

(** The read loop looks at [dir] and at the files only. *)
Lemma getLargeBlob_ext (c c' : Cache) (key : string) :
  dir c' = dir c → fs c' = fs c → getLargeBlob c' key = getLargeBlob c key.
Proof.
  intros Hdir Hfs. unfold getLargeBlob. rewrite Hfs.
  enough (∀ fuel i, getLargeBlob_loop fuel c' key i = getLargeBlob_loop fuel c key i)
    as -> by done.
  induction fuel as [|fuel IH]; intros i; simpl; [done|].
  by rewrite Hfs, (getFilePath_dir c c') , IH.
Qed.

(** X1. After [setBlob(key, b)] the key reads back as [b] through
    [getBlob] and [getBuffer] and [has] is true; every other key, and
    every large blob, reads as before. *)
Theorem setBlob_reads_back (c : Cache) (key key' : string) (b : Buffer) :
  key' ≠ key →
  let c' := setBlob c key b in
  getBlob c' key = Resolved b
  ∧ getBuffer c' key = Resolved (Some b)
  ∧ has c' key = Resolved true
  ∧ getBlob c' key' = getBlob c key'
  ∧ getBuffer c' key' = getBuffer c key'
  ∧ has c' key' = has c key'
  ∧ (∀ k, hasLargeBlob c' k = hasLargeBlob c k
          ∧ getLargeBlob c' k = getLargeBlob c k).
Proof.
  intros Hne c'. unfold getBlob, getBuffer, has, c', setBlob, with_store. simpl.
  rewrite lookup_insert_eq, lookup_insert_ne by done.
  split; [done|]. split; [done|].
  split; [f_equal; apply bool_decide_eq_true; eauto|].
  split; [done|]. split; [done|]. split; [done|].
  intros k. split; [done|]. by apply getLargeBlob_ext.
Qed.

(** X2. When [deserialize] undoes [serialize] on a value, [get(key)]
    after [set(key, value)] resolves with that value, also when the key
    held another value before, and [getBlob] resolves with its
    serialization. *)
Theorem set_get_roundtrip (c : Cache) (key : string) (previous value : T) :
  deserialize (serialize value) = value →
  get (set c key value) key = Resolved (Some value)
  ∧ get (set (set c key previous) key value) key = Resolved (Some value)
  ∧ getBlob (set c key value) key = Resolved (serialize value)
  ∧ has (set c key value) key = Resolved true.
Proof.
  intros Hround.
  unfold LMDBCache.get, LMDBCache.set, getBlob, has, setBlob, with_store. simpl.
  rewrite !lookup_insert_eq, Hround.
  split; [done|]. split; [done|]. split; done.
Qed.

(** X3. On a key that has no chunk file at the index of the chunk count,
    so on every key never written before, [getLargeBlob] after
    [setLargeBlob] of a buffer returns the buffer. *)
Theorem setLargeBlob_getLargeBlob_clean (c : Cache) (key : string) (b : Buffer) :
  0 < WRITE_LIMIT_CHUNK →
  fs c !! getFilePath c key (ceil_div (length b) WRITE_LIMIT_CHUNK) = None →
  getLargeBlob (setLargeBlob c key (Buf b)) key = Some (Resolved b).
Proof.
  intros HW Hclean.
  rewrite (large_blob_roundtrip_fresh WRITE_LIMIT_CHUNK utf8 c key (Buf b)) by done.
  cbn [contents_length]. do 2 f_equal.
  change (λ j, file_bytes (chunk (Buf b) j))
    with (λ j, slice b (j * WRITE_LIMIT_CHUNK) ((j + 1) * WRITE_LIMIT_CHUNK)).
  rewrite concat_slices. apply take_ge. by apply ceil_div_upper.
Qed.

(** X4. A string payload is encoded slice by slice: on such a key
    [getLargeBlob] after [setLargeBlob] of a string returns the UTF-8
    encodings of its successive slices of [WRITE_LIMIT_CHUNK] code units,
    in order. *)
Theorem setLargeBlob_getLargeBlob_string (c : Cache) (key : string) (s : list ascii) :
  0 < WRITE_LIMIT_CHUNK →
  fs c !! getFilePath c key (ceil_div (length s) WRITE_LIMIT_CHUNK) = None →
  getLargeBlob (setLargeBlob c key (Str s)) key
  = Some (Resolved
            (concat ((λ j, utf8 (slice s (j * WRITE_LIMIT_CHUNK)
                                   ((j + 1) * WRITE_LIMIT_CHUNK)))
                     <$> seq 0 (ceil_div (length s) WRITE_LIMIT_CHUNK)))).
Proof.
  intros HW Hclean.
  by rewrite (large_blob_roundtrip_fresh WRITE_LIMIT_CHUNK utf8 c key (Str s)).
Qed.

(** X5. Overwriting is a full replacement when the new buffer has at
    least as many chunks as the old one: after two writes to a key that
    had no chunk files, [getLargeBlob] returns the second buffer. *)
Theorem setLargeBlob_overwrite_not_shorter (c : Cache) (key : string)
    (old new : Buffer) :
  0 < WRITE_LIMIT_CHUNK →
  (∀ j, fs c !! getFilePath c key j = None) →
  ceil_div (length old) WRITE_LIMIT_CHUNK ≤ ceil_div (length new) WRITE_LIMIT_CHUNK →
  getLargeBlob (setLargeBlob (setLargeBlob c key (Buf old)) key (Buf new)) key
  = Some (Resolved new).
Proof.
  intros HW Hclean Hle.
  apply large_blob_roundtrip_fresh_buffer; [done|].
  rewrite (getFilePath_dir c) by apply setLargeBlob_dir.
  by rewrite setLargeBlob_lookup_beyond.
Qed.

(** X6. [getLargeBlob] always resolves: it returns the concatenation of
    the chunk files from index 0 up to the first index with no file, and
    reads nothing beyond that index. *)
Theorem getLargeBlob_reads_contiguous_run (c : Cache) (key : string) :
  ∃ (n : nat) (files : list Buffer),
    length files = n
    ∧ (∀ j, j < n → fs c !! getFilePath c key j = files !! j)
    ∧ fs c !! getFilePath c key n = None
    ∧ getLargeBlob c key = Some (Resolved (concat files))
    ∧ (∀ (i : nat) (b : Buffer),
         getLargeBlob (with_fs c (<[getFilePath c key (S n + i) := b]> (fs c))) key
         = Some (Resolved (concat files))).
Proof.
  destruct (getLargeBlob_loop_total c key) as (n & Hall & Hnone & _).
  assert (∃ g : nat → Buffer, ∀ j, j < n → fs c !! getFilePath c key j = Some (g j))
    as [g Hg].
  { exists (λ j, default [] (fs c !! getFilePath c key j)).
    intros j Hj. by destruct (Hall j Hj) as [x ->]. }
  exists n, (g <$> seq 0 n).
  split; [by rewrite length_fmap, length_seq|].
  split.
  { intros j Hj. rewrite Hg by done. rewrite list_lookup_fmap.
    by rewrite lookup_seq_lt. }
  split; [done|].
  split; [by apply getLargeBlob_chunks|].
  intros i b. apply getLargeBlob_chunks; simpl.
  - intros j Hj. rewrite (getFilePath_dir c) by done.
    rewrite lookup_insert_ne; [by apply Hg|].
    intros Heq. apply getFilePath_inj in Heq. lia.
  - rewrite (getFilePath_dir c) by done.
    rewrite lookup_insert_ne; [done|].
    intros Heq. apply getFilePath_inj in Heq. lia.
Qed.

Lemma list_ascii_of_string_app (a b : string) :
  list_ascii_of_string (String.append a b)
  = list_ascii_of_string a ++ list_ascii_of_string b.
Proof. induction a as [|ch a IH]; simpl; [done|]. by rewrite IH. Qed.

Lemma list_ascii_of_string_inj (a b : string) :
  list_ascii_of_string a = list_ascii_of_string b → a = b.
Proof.
  intros H. apply (f_equal string_of_list_ascii) in H.
  by rewrite !string_of_list_ascii_of_string in H.
Qed.

(** A decimal rendering holds no dash. *)
Lemma number_to_string_digits (n : nat) :
  "-"%char ∉ list_ascii_of_string (number_to_string n).
Proof.
  unfold number_to_string. generalize (Nat.to_uint n).
  induction u as [|u IH|u IH|u IH|u IH|u IH|u IH|u IH|u IH|u IH|u IH]; simpl;
    [apply not_elem_of_nil|..];
    (apply not_elem_of_cons; split; [discriminate|done]).
Qed.

Lemma split_at_last {A} (x : A) (l1 l2 d1 d2 : list A) :
  l1 ++ x :: d1 = l2 ++ x :: d2 → x ∉ d1 → x ∉ d2 → l1 = l2 ∧ d1 = d2.
Proof.
  revert l2. induction l1 as [|a l1 IH]; intros [|b l2]; simpl; intros H H1 H2.
  - by injection H.
  - injection H as <- ->. exfalso. apply H1. apply elem_of_app. right. by left.
  - injection H as -> <-. exfalso. apply H2. apply elem_of_app. right. by left.
  - injection H as <- H. destruct (IH l2 H H1 H2) as [-> ->]. done.
Qed.

(** Different keys, or different indices, name different files. *)
Lemma getFilePath_inj_key (c : Cache) (key key' : string) (i i' : nat) :
  getFilePath c key i = getFilePath c key' i' → key = key' ∧ i = i'.
Proof.
  unfold getFilePath, path_join. intros H.
  do 2 apply append_inj_r in H.
  apply (f_equal list_ascii_of_string) in H.
  rewrite !list_ascii_of_string_app in H. simpl in H.
  apply split_at_last in H as [Hk Hi]; try apply number_to_string_digits.
  split; [by apply list_ascii_of_string_inj|].
  by apply number_to_string_inj, list_ascii_of_string_inj.
Qed.

(** X7. [setLargeBlob] of a non-empty payload makes [hasLargeBlob] true.
    It writes the files of its own chunks below the chunk count and no
    other chunk file: for plain keys, the chunk files of every other key
    and its own from the chunk count on are as before, and so are the
    LMDB store and the directory. *)
Theorem setLargeBlob_writes_its_chunks_only (c : Cache) (key key' : string)
    (contents : Contents) (i : nat) :
  0 < WRITE_LIMIT_CHUNK →
  0 < contents_length contents →
  plain_key key →
  plain_key key' →
  key' ≠ key ∨ ceil_div (contents_length contents) WRITE_LIMIT_CHUNK ≤ i →
  let c' := setLargeBlob c key contents in
  hasLargeBlob c' key = Resolved true
  ∧ fs c' !! getFilePath c key' i = fs c !! getFilePath c key' i
  ∧ store c' = store c
  ∧ dir c' = dir c.
Proof.
  intros HW Hlen _ _ Hother c'.
  assert (0 < ceil_div (contents_length contents) WRITE_LIMIT_CHUNK) as Hn.
  { pose proof (ceil_div_upper (contents_length contents) WRITE_LIMIT_CHUNK HW).
    destruct (ceil_div (contents_length contents) WRITE_LIMIT_CHUNK); simpl in *; lia. }
  assert (∀ j, j < ceil_div (contents_length contents) WRITE_LIMIT_CHUNK →
               getFilePath c key j ≠ getFilePath c key' i) as Hdiff.
  { intros j Hj Heq. apply getFilePath_inj_key in Heq as [-> ->].
    destruct Hother as [?|?]; [done|lia]. }
  split; [|split; [|split]].
  - unfold hasLargeBlob. f_equal. apply fs_exists_true.
    rewrite (getFilePath_dir c) by apply setLargeBlob_dir.
    unfold c'. rewrite setLargeBlob_lookup_chunk by done. eauto.
  - unfold c', LMDBCache.setLargeBlob.
    destruct (Nat.eqb_spec (ceil_div (contents_length contents) WRITE_LIMIT_CHUNK) 1)
      as [H1|H1]; simpl.
    + unfold fs_writeFile. rewrite lookup_insert_ne; [done|]. apply Hdiff. lia.
    + apply write_chunks_lookup_other. intros j Hj. apply Hdiff.
      apply elem_of_seq in Hj. lia.
  - unfold c', LMDBCache.setLargeBlob. by case_match.
  - apply setLargeBlob_dir.
Qed.

End LMDBCacheStore.

Lemma setBlob_reads_back_witness :
  let c := LMDBCache.mkCache "cache" {["a" := [Byte.x01]]} ∅ in
  "a" ≠ "k"
  ∧ LMDBCache.getBlob (LMDBCache.setBlob c "k" [Byte.x02]) "k" = Resolved [Byte.x02]
  ∧ LMDBCache.getBlob (LMDBCache.setBlob c "k" [Byte.x02]) "a"
    = LMDBCache.getBlob c "a".
Proof.
  intros c.
  assert ("a" ≠ "k") as Hne by discriminate.
  split; [exact Hne|].
  destruct (setBlob_reads_back c "k" "a" [Byte.x02] Hne)
    as (Hget & _ & _ & Hother & _).
  split; [exact Hget|exact Hother].
Defined.

Lemma set_get_roundtrip_witness :
  let c := LMDBCache.mkCache "cache" ∅ ∅ in
  let serialize := λ n : nat, repeat Byte.x01 n in
  let deserialize := λ b : Buffer, length b in
  deserialize (serialize 3) = 3
  ∧ LMDBCache.get nat deserialize (LMDBCache.set nat serialize c "k" 3) "k"
    = Resolved (Some 3).
Proof.
  intros c serialize deserialize.
  split; [reflexivity|].
  apply (set_get_roundtrip nat deserialize serialize c "k" 5 3). reflexivity.
Defined.

Lemma setLargeBlob_getLargeBlob_clean_witness :
  let c := LMDBCache.mkCache "cache" ∅ ∅ in
  let b := [Byte.x61; Byte.x62; Byte.x63; Byte.x64; Byte.x65] in
  0 < 2
  ∧ LMDBCache.fs c !! LMDBCache.getFilePath c "k" (LMDBCache.ceil_div (length b) 2)
    = None
  ∧ LMDBCache.getLargeBlob (LMDBCache.setLargeBlob 2 (λ _, []) c "k" (LMDBCache.Buf b)) "k"
    = Some (Resolved b).
Proof.
  intros c b.
  split; [lia|]. split; [reflexivity|].
  apply (setLargeBlob_getLargeBlob_clean 2 (λ _, []) c "k" b); [lia|reflexivity].
Defined.

Lemma setLargeBlob_getLargeBlob_string_witness :
  let c := LMDBCache.mkCache "cache" ∅ ∅ in
  let s := list_ascii_of_string "abc" in
  let utf8 := λ t : list ascii, byte_of_ascii <$> t in
  0 < 2
  ∧ LMDBCache.getLargeBlob (LMDBCache.setLargeBlob 2 utf8 c "k" (LMDBCache.Str s)) "k"
    = Some (Resolved (utf8 (list_ascii_of_string "ab")
                      ++ utf8 (list_ascii_of_string "c"))).
Proof.
  intros c s utf8.
  split; [lia|].
  rewrite (setLargeBlob_getLargeBlob_string 2 utf8 c "k" s); [reflexivity|lia|reflexivity].
Defined.

Lemma setLargeBlob_overwrite_not_shorter_witness :
  let c := LMDBCache.mkCache "cache" ∅ ∅ in
  let old := [Byte.x61; Byte.x62; Byte.x63] in
  let new := [Byte.x7a; Byte.x79; Byte.x78; Byte.x77] in
  LMDBCache.ceil_div (length old) 2 ≤ LMDBCache.ceil_div (length new) 2
  ∧ LMDBCache.getLargeBlob
      (LMDBCache.setLargeBlob 2 (λ _, [])
         (LMDBCache.setLargeBlob 2 (λ _, []) c "k" (LMDBCache.Buf old))
         "k" (LMDBCache.Buf new)) "k"
    = Some (Resolved new).
Proof.
  intros c old new.
  assert (LMDBCache.ceil_div (length old) 2 ≤ LMDBCache.ceil_div (length new) 2)
    as Hle by (vm_compute; lia).
  split; [exact Hle|].
  apply (setLargeBlob_overwrite_not_shorter 2 (λ _, []) c "k" old new);
    [lia|reflexivity|exact Hle].
Defined.

Lemma setLargeBlob_writes_its_chunks_only_witness :
  let c := LMDBCache.mkCache "cache" ∅ {["cache/other-0" := [Byte.x01]]} in
  let contents := LMDBCache.Buf [Byte.x61; Byte.x62; Byte.x63] in
  let c' := LMDBCache.setLargeBlob 2 (λ _, []) c "k" contents in
  LMDBCache.plain_key "k" ∧ LMDBCache.plain_key "other"
  ∧ LMDBCache.hasLargeBlob c' "k" = Resolved true
  ∧ LMDBCache.fs c' !! LMDBCache.getFilePath c "other" 0 = Some [Byte.x01].
Proof.
  intros c contents c'.
  assert (LMDBCache.plain_key "k") as Hk
    by (apply (bool_decide_unpack _); vm_compute; exact I).
  assert (LMDBCache.plain_key "other") as Ho
    by (apply (bool_decide_unpack _); vm_compute; exact I).
  split; [exact Hk|]. split; [exact Ho|].
  destruct (setLargeBlob_writes_its_chunks_only 2 (λ _, []) c "k" "other" contents 0)
    as (Hhas & Hfile & _).
  - lia.
  - simpl. lia.
  - exact Hk.
  - exact Ho.
  - left. discriminate.
  - split; [exact Hhas|]. etrans; [exact Hfile|reflexivity].
Defined.

(** ** The public asset wrappers: what the module state keeps true *)
Section PublicAssetState.

Import PublicAsset PublicAssetLookups.

Lemma initial_heap_consistent (next : Ref) (values : gmap Ref AssetValue) :
  heap_consistent (initial_heap next values).
Proof. by constructor. Qed.

Lemma new_Asset_consistent (a : UncommittedAsset) (h : Heap) :
  heap_consistent h → heap_consistent (snd (new_Asset a h)).
Proof.
  intros [A1 A2 A3 A4 A5 A6 A7 A8 A9]. unfold new_Asset.
  destruct (uncommittedAssetValueToAsset h !! value a) eqn:E; [by constructor|].
  assert (∀ x, asset_field h !! next_object h ≠ Some x) as Hfresh.
  { intros x Hx. apply A1 in Hx. lia. }
  constructor; simpl.
  - intros w x [[<- <-]|[? Hx]]%lookup_insert_Some; [lia|].
    apply A1 in Hx. lia.
  - intros w x Hx. apply A2 in Hx. lia.
  - intros v w [[<- <-]|[? Hv]]%lookup_insert_Some.
    + exists a. by rewrite lookup_insert_eq.
    + destruct (A3 v w Hv) as (x & Hx & Hval). exists x. split; [|done].
      rewrite lookup_insert_ne; [done|]. intros <-. by eapply Hfresh.
  - intros v w Hv. destruct (A4 v w Hv) as (x & Hx & Hval & Hm). exists x.
    split; [|done]. rewrite lookup_insert_ne; [done|]. intros <-. by eapply Hfresh.
  - done.
  - intros v v' w [[<- <-]|[? Hv]]%lookup_insert_Some Hm.
    + destruct (A4 v' _ Hm) as (x & Hx & _). by eapply Hfresh.
    + by eapply A6.
  - intros w x [[<- <-]|[? Hx]]%lookup_insert_Some; [|by eapply A7].
    destruct (committed_asset_field h !! next_object h) eqn:Ec; [|done].
    apply A2 in Ec. lia.
  - done.
  - done.
Qed.

Lemma new_MutableAsset_consistent (a : UncommittedAsset) (h : Heap) :
  heap_consistent h → heap_consistent (snd (new_MutableAsset a h)).
Proof.
  intros [A1 A2 A3 A4 A5 A6 A7 A8 A9]. unfold new_MutableAsset.
  destruct (assetValueToMutableAsset h !! value a) eqn:E; [by constructor|].
  assert (∀ x, asset_field h !! next_object h ≠ Some x) as Hfresh.
  { intros x Hx. apply A1 in Hx. lia. }
  constructor; simpl.
  - intros w x [[<- <-]|[? Hx]]%lookup_insert_Some; [lia|].
    apply A1 in Hx. lia.
  - intros w x Hx. apply A2 in Hx. lia.
  - intros v w Hv. destruct (A3 v w Hv) as (x & Hx & Hval). exists x. split; [|done].
    rewrite lookup_insert_ne; [done|]. intros <-. by eapply Hfresh.
  - intros v w [[<- <-]|[? Hv]]%lookup_insert_Some.
    + exists a. by rewrite !lookup_insert_eq.
    + destruct (A4 v w Hv) as (x & Hx & Hval & Hm). exists x.
      assert (next_object h ≠ w) by (intros <-; by eapply Hfresh).
      by rewrite !lookup_insert_ne.
  - done.
  - intros v v' w Hv [[<- <-]|[? Hm]]%lookup_insert_Some.
    + destruct (A3 v _ Hv) as (x & Hx & _). by eapply Hfresh.
    + by eapply A6.
  - intros w x [[<- <-]|[? Hx]]%lookup_insert_Some; [|by eapply A7].
    destruct (committed_asset_field h !! next_object h) eqn:Ec; [|done].
    apply A2 in Ec. lia.
  - done.
  - intros w x [[<- <-]|[? Hx]]%lookup_insert_Some.
    + by rewrite lookup_insert_eq.
    + pose proof (A9 w x Hx) as Hm.
      rewrite lookup_insert_ne; [done|]. intros Heq. rewrite Heq in E. congruence.
Qed.

Lemma new_CommittedAsset_consistent (a : InternalCommittedAsset) (h : Heap) :
  heap_consistent h → heap_consistent (snd (new_CommittedAsset a h)).
Proof.
  intros [A1 A2 A3 A4 A5 A6 A7 A8 A9]. unfold new_CommittedAsset.
  destruct (committedAssetValueToAsset h !! addr a) eqn:E.
  - constructor; simpl; try done.
    + intros w x Hx. apply A1 in Hx. lia.
    + intros w x Hx. apply A2 in Hx. lia.
  - assert (∀ x, committed_asset_field h !! next_object h ≠ Some x) as Hfresh.
    { intros x Hx. apply A2 in Hx. lia. }
    constructor; simpl.
    + intros w x Hx. apply A1 in Hx. lia.
    + intros w x [[<- <-]|[? Hx]]%lookup_insert_Some; [lia|].
      apply A2 in Hx. lia.
    + done.
    + done.
    + intros ad w [[<- <-]|[? Had]]%lookup_insert_Some.
      * exists a. by rewrite !lookup_insert_eq.
      * destruct (A5 ad w Had) as (x & Hx & Hval & Hm). exists x.
        assert (next_object h ≠ w) by (intros <-; by eapply Hfresh).
        by rewrite !lookup_insert_ne.
    + done.
    + intros w x Hx. rewrite lookup_insert_ne; [by eapply A7|].
      intros <-. apply A1 in Hx. lia.
    + intros w ad [[<- <-]|[? Hx]]%lookup_insert_Some.
      * rewrite lookup_insert_eq. eauto.
      * rewrite lookup_insert_ne by done. by eapply A8.
    + done.
Qed.

Lemma store_value_consistent (h : Heap) (v : Ref) (r : AssetValue) :
  heap_consistent h → heap_consistent (store_value h v r).
Proof. intros [A1 A2 A3 A4 A5 A6 A7 A8 A9]. by constructor. Qed.

Lemma call_consistent (c : Call) (h : Heap) :
  heap_consistent h → heap_consistent (call c h).
Proof.
  intros Hh. destruct c as [a|a|a|this k|this b]; cbn [call].
  - by apply new_Asset_consistent.
  - by apply new_MutableAsset_consistent.
  - by apply new_CommittedAsset_consistent.
  - unfold set_uniqueKey. destruct (asset_value h this) as [[v r]|]; [|done].
    destruct (uniqueKey r); [done|]. by apply store_value_consistent.
  - unfold set_sideEffects. destruct (asset_value h this) as [[v r]|]; [|done].
    by apply store_value_consistent.
Qed.

Lemma calls_consistent (cs : list Call) (h : Heap) :
  heap_consistent h → heap_consistent (calls cs h).
Proof.
  revert h. induction cs as [|c cs IH]; intros h Hh; [done|].
  unfold calls. cbn [foldl]. apply IH. by apply call_consistent.
Qed.

(** The registrations a heap holds after a construction and more calls. *)
Lemma new_Asset_stays_registered (a : UncommittedAsset) (h : Heap) (cs : list Call) :
  uncommittedAssetValueToAsset (calls cs (snd (new_Asset a h))) !! value a
  = Some (fst (new_Asset a h)).
Proof. apply (calls_keep_registrations cs), new_Asset_registered. Qed.

Lemma new_MutableAsset_stays_registered (a : UncommittedAsset) (h : Heap)
    (cs : list Call) :
  assetValueToMutableAsset (calls cs (snd (new_MutableAsset a h))) !! value a
  = Some (fst (new_MutableAsset a h)).
Proof. apply (calls_keep_registrations cs), new_MutableAsset_registered. Qed.

Lemma new_CommittedAsset_stays_registered (a : InternalCommittedAsset) (h : Heap)
    (cs : list Call) :
  committedAssetValueToAsset (calls cs (snd (new_CommittedAsset a h))) !! addr a
  = Some (fst (new_CommittedAsset a h)).
Proof. apply (calls_keep_registrations cs), new_CommittedAsset_registered. Qed.

(** X8. Two constructions of the same class, any calls before, between
    and after them, return the same wrapper exactly when they are given
    the same identity: the same value record for [Asset] and for
    [MutableAsset], the same address for [CommittedAsset]. *)
Theorem same_wrapper_iff_same_identity (next : Ref) (vals : gmap Ref AssetValue)
    (cs cs' : list Call) (a a' : UncommittedAsset)
    (ca ca' : InternalCommittedAsset) :
  let h := calls cs (initial_heap next vals) in
  (let first := new_Asset a h in
   let second := new_Asset a' (calls cs' (snd first)) in
   fst second = fst first ↔ value a' = value a)
  ∧ (let first := new_MutableAsset a h in
     let second := new_MutableAsset a' (calls cs' (snd first)) in
     fst second = fst first ↔ value a' = value a)
  ∧ (let first := new_CommittedAsset ca h in
     let second := new_CommittedAsset ca' (calls cs' (snd first)) in
     fst second = fst first ↔ addr ca' = addr ca).
Proof.
  intros h.
  assert (heap_consistent h) as Hh
    by apply calls_consistent, initial_heap_consistent.
  split; [|split]; cbv zeta.
  - pose proof (new_Asset_stays_registered a h cs') as H1.
    set (h2 := calls cs' (snd (new_Asset a h))) in *.
    assert (heap_consistent h2) as Hh2
      by by apply calls_consistent, new_Asset_consistent.
    split.
    + intros Heq.
      pose proof (new_Asset_registered a' h2) as H2. rewrite Heq in H2.
      apply (proj1 (call_keeps_registrations (NewAsset a') h2)) in H1.
      cbn [call] in H1.
      destruct (asset_registered _ (new_Asset_consistent a' h2 Hh2) _ _ H1)
        as (x & Hx & Hv).
      destruct (asset_registered _ (new_Asset_consistent a' h2 Hh2) _ _ H2)
        as (x' & Hx' & Hv').
      congruence.
    + intros Heq. rewrite <- Heq in H1. by rewrite (new_Asset_existing a' h2 _ H1).
  - pose proof (new_MutableAsset_stays_registered a h cs') as H1.
    set (h2 := calls cs' (snd (new_MutableAsset a h))) in *.
    assert (heap_consistent h2) as Hh2
      by by apply calls_consistent, new_MutableAsset_consistent.
    split.
    + intros Heq.
      pose proof (new_MutableAsset_registered a' h2) as H2. rewrite Heq in H2.
      apply (proj1 (proj2 (call_keeps_registrations (NewMutableAsset a') h2))) in H1.
      cbn [call] in H1.
      destruct (mutable_registered _ (new_MutableAsset_consistent a' h2 Hh2) _ _ H1)
        as (x & Hx & Hv & _).
      destruct (mutable_registered _ (new_MutableAsset_consistent a' h2 Hh2) _ _ H2)
        as (x' & Hx' & Hv' & _).
      congruence.
    + intros Heq. rewrite <- Heq in H1.
      by rewrite (new_MutableAsset_existing a' h2 _ H1).
  - pose proof (new_CommittedAsset_stays_registered ca h cs') as H1.
    set (h2 := calls cs' (snd (new_CommittedAsset ca h))) in *.
    assert (heap_consistent h2) as Hh2
      by by apply calls_consistent, new_CommittedAsset_consistent.
    split.
    + intros Heq.
      pose proof (new_CommittedAsset_registered ca' h2) as H2. rewrite Heq in H2.
      apply (proj2 (proj2 (call_keeps_registrations (NewCommittedAsset ca') h2)))
        in H1.
      cbn [call] in H1.
      destruct (committed_registered _ (new_CommittedAsset_consistent ca' h2 Hh2)
                  _ _ H1) as (x & Hx & Hv & _).
      destruct (committed_registered _ (new_CommittedAsset_consistent ca' h2 Hh2)
                  _ _ H2) as (x' & Hx' & Hv' & _).
      congruence.
    + intros Heq. rewrite <- Heq in H1.
      by destruct (new_CommittedAsset_existing ca' h2 _ H1) as [-> _].
Qed.

(** X9. In every state reached from the load of the module no object is
    registered as a wrapper in two of the three maps; so [new Asset(a)]
    and [new MutableAsset(a)] on the same asset are two objects. *)
Theorem wrapper_classes_are_disjoint (next : Ref) (vals : gmap Ref AssetValue)
    (cs : list Call) (a : UncommittedAsset) :
  let h := calls cs (initial_heap next vals) in
  (∀ v v' ad w,
     ¬ (uncommittedAssetValueToAsset h !! v = Some w
        ∧ assetValueToMutableAsset h !! v' = Some w)
     ∧ ¬ (uncommittedAssetValueToAsset h !! v = Some w
          ∧ committedAssetValueToAsset h !! ad = Some w)
     ∧ ¬ (assetValueToMutableAsset h !! v = Some w
          ∧ committedAssetValueToAsset h !! ad = Some w))
  ∧ fst (new_MutableAsset a (snd (new_Asset a h))) ≠ fst (new_Asset a h)
  ∧ fst (new_Asset a (snd (new_MutableAsset a h))) ≠ fst (new_MutableAsset a h).
Proof.
  intros h.
  assert (heap_consistent h) as Hh
    by apply calls_consistent, initial_heap_consistent.
  assert (∀ h, heap_consistent h → ∀ v v' ad w,
     ¬ (uncommittedAssetValueToAsset h !! v = Some w
        ∧ assetValueToMutableAsset h !! v' = Some w)
     ∧ ¬ (uncommittedAssetValueToAsset h !! v = Some w
          ∧ committedAssetValueToAsset h !! ad = Some w)
     ∧ ¬ (assetValueToMutableAsset h !! v = Some w
          ∧ committedAssetValueToAsset h !! ad = Some w)) as Hdisj.
  { intros h0 Hh0 v v' ad w. split; [|split].
    - intros [Hu Hm]. by eapply (asset_not_mutable _ Hh0).
    - intros [Hu Hc].
      destruct (asset_registered _ Hh0 _ _ Hu) as (x & Hx & _).
      destruct (committed_registered _ Hh0 _ _ Hc) as (y & Hy & _).
      rewrite (asset_not_committed _ Hh0 _ _ Hx) in Hy. done.
    - intros [Hm Hc].
      destruct (mutable_registered _ Hh0 _ _ Hm) as (x & Hx & _).
      destruct (committed_registered _ Hh0 _ _ Hc) as (y & Hy & _).
      rewrite (asset_not_committed _ Hh0 _ _ Hx) in Hy. done. }
  split; [by apply Hdisj|]. split.
  - intros Heq.
    set (h1 := snd (new_Asset a h)) in *.
    assert (heap_consistent (snd (new_MutableAsset a h1))) as Hh2
      by by apply new_MutableAsset_consistent, new_Asset_consistent.
    pose proof (new_MutableAsset_registered a h1) as Hm. rewrite Heq in Hm.
    pose proof (new_Asset_registered a h) as Hu. fold h1 in Hu.
    apply (proj1 (call_keeps_registrations (NewMutableAsset a) h1)) in Hu.
    cbn [call] in Hu.
    by eapply (asset_not_mutable _ Hh2).
  - intros Heq.
    set (h1 := snd (new_MutableAsset a h)) in *.
    assert (heap_consistent (snd (new_Asset a h1))) as Hh2
      by by apply new_Asset_consistent, new_MutableAsset_consistent.
    pose proof (new_Asset_registered a h1) as Hu. rewrite Heq in Hu.
    pose proof (new_MutableAsset_registered a h) as Hm. fold h1 in Hm.
    apply (proj1 (proj2 (call_keeps_registrations (NewAsset a) h1))) in Hm.
    cbn [call] in Hm.
    by eapply (asset_not_mutable _ Hh2).
Qed.

Lemma new_Asset_values (a : UncommittedAsset) (h : Heap) :
  values (snd (new_Asset a h)) = values h.
Proof. unfold new_Asset. by case_match. Qed.

Lemma new_MutableAsset_values (a : UncommittedAsset) (h : Heap) :
  values (snd (new_MutableAsset a h)) = values h.
Proof. unfold new_MutableAsset. by case_match. Qed.

(** X10. The [Asset] and the [MutableAsset] wrapper of one value record
    share it: what [set sideEffects] or [set isBundleSplittable] assigns
    through the mutable wrapper is read back through both wrappers, and
    the other fields read as before. *)
Theorem writes_are_seen_through_every_wrapper (next : Ref)
    (vals : gmap Ref AssetValue) (cs : list Call) (v o o' : Ref)
    (r : AssetValue) (b : bool) :
  let h := calls cs (initial_heap next vals) in
  values h !! v = Some r →
  let first := new_Asset (mkUncommittedAsset v o) h in
  let second := new_MutableAsset (mkUncommittedAsset v o') (snd first) in
  (∃ h', set_sideEffects (snd second) (fst second) b = Some h'
         ∧ get_sideEffects h' (fst first) = Some b
         ∧ get_sideEffects h' (fst second) = Some b
         ∧ get_isBundleSplittable h' (fst first) = Some (isBundleSplittable r)
         ∧ get_uniqueKey h' (fst first) = Some (uniqueKey r))
  ∧ (∃ h', set_isBundleSplittable (snd second) (fst second) b = Some h'
           ∧ get_isBundleSplittable h' (fst first) = Some b
           ∧ get_isBundleSplittable h' (fst second) = Some b
           ∧ get_sideEffects h' (fst first) = Some (sideEffects r)
           ∧ get_uniqueKey h' (fst first) = Some (uniqueKey r)).
Proof.
  intros h Hr first second.
  assert (heap_consistent h) as Hh
    by apply calls_consistent, initial_heap_consistent.
  set (h2 := snd second).
  assert (heap_consistent h2) as Hh2
    by by apply new_MutableAsset_consistent, new_Asset_consistent.
  assert (values h2 !! v = Some r) as Hr2.
  { unfold h2, second, first. by rewrite new_MutableAsset_values, new_Asset_values. }
  pose proof (new_Asset_registered (mkUncommittedAsset v o) h) as Hu.
  apply (proj1 (call_keeps_registrations
                  (NewMutableAsset (mkUncommittedAsset v o')) (snd first))) in Hu.
  cbn [call] in Hu. fold first second h2 in Hu. simpl in Hu.
  pose proof (new_MutableAsset_registered (mkUncommittedAsset v o') (snd first)) as Hm.
  fold second h2 in Hm. simpl in Hm.
  destruct (asset_registered _ Hh2 _ _ Hu) as (x1 & Hx1 & Hv1).
  destruct (mutable_registered _ Hh2 _ _ Hm) as (x2 & Hx2 & Hv2 & _).
  split.
  - unfold set_sideEffects, get_sideEffects, get_isBundleSplittable,
      get_uniqueKey, asset_value.
    rewrite Hx2, Hv2, Hr2. eexists. split; [done|]. simpl.
    by rewrite Hx1, Hx2, Hv1, Hv2, lookup_insert_eq.
  - unfold set_isBundleSplittable, get_sideEffects, get_isBundleSplittable,
      get_uniqueKey, asset_value.
    rewrite Hx2, Hv2, Hr2. eexists. split; [done|]. simpl.
    by rewrite Hx1, Hx2, Hv1, Hv2, lookup_insert_eq.
Qed.

Lemma call_keeps_uniqueKey (c : Call) (h : Heap) (this : Ref) (k : string) :
  heap_consistent h →
  get_uniqueKey h this = Some (Some k) →
  get_uniqueKey (call c h) this = Some (Some k).
Proof.
  intros Hh. unfold get_uniqueKey, asset_value.
  destruct (asset_field h !! this) as [x|] eqn:Hx; [|done].
  destruct (values h !! value x) as [r|] eqn:Hr; [|done].
  intros [= Hk].
  pose proof (asset_field_allocated _ Hh _ _ Hx) as Halloc.
  destruct c as [a|a|a|this' k'|this' b]; cbn [call].
  - unfold new_Asset.
    destruct (uncommittedAssetValueToAsset h !! value a); simpl;
      [by rewrite Hx, Hr, Hk|].
    rewrite lookup_insert_ne by lia. by rewrite Hx, Hr, Hk.
  - unfold new_MutableAsset.
    destruct (assetValueToMutableAsset h !! value a); simpl;
      [by rewrite Hx, Hr, Hk|].
    rewrite lookup_insert_ne by lia. by rewrite Hx, Hr, Hk.
  - unfold new_CommittedAsset.
    destruct (committedAssetValueToAsset h !! addr a); simpl;
      by rewrite Hx, Hr, Hk.
  - unfold set_uniqueKey, asset_value.
    destruct (asset_field h !! this') as [x'|]; [|by rewrite Hx, Hr, Hk].
    destruct (values h !! value x') as [r'|] eqn:Hr'; [|by rewrite Hx, Hr, Hk].
    destruct (uniqueKey r') eqn:Hk'; [by rewrite Hx, Hr, Hk|]. simpl.
    rewrite Hx. rewrite lookup_insert_ne; [by rewrite Hr, Hk|].
    intros Heq. rewrite Heq in Hr'. congruence.
  - unfold set_sideEffects, asset_value.
    destruct (asset_field h !! this') as [x'|]; [|by rewrite Hx, Hr, Hk].
    destruct (values h !! value x') as [r'|] eqn:Hr'; [|by rewrite Hx, Hr, Hk].
    simpl. rewrite Hx.
    destruct (decide (value x' = value x)) as [Heq|Hne].
    + rewrite Heq, lookup_insert_eq. simpl. rewrite Heq in Hr'. congruence.
    + rewrite lookup_insert_ne by done. by rewrite Hr, Hk.
Qed.

(** X11. Once a wrapper reads a [uniqueKey] that is set, it reads the same
    key after any further calls: constructions, assignments to
    [uniqueKey] through any wrapper, and the other setters. *)
Theorem uniqueKey_stays (next : Ref) (vals : gmap Ref AssetValue)
    (cs cs' : list Call) (this : Ref) (k : string) :
  let h := calls cs (initial_heap next vals) in
  get_uniqueKey h this = Some (Some k) →
  get_uniqueKey (calls cs' h) this = Some (Some k).
Proof.
  intros h.
  assert (heap_consistent h) as Hh
    by apply calls_consistent, initial_heap_consistent.
  clearbody h. revert h Hh.
  induction cs' as [|c cs' IH]; intros h Hh Hk; [done|].
  unfold calls. cbn [foldl]. apply IH.
  - by apply call_consistent.
  - by apply call_keeps_uniqueKey.
Qed.

(** X12. [assetToAssetValue] returns the address of a [CommittedAsset]
    wrapper, whatever was called since its construction; on an [Asset] or
    a [MutableAsset] wrapper it throws, as the constructors of these never
    enter them in the map. *)
Theorem assetToAssetValue_of_wrappers (next : Ref) (vals : gmap Ref AssetValue)
    (cs cs' : list Call) (ca : InternalCommittedAsset) (a : UncommittedAsset) :
  let h := calls cs (initial_heap next vals) in
  (let first := new_CommittedAsset ca h in
   assetToAssetValue (calls cs' (snd first)) (fst first) = Resolved (addr ca))
  ∧ (let first := new_Asset a h in
     ∃ e, assetToAssetValue (calls cs' (snd first)) (fst first) = Rejected e)
  ∧ (let first := new_MutableAsset a h in
     ∃ e, assetToAssetValue (calls cs' (snd first)) (fst first) = Rejected e).
Proof.
  intros h.
  assert (heap_consistent h) as Hh
    by apply calls_consistent, initial_heap_consistent.
  assert (∀ h0 w x, heap_consistent h0 → asset_field h0 !! w = Some x →
                    ∃ e, assetToAssetValue h0 w = Rejected e) as Hthrows.
  { intros h0 w x Hh0 Hx. unfold assetToAssetValue.
    destruct (_assetToAssetValue h0 !! w) as [ad|] eqn:E; [|by eexists].
    destruct (assetToAssetValue_committed _ Hh0 _ _ E) as [y Hy].
    by rewrite (asset_not_committed _ Hh0 _ _ Hx) in Hy. }
  split; [|split]; cbv zeta.
  - pose proof (new_CommittedAsset_stays_registered ca h cs') as H1.
    assert (heap_consistent (calls cs' (snd (new_CommittedAsset ca h)))) as Hh2
      by by apply calls_consistent, new_CommittedAsset_consistent.
    destruct (committed_registered _ Hh2 _ _ H1) as (x & _ & _ & Hx).
    unfold assetToAssetValue. by rewrite Hx.
  - pose proof (new_Asset_stays_registered a h cs') as H1.
    assert (heap_consistent (calls cs' (snd (new_Asset a h)))) as Hh2
      by by apply calls_consistent, new_Asset_consistent.
    destruct (asset_registered _ Hh2 _ _ H1) as (x & Hx & _).
    by eapply Hthrows.
  - pose proof (new_MutableAsset_stays_registered a h cs') as H1.
    assert (heap_consistent (calls cs' (snd (new_MutableAsset a h)))) as Hh2
      by by apply calls_consistent, new_MutableAsset_consistent.
    destruct (mutable_registered _ Hh2 _ _ H1) as (x & Hx & _).
    by eapply Hthrows.
Qed.

(** X13. [mutableAssetToUncommittedAsset] returns, for a [MutableAsset]
    wrapper, an uncommitted asset with the value record the wrapper was
    constructed for: the asset given to the constructor when the wrapper
    was new. On an [Asset] wrapper it throws. *)
Theorem mutableAssetToUncommittedAsset_of_wrappers (next : Ref)
    (vals : gmap Ref AssetValue) (cs cs' : list Call) (a : UncommittedAsset) :
  let h := calls cs (initial_heap next vals) in
  (let first := new_MutableAsset a h in
   ∃ a0, mutableAssetToUncommittedAsset (calls cs' (snd first)) (fst first)
         = Resolved a0
         ∧ value a0 = value a
         ∧ (assetValueToMutableAsset h !! value a = None → a0 = a))
  ∧ (let first := new_Asset a h in
     ∃ e, mutableAssetToUncommittedAsset (calls cs' (snd first)) (fst first)
          = Rejected e).
Proof.
  intros h.
  assert (heap_consistent h) as Hh
    by apply calls_consistent, initial_heap_consistent.
  split; cbv zeta.
  - pose proof (new_MutableAsset_stays_registered a h cs') as H1.
    set (h2 := calls cs' (snd (new_MutableAsset a h))) in *.
    assert (heap_consistent h2) as Hh2
      by by apply calls_consistent, new_MutableAsset_consistent.
    destruct (mutable_registered _ Hh2 _ _ H1) as (x & Hx & Hv & Hm).
    exists x. unfold mutableAssetToUncommittedAsset. rewrite Hm.
    split; [done|]. split; [done|].
    intros Hnew.
    assert (asset_field (snd (new_MutableAsset a h)) !! fst (new_MutableAsset a h)
            = Some a) as Hfield.
    { unfold new_MutableAsset. rewrite Hnew. simpl. by rewrite lookup_insert_eq. }
    assert (∀ cs0 h0 w y, heap_consistent h0 → asset_field h0 !! w = Some y →
                          asset_field (calls cs0 h0) !! w = Some y) as Hkeep.
    { induction cs0 as [|c cs0 IH]; intros h0 w y Hh0 Hy; [done|].
      unfold calls. cbn [foldl]. apply IH; [by apply call_consistent|].
      pose proof (asset_field_allocated _ Hh0 _ _ Hy) as Halloc.
      destruct c as [a1|a1|a1|t k|t b]; cbn [call].
      - unfold new_Asset.
        destruct (uncommittedAssetValueToAsset h0 !! value a1); simpl; [done|].
        by rewrite lookup_insert_ne by lia.
      - unfold new_MutableAsset.
        destruct (assetValueToMutableAsset h0 !! value a1); simpl; [done|].
        by rewrite lookup_insert_ne by lia.
      - unfold new_CommittedAsset.
        by destruct (committedAssetValueToAsset h0 !! addr a1).
      - unfold set_uniqueKey. destruct (asset_value h0 t) as [[v1 r1]|]; [|done].
        by destruct (uniqueKey r1).
      - unfold set_sideEffects. by destruct (asset_value h0 t) as [[v1 r1]|]. }
    apply (Hkeep cs') in Hfield; [|by apply new_MutableAsset_consistent].
    fold h2 in Hfield. congruence.
  - pose proof (new_Asset_stays_registered a h cs') as H1.
    set (h2 := calls cs' (snd (new_Asset a h))) in *.
    assert (heap_consistent h2) as Hh2
      by by apply calls_consistent, new_Asset_consistent.
    unfold mutableAssetToUncommittedAsset.
    destruct (_mutableAssetToUncommittedAsset h2 !! fst (new_Asset a h))
      as [x|] eqn:E; [|by eexists].
    pose proof (mutableAssetToUncommittedAsset_mutable _ Hh2 _ _ E) as Hm.
    by destruct (asset_not_mutable _ Hh2 _ _ _ H1 Hm).
Qed.

End PublicAssetState.

Lemma writes_are_seen_through_every_wrapper_witness :
  let vals : gmap positive PublicAsset.AssetValue :=
    {[ 7%positive := PublicAsset.mkAssetValue "js" true true None ]} in
  let h := PublicAssetLookups.initial_heap 1 vals in
  let first := PublicAsset.new_Asset (PublicAsset.mkUncommittedAsset 7 3) h in
  let second :=
    PublicAsset.new_MutableAsset (PublicAsset.mkUncommittedAsset 7 4) (snd first) in
  PublicAsset.values h !! 7%positive
  = Some (PublicAsset.mkAssetValue "js" true true None)
  ∧ ∃ h', PublicAsset.set_sideEffects (snd second) (fst second) false = Some h'
          ∧ PublicAssetLookups.get_sideEffects h' (fst first) = Some false.
Proof.
  intros vals h first second.
  split; [reflexivity|].
  destruct (writes_are_seen_through_every_wrapper 1 vals [] 7 3 4
              (PublicAsset.mkAssetValue "js" true true None) false eq_refl)
    as [(h' & Hset & Hget & _) _].
  exists h'. split; [exact Hset|exact Hget].
Defined.

Lemma uniqueKey_stays_witness :
  let vals : gmap positive PublicAsset.AssetValue :=
    {[ 7%positive := PublicAsset.mkAssetValue "js" true true (Some "key") ]} in
  let a := PublicAsset.mkUncommittedAsset 7 3 in
  let h := PublicAsset.calls [PublicAsset.NewMutableAsset a]
             (PublicAssetLookups.initial_heap 1 vals) in
  PublicAsset.get_uniqueKey h 1%positive = Some (Some "key")
  ∧ PublicAsset.get_uniqueKey
      (PublicAsset.calls [PublicAsset.SetUniqueKey 1 (Some "other");
                          PublicAsset.SetSideEffects 1 false;
                          PublicAsset.NewAsset a] h) 1%positive
    = Some (Some "key").
Proof.
  intros vals a h.
  split; [reflexivity|].
  apply (uniqueKey_stays 1 vals [PublicAsset.NewMutableAsset a]). reflexivity.
Defined.

(** ** regexReplaceWithLocations: what the scan keeps and leaves alone *)
Section ReplaceScan.

Import ReplaceBundleReferences.

Lemma starts_with_newline (c : ascii) (s : Text) :
  starts_with newline (c :: s) = true → [c] = newline.
Proof. unfold newline. simpl. by destruct (decide ("010"%char = c)) as [<-|]. Qed.

Lemma find_all_false {A} (f : A → bool) (l : list A) :
  (∀ x, x ∈ l → f x = false) → List.find f l = None.
Proof.
  induction l as [|a l IH]; intros H; simpl; [done|].
  rewrite (H a) by (by left). apply IH. intros x Hx. apply H. by right.
Qed.

Lemma replace_callback_newline (replacementMap : JsMap Text) (st : ScanState)
    (index : Z) :
  replace_callback replacementMap st newline index
  = (mkScanState (line st + 1) (offset st) (index + offset st + 1) (offsets st),
     newline).
Proof. unfold replace_callback. by rewrite decide_True. Qed.

(** A text in which no key matches at any position passes through. *)
Lemma replace_from_no_match (replacementMap : JsMap Text) (keys : list Text) :
  ∀ s index st out,
    (∀ k i, k ∈ keys → starts_with k (drop i s) = false) →
    ∃ st',
      replace_from (newline :: keys) (replace_callback replacementMap)
        s index 0 st out = (st', out ++ s)
      ∧ offsets st' = offsets st ∧ offset st' = offset st.
Proof.
  induction s as [|c s IH]; intros index st out Hno.
  - exists st. cbn [replace_from]. unfold regex_exec. cbn [List.find starts_with].
    rewrite find_all_false; [by rewrite app_nil_r|].
    intros k Hk. apply (Hno k 0 Hk).
  - assert (∀ k i, k ∈ keys → starts_with k (drop i s) = false) as Hno'.
    { intros k i Hk. apply (Hno k (S i) Hk). }
    cbn [replace_from]. unfold regex_exec. cbn [List.find].
    destruct (starts_with newline (c :: s)) eqn:Enl.
    + apply starts_with_newline in Enl.
      rewrite replace_callback_newline.
      change newline with ["010"%char] at 1. cbv iota beta. cbn [length].
      destruct (IH (S index)
                  (mkScanState (line st + 1) (offset st)
                     (Z.of_nat index + offset st + 1) (offsets st))
                  (out ++ newline) Hno') as (st' & Hrun & Hoff & Hoffset).
      exists st'. rewrite Hrun, <- Enl, <- app_assoc. done.
    + rewrite find_all_false by (intros k Hk; apply (Hno k 0 Hk)).
      destruct (IH (S index) st (out ++ [c]) Hno') as (st' & Hrun & Hoff & Hoffset).
      exists st'. rewrite Hrun, <- app_assoc. done.
Qed.

(** X14. With keys that are literal tokens, free of pattern syntax
    characters: a text in which no key of the map occurs, at any position,
    is returned as it is, with no correction; so is every text when the
    map is empty. *)
Theorem text_without_placeholders_is_unchanged (input : Text)
    (replacementMap : JsMap Text) :
  Forall literal_key (map_keys replacementMap) →
  (∀ k i, k ∈ map_keys replacementMap → starts_with k (drop i input) = false) →
  regexReplaceWithLocations input replacementMap = (input, [])
  ∧ regexReplaceWithLocations input [] = (input, []).
Proof.
  intros _ Hno. unfold regexReplaceWithLocations, scan. split.
  - destruct (replace_from_no_match replacementMap
                (sort_by_length (map_keys replacementMap)) input 0
                initial_state []) as (st' & -> & Hoff & _).
    + intros k i Hk. apply Hno. by apply sort_by_length_elem.
    + by rewrite Hoff.
  - destruct (replace_from_no_match [] [] input 0 initial_state [])
      as (st' & Hrun & Hoff & _).
    + intros k i Hk. by apply elem_of_nil in Hk.
    + cbn [map_keys fmap list_fmap sort_by_length foldr]. rewrite Hrun.
      by rewrite Hoff.
Qed.

(** X15. With keys that are literal tokens, free of pattern syntax
    characters: when every replacement is as long as its key, no
    correction is recorded and the result is as long as the input. *)
Theorem same_length_replacements_record_nothing (input : Text)
    (replacementMap : JsMap Text) :
  Forall literal_key (map_keys replacementMap) →
  (∀ k r, map_get replacementMap k = Some r → length r = length k) →
  snd (regexReplaceWithLocations input replacementMap) = []
  ∧ length (fst (regexReplaceWithLocations input replacementMap)) = length input.
Proof.
  intros _ Hsame. unfold regexReplaceWithLocations, scan.
  set (alts := newline :: sort_by_length (map_keys replacementMap)).
  pose proof (replace_from_related
                (λ (_ : unit) st, offsets st = [] ∧ offset st = 0%Z) alts
                (λ u _ _, (u, [])) (replace_callback replacementMap)) as Hinv.
  pose proof (replace_from_length replacementMap alts input 0 0 initial_state []
                ltac:(lia)) as Hlen.
  cbv zeta in Hlen.
  specialize (Hinv ltac:(
    intros _ st m index [Hoff Hoffset]; unfold replace_callback;
    destruct (decide (m = newline)); [done|];
    destruct (map_get replacementMap m) as [r|] eqn:E; [|done];
    apply Hsame in E; case_decide; [lia|done])
    input 0 0 tt initial_state [] [] ltac:(done)).
  destruct (replace_from alts (replace_callback replacementMap) _ _ _ _ _)
    as [st result].
  cbn [fst snd] in *. destruct Hinv as [Hoff Hoffset].
  split; [done|]. rewrite Hoffset in Hlen. simpl in Hlen. lia.
Qed.





Lemma starts_with_refl (k : Text) : starts_with k k = true.
Proof. induction k as [|a k IH]; simpl; [done|]. by rewrite decide_True. Qed.

Lemma starts_with_full (k0 k : Text) :
  starts_with k0 k = true → length k ≤ length k0 → k0 = k.
Proof.
  revert k. induction k0 as [|a k0 IH]; intros [|b k]; simpl; try done; [lia|].
  destruct (decide (a = b)) as [->|]; [|done].
  intros H Hlen. f_equal. apply IH; [done|lia].
Qed.

Lemma map_get_Some_key {V} (m : JsMap V) (k : Text) (v : V) :
  map_get m k = Some v → k ∈ map_keys m.
Proof.
  intros H. destruct (decide (k ∈ map_keys m)) as [|Hnin]; [done|].
  by rewrite (map_get_None m k Hnin) in H.
Qed.

(** The code units that a match covers are passed over. *)
Lemma replace_from_skip {St : Type} (alternatives : list Text)
    (callback : St → Text → Z → St * Text) :
  ∀ s index st out,
    replace_from alternatives callback s index (length s) st out
    = replace_from alternatives callback [] (index + length s) 0 st out.
Proof.
  induction s as [|c s IH]; intros index st out.
  - simpl. by rewrite Nat.add_0_r.
  - cbn [length replace_from]. rewrite IH.
    by replace (index + S (length s)) with (S index + length s) by lia.
Qed.

(** X17. A text that is exactly one key of the map is rewritten to the
    replacement of that key, which is not scanned again, with one
    correction at line 1, column 0 when the lengths differ: for a key
    that is not empty and does not begin with a newline, in a map
    without the empty key whose keys are literal tokens, free of pattern
    syntax characters. *)
Theorem placeholder_text_is_its_replacement (replacementMap : JsMap Text)
    (k r : Text) :
  Forall literal_key (map_keys replacementMap) →
  map_get replacementMap k = Some r →
  k ≠ [] →
  starts_with newline k = false →
  [] ∉ map_keys replacementMap →
  regexReplaceWithLocations k replacementMap
  = (r, if decide ((Z.of_nat (length r) - Z.of_nat (length k))%Z ≠ 0%Z)
        then [mkOffsetEntry 1 0 (Z.of_nat (length r) - Z.of_nat (length k))]
        else []).
Proof.
  intros _ Hget Hne Hnl Hempty.
  unfold regexReplaceWithLocations, scan.
  set (keys := sort_by_length (map_keys replacementMap)).
  assert (regex_exec (newline :: keys) k = Some k) as Hexec.
  { unfold regex_exec. cbn [List.find]. rewrite Hnl.
    destruct (find_is_Some (λ k0, starts_with k0 k) keys k) as [k0 Hk0].
    - apply sort_by_length_elem. by eapply map_get_Some_key.
    - apply starts_with_refl.
    - rewrite Hk0. f_equal.
      destruct (find_sorted_longest _ _ _ (sort_by_length_sorted _) Hk0)
        as (Hs & _ & Hmax).
      apply starts_with_full; [done|]. apply Hmax; [|apply starts_with_refl].
      apply sort_by_length_elem. by eapply map_get_Some_key. }
  assert (regex_exec (newline :: keys) [] = None) as Hend.
  { unfold regex_exec. cbn [List.find starts_with]. apply find_all_false.
    intros k0 Hk0. destruct k0 as [|a k0]; [|done].
    exfalso. apply Hempty. by apply sort_by_length_elem. }
  destruct k as [|c k']; [done|].
  cbn [replace_from]. rewrite Hexec.
  assert (replace_callback replacementMap initial_state (c :: k') (Z.of_nat 0)
          = (if decide ((Z.of_nat (length r) - Z.of_nat (length (c :: k')))%Z ≠ 0%Z)
             then mkScanState 1 (0 + (Z.of_nat (length r)
                                      - Z.of_nat (length (c :: k')))) 0
                    [mkOffsetEntry 1 0
                       (Z.of_nat (length r) - Z.of_nat (length (c :: k')))]
             else initial_state, r)) as ->.
  { unfold replace_callback.
    rewrite decide_False by (intros Heq; rewrite Heq in Hnl; done).
    rewrite Hget. by case_decide. }
  rewrite replace_from_skip. cbn [replace_from]. rewrite Hend.
  by case_decide.
Qed.

End ReplaceScan.

Lemma text_without_placeholders_is_unchanged_witness :
  let t := list_ascii_of_string in
  let input := t "ab" in
  let replacementMap := [(t "xyz", t "1")] in
  Forall ReplaceBundleReferences.literal_key
    (ReplaceBundleReferences.map_keys replacementMap)
  ∧ (∀ k i, k ∈ ReplaceBundleReferences.map_keys replacementMap →
            ReplaceBundleReferences.starts_with k (drop i input) = false)
  ∧ ReplaceBundleReferences.regexReplaceWithLocations input replacementMap
    = (input, []).
Proof.
  intros t input replacementMap.
  assert (Forall ReplaceBundleReferences.literal_key
            (ReplaceBundleReferences.map_keys replacementMap)) as Hliteral
    by (apply (bool_decide_unpack _); vm_compute; exact I).
  split; [exact Hliteral|].
  assert (∀ k i, k ∈ ReplaceBundleReferences.map_keys replacementMap →
                 ReplaceBundleReferences.starts_with k (drop i input) = false)
    as Hno.
  { intros k i Hk. apply list_elem_of_singleton in Hk. subst k.
    destruct i as [|[|[|i]]]; reflexivity. }
  split; [exact Hno|].
  exact (proj1 (text_without_placeholders_is_unchanged input replacementMap
                  Hliteral Hno)).
Defined.

Lemma same_length_replacements_record_nothing_witness :
  let t := list_ascii_of_string in
  let replacementMap := [(t "abc", t "xyz")] in
  Forall ReplaceBundleReferences.literal_key
    (ReplaceBundleReferences.map_keys replacementMap)
  ∧ (∀ k r, ReplaceBundleReferences.map_get replacementMap k = Some r →
            length r = length k)
  ∧ snd (ReplaceBundleReferences.regexReplaceWithLocations (t "1abc2") replacementMap)
    = [].
Proof.
  intros t replacementMap.
  assert (Forall ReplaceBundleReferences.literal_key
            (ReplaceBundleReferences.map_keys replacementMap)) as Hliteral
    by (apply (bool_decide_unpack _); vm_compute; exact I).
  split; [exact Hliteral|].
  assert (∀ k r, ReplaceBundleReferences.map_get replacementMap k = Some r →
                 length r = length k) as Hsame.
  { intros k r H. cbn in H. case_decide as Hk; [|discriminate H].
    injection H as <-. rewrite <- Hk. reflexivity. }
  split; [exact Hsame|].
  exact (proj1 (same_length_replacements_record_nothing (t "1abc2")
                  replacementMap Hliteral Hsame)).
Defined.

Lemma placeholder_text_is_its_replacement_witness :
  let t := list_ascii_of_string in
  let replacementMap := [(t "a", t "bb"); (t "b", t "c")] in
  Forall ReplaceBundleReferences.literal_key
    (ReplaceBundleReferences.map_keys replacementMap)
  ∧ ReplaceBundleReferences.map_get replacementMap (t "a") = Some (t "bb")
  ∧ fst (ReplaceBundleReferences.regexReplaceWithLocations (t "a") replacementMap)
    = t "bb".
Proof.
  intros t replacementMap.
  assert (Forall ReplaceBundleReferences.literal_key
            (ReplaceBundleReferences.map_keys replacementMap)) as Hliteral
    by (apply (bool_decide_unpack _); vm_compute; exact I).
  split; [exact Hliteral|].
  split; [reflexivity|].
  rewrite (placeholder_text_is_its_replacement replacementMap (t "a") (t "bb")).
  - reflexivity.
  - exact Hliteral.
  - reflexivity.
  - discriminate.
  - reflexivity.
  - intros Hin. apply elem_of_cons in Hin as [Hin|Hin]; [discriminate|].
    apply list_elem_of_singleton in Hin. discriminate.
Defined.

(** ** The two passes: when they do nothing, when they throw *)
Section PassBehaviour.

Import ReplaceBundleReferences.

Context (getReferencedBundle : Dependency → Bundle → option Bundle)
        (Url : Type) (URL_parse : Text → Url) (set_pathname : Url → Text → Url)
        (URL_format : Url → Text) (relativeBundlePath : Bundle → Bundle → Text)
        (urlJoin : Text → Text → Text)
        (getInlineReplacement : Dependency → option Text → Text → Replacement)
        (getInlineBundleContents : Bundle → Outcome Blob)
        (buffer_toString : Buffer → Text).

Local Abbreviation url_step :=
  (ReplaceBundleReferences.url_step getReferencedBundle Url URL_parse
     set_pathname URL_format relativeBundlePath urlJoin).
Local Abbreviation url_replacements :=
  (ReplaceBundleReferences.url_replacements getReferencedBundle Url URL_parse
     set_pathname URL_format relativeBundlePath urlJoin).
Local Abbreviation replaceURLReferences :=
  (ReplaceBundleReferences.replaceURLReferences getReferencedBundle Url URL_parse
     set_pathname URL_format relativeBundlePath urlJoin).
Local Abbreviation inline_step :=
  (ReplaceBundleReferences.inline_step getReferencedBundle getInlineReplacement
     getInlineBundleContents buffer_toString).
Local Abbreviation inline_replacements :=
  (ReplaceBundleReferences.inline_replacements getReferencedBundle
     getInlineReplacement getInlineBundleContents buffer_toString).
Local Abbreviation replaceInlineReferences :=
  (ReplaceBundleReferences.replaceInlineReferences getReferencedBundle
     getInlineReplacement getInlineBundleContents buffer_toString).

Lemma for_of_unchanged {A B} (body : B → A → Outcome B) (l : list A) (b : B) :
  (∀ a b, a ∈ l → body b a = Resolved b) → for_of body l b = Resolved b.
Proof.
  induction l as [|a l IH]; intros H; simpl; [done|].
  rewrite H by (by left). apply IH. intros a0 b0 Ha0. apply H. by right.
Qed.

Lemma for_of_resolves {A B} (body : B → A → Outcome B) (l : list A) (b : B) :
  (∀ a b, a ∈ l → ∃ b', body b a = Resolved b') → ∃ b', for_of body l b = Resolved b'.
Proof.
  revert b. induction l as [|a l IH]; intros b H; simpl; [by eexists|].
  destruct (H a b) as [b1 ->]; [by left|].
  apply IH. intros a0 b0 Ha0. apply H. by right.
Qed.

Lemma for_of_rejects {A B} (body : B → A → Outcome B) (l : list A) (a : A) (b : B) :
  a ∈ l → (∀ b, ∃ e, body b a = Rejected e) → ∃ e, for_of body l b = Rejected e.
Proof.
  revert b. induction l as [|a0 l IH]; intros b Hin Hrej; simpl.
  - by apply elem_of_nil in Hin.
  - destruct (body b a0) as [b1|e] eqn:E; [|by eexists].
    apply elem_of_cons in Hin as [->|Hin]; [|by apply IH].
    destruct (Hrej b) as [e He]. congruence.
Qed.

Lemma performReplacement_nothing (contents : Text) (map : option SourceMap) :
  performReplacement [] contents map = (contents, map).
Proof.
  unfold performReplacement, regexReplaceWithLocations, scan.
  cbn [map_values map_keys fmap list_fmap new_Map foldl sort_by_length foldr].
  destruct (replace_from_no_match [] [] contents 0 initial_state [])
    as (st' & -> & Hoff & _).
  - intros k i Hk. by apply elem_of_nil in Hk.
  - rewrite Hoff. simpl. by destruct map.
Qed.

(** X18. When every URL dependency of the bundle resolves to an inline
    bundle, and so when the bundle has no URL dependency, the URL pass
    returns the contents and the source map as they are. *)
Theorem url_pass_leaves_inline_targets (bundle : Bundle) (contents : Text)
    (map : option SourceMap) (relative : bool) :
  (∀ d, d ∈ urlDependencies bundle →
        ∃ target, getReferencedBundle d bundle = Some target
                  ∧ bundle_isInline target = true) →
  replaceURLReferences bundle contents map relative = Resolved (contents, map).
Proof.
  intros Hinline.
  unfold ReplaceBundleReferences.replaceURLReferences,
    ReplaceBundleReferences.url_replacements.
  rewrite for_of_unchanged; [by rewrite performReplacement_nothing|].
  intros d acc Hd. destruct (Hinline d Hd) as (target & Ht & Hi).
  unfold ReplaceBundleReferences.url_step.
  destruct (negb (isURL d)); [done|]. by rewrite Ht, Hi.
Qed.

(** X19. When no dependency of the bundle resolves to an inline bundle the
    inline pass returns the contents and the source map as they are. *)
Theorem inline_pass_leaves_other_targets (bundle : Bundle) (contents : Text)
    (map : option SourceMap) :
  (∀ d target, d ∈ dependencies bundle →
               getReferencedBundle d bundle = Some target →
               bundle_isInline target = false) →
  replaceInlineReferences bundle contents map = Resolved (contents, map).
Proof.
  intros Hother.
  unfold ReplaceBundleReferences.replaceInlineReferences,
    ReplaceBundleReferences.inline_replacements.
  rewrite for_of_unchanged; [by rewrite performReplacement_nothing|].
  intros d acc Hd. unfold ReplaceBundleReferences.inline_step.
  destruct (getReferencedBundle d bundle) as [target|] eqn:Ht; [|done].
  by rewrite (Hother d target Hd Ht).
Qed.

(** X21. In absolute mode the URL pass throws when a URL dependency
    resolves to a bundle that is not inline and has no name. *)
Theorem url_pass_absolute_needs_names (bundle : Bundle) (contents : Text)
    (map : option SourceMap) (d : Dependency) (target : Bundle) :
  d ∈ urlDependencies bundle →
  getReferencedBundle d bundle = Some target →
  bundle_isInline target = false →
  name target = None →
  ∃ e, replaceURLReferences bundle contents map false = Rejected e.
Proof.
  intros Hd Ht Hi Hname.
  unfold ReplaceBundleReferences.replaceURLReferences,
    ReplaceBundleReferences.url_replacements.
  destruct (for_of_rejects (url_step bundle false) (urlDependencies bundle) d [] Hd)
    as [e ->]; [|by eexists].
  intros acc. unfold ReplaceBundleReferences.url_step, getURLReplacement.
  destruct (urlDependencies_elem bundle d Hd) as [_ ->]. simpl.
  rewrite Ht, Hi, Hname. simpl. by eexists.
Qed.

(** X22. A URL dependency that resolves to a bundle that is not inline,
    its id shared with no other URL dependency of the bundle, is
    registered with, in relative mode, the formatted module specifier
    with its path set to the relative path from the bundle to the
    target, and in absolute mode the target's public URL joined with the
    formatted module specifier with its path set to the target's name. *)
Theorem resolved_url_dependency (bundle : Bundle) (d : Dependency)
    (target : Bundle) :
  d ∈ urlDependencies bundle →
  (∀ d', d' ∈ urlDependencies bundle → dep_id d' = dep_id d → d' = d) →
  getReferencedBundle d bundle = Some target →
  bundle_isInline target = false →
  (∀ replacements,
     url_replacements bundle true = Resolved replacements →
     map_get replacements (dep_id d)
     = Some (mkReplacement (dep_id d)
               (URL_format (set_pathname (URL_parse (moduleSpecifier d))
                              (relativeBundlePath bundle target)))))
  ∧ (∀ replacements n,
       name target = Some n →
       url_replacements bundle false = Resolved replacements →
       map_get replacements (dep_id d)
       = Some (mkReplacement (dep_id d)
                 (urlJoin (publicUrl target)
                    (URL_format (set_pathname (URL_parse (moduleSpecifier d)) n))))).
Proof.
  intros Hd Huniq Ht Hi.
  assert (∀ relative r,
            (∀ acc, url_step bundle relative acc d
                    = Resolved (map_set acc (dep_id d) r)) →
            ∀ replacements,
              url_replacements bundle relative = Resolved replacements →
              map_get replacements (dep_id d) = Some r) as Hpass.
  { intros relative r Hstep replacements Hrun.
    apply (for_of_established (url_step bundle relative)
             (λ acc, map_get acc (dep_id d) = Some r)
             (urlDependencies bundle) d [] replacements); [done| | |done].
    - intros acc acc'. rewrite Hstep. intros [= <-]. apply map_get_set_eq.
    - intros d' acc acc' Hd' Hacc Hstep'.
      destruct (decide (dep_id d' = dep_id d)) as [Heq|Hne].
      + rewrite (Huniq d' Hd' Heq), Hstep in Hstep'.
        injection Hstep' as <-. apply map_get_set_eq.
      + by rewrite (url_step_frame _ _ _ _ _ _ _ _ _ _ _ _ _ Hstep' Hne). }
  destruct (urlDependencies_elem bundle d Hd) as [_ Hurl].
  split.
  - apply Hpass. intros acc.
    unfold ReplaceBundleReferences.url_step, getURLReplacement.
    by rewrite Hurl, Ht, Hi.
  - intros replacements n Hname. apply Hpass. intros acc.
    unfold ReplaceBundleReferences.url_step, getURLReplacement.
    by rewrite Hurl, Ht, Hi, Hname.
Qed.

(** X23. The inline pass throws when a dependency resolves to an inline
    bundle whose packaging fails, or which has no entry asset. *)
Theorem inline_pass_throws (bundle : Bundle) (contents : Text)
    (map : option SourceMap) (d : Dependency) (target : Bundle) :
  d ∈ dependencies bundle →
  getReferencedBundle d bundle = Some target →
  bundle_isInline target = true →
  (∃ e, getInlineBundleContents target = Rejected e)
  ∨ getEntryAssets target = [] →
  ∃ e, replaceInlineReferences bundle contents map = Rejected e.
Proof.
  intros Hd Ht Hi Hfail.
  unfold ReplaceBundleReferences.replaceInlineReferences,
    ReplaceBundleReferences.inline_replacements.
  destruct (for_of_rejects (inline_step bundle) (dependencies bundle) d [] Hd)
    as [e ->]; [|by eexists].
  intros acc. unfold ReplaceBundleReferences.inline_step.
  rewrite Ht, Hi. simpl.
  destruct (getInlineBundleContents target) as [blob|e] eqn:Eb; [|by eexists].
  destruct Hfail as [[e He]|Hempty]; [done|].
  rewrite Hempty. simpl. by eexists.
Qed.

End PassBehaviour.

Lemma url_pass_leaves_inline_targets_witness :
  let t := list_ascii_of_string in
  let d := ReplaceBundleReferences.mkDependency (t "dep1") true (t "./worker.js") in
  let target := ReplaceBundleReferences.mkBundle None true (t "/") [] [] in
  let bundle := ReplaceBundleReferences.mkBundle (Some (t "index.js")) false (t "/")
                  [ReplaceBundleReferences.dependency d] [] in
  ReplaceBundleReferences.replaceURLReferences (λ _ _, Some target)
    ReplaceBundleReferences.Text (λ s, s) (λ _ p, p) (λ u, u) (λ _ _, []) app
    bundle (t "new Worker('dep1')") (Some []) true
  = Resolved (t "new Worker('dep1')", Some []).
Proof.
  intros t d target bundle.
  apply (url_pass_leaves_inline_targets (λ _ _, Some target)).
  intros d' _. exists target. split; reflexivity.
Defined.

Lemma inline_pass_leaves_other_targets_witness :
  let t := list_ascii_of_string in
  let d := ReplaceBundleReferences.mkDependency (t "dep1") true (t "./worker.js") in
  let bundle := ReplaceBundleReferences.mkBundle (Some (t "index.js")) false (t "/")
                  [ReplaceBundleReferences.dependency d] [] in
  ReplaceBundleReferences.replaceInlineReferences (λ _ _, None)
    (λ dep _ c, ReplaceBundleReferences.mkReplacement
                  (ReplaceBundleReferences.dep_id dep) c)
    (λ _, Resolved (ReplaceBundleReferences.BlobString [])) (λ _, [])
    bundle (t "new Worker('dep1')") None
  = Resolved (t "new Worker('dep1')", None).
Proof.
  intros t d bundle.
  apply (inline_pass_leaves_other_targets (λ _ _, None)).
  intros d' target _ H. discriminate H.
Defined.

Lemma url_pass_absolute_needs_names_witness :
  let t := list_ascii_of_string in
  let d := ReplaceBundleReferences.mkDependency (t "dep1") true (t "./a.js") in
  let target := ReplaceBundleReferences.mkBundle None false (t "/") [] [] in
  let bundle := ReplaceBundleReferences.mkBundle (Some (t "index.js")) false (t "/")
                  [ReplaceBundleReferences.dependency d] [] in
  d ∈ ReplaceBundleReferences.urlDependencies bundle
  ∧ ∃ e, ReplaceBundleReferences.replaceURLReferences (λ _ _, Some target)
           ReplaceBundleReferences.Text (λ s, s) (λ _ p, p) (λ u, u) (λ _ _, []) app
           bundle (t "import('dep1')") None false
         = Rejected e.
Proof.
  intros t d target bundle.
  assert (d ∈ ReplaceBundleReferences.urlDependencies bundle) as Hd by (by left).
  split; [exact Hd|].
  exact (url_pass_absolute_needs_names (λ _ _, Some target)
           ReplaceBundleReferences.Text (λ s, s) (λ _ p, p) (λ u, u) (λ _ _, []) app
           bundle (t "import('dep1')") None d target Hd eq_refl eq_refl eq_refl).
Defined.

Lemma resolved_url_dependency_witness :
  let t := list_ascii_of_string in
  let d := ReplaceBundleReferences.mkDependency (t "PLACEHOLDER_1") true (t "./chunk") in
  let target := ReplaceBundleReferences.mkBundle (Some (t "chunk.js")) false
                  (t "https://cdn.example/") [] [] in
  let bundle := ReplaceBundleReferences.mkBundle (Some (t "index.js")) false (t "/")
                  [ReplaceBundleReferences.dependency d] [] in
  d ∈ ReplaceBundleReferences.urlDependencies bundle
  ∧ ∀ replacements,
      ReplaceBundleReferences.url_replacements (λ _ _, Some target)
        ReplaceBundleReferences.Text (λ s, s) (λ _ p, p) (λ u, u)
        (λ _ _, t "out/chunk.js") app bundle true = Resolved replacements →
      ReplaceBundleReferences.map_get replacements (t "PLACEHOLDER_1")
      = Some (ReplaceBundleReferences.mkReplacement (t "PLACEHOLDER_1")
                (t "out/chunk.js")).
Proof.
  intros t d target bundle.
  assert (d ∈ ReplaceBundleReferences.urlDependencies bundle) as Hd by (by left).
  split; [exact Hd|].
  refine (proj1 (resolved_url_dependency (λ _ _, Some target)
                   ReplaceBundleReferences.Text (λ s, s) (λ _ p, p) (λ u, u)
                   (λ _ _, t "out/chunk.js") app bundle d target Hd _
                   eq_refl eq_refl)).
  intros d' Hd' _. apply list_elem_of_singleton in Hd'. exact Hd'.
Defined.

Lemma inline_pass_throws_witness :
  let t := list_ascii_of_string in
  let d := ReplaceBundleReferences.mkDependency (t "dep2") false (t "./style.css") in
  let target := ReplaceBundleReferences.mkBundle None true (t "/") [] [] in
  let bundle := ReplaceBundleReferences.mkBundle (Some (t "index.html")) false (t "/")
                  [ReplaceBundleReferences.dependency d] [] in
  d ∈ ReplaceBundleReferences.dependencies bundle
  ∧ ∃ e, ReplaceBundleReferences.replaceInlineReferences (λ _ _, Some target)
           (λ dep _ c, ReplaceBundleReferences.mkReplacement
                         (ReplaceBundleReferences.dep_id dep) c)
           (λ _, Resolved (ReplaceBundleReferences.BlobString (t "body{}")))
           (λ _, []) bundle (t "<style>dep2</style>") None
         = Rejected e.
Proof.
  intros t d target bundle.
  assert (d ∈ ReplaceBundleReferences.dependencies bundle) as Hd by (by left).
  split; [exact Hd|].
  apply (inline_pass_throws (λ _ _, Some target) _ _ _ bundle _ None d target Hd
           eq_refl eq_refl).
  right. reflexivity.
Defined.

(** ** LMDBCache: the size of the chunks *)
Section LMDBCacheChunks.

Import LMDBCache.

Context (WRITE_LIMIT_CHUNK : nat) (utf8 : list ascii → Buffer).

Local Abbreviation setLargeBlob := (LMDBCache.setLargeBlob WRITE_LIMIT_CHUNK utf8).

Lemma ceil_div_lower (a b : nat) : 0 < b → 0 < a → (ceil_div a b - 1) * b < a.
Proof.
  intros Hb Ha. unfold ceil_div.
  pose proof (Nat.div_mod_eq a b) as Hdm.
  pose proof (Nat.mod_upper_bound a b ltac:(lia)) as Hm.
  destruct (Nat.eqb_spec (a mod b) 0) as [Hz|Hz]; [|nia].
  assert (0 < a / b) by nia. nia.
Qed.

(** X24. [setLargeBlob] of a buffer writes no file longer than
    [WRITE_LIMIT_CHUNK]: the file of every chunk but the last holds
    exactly [WRITE_LIMIT_CHUNK] bytes, the file of the last chunk the
    rest, at least one byte. *)
Theorem chunk_files_respect_the_limit (c : Cache) (key : string) (b : Buffer)
    (j : nat) :
  0 < WRITE_LIMIT_CHUNK →
  j < ceil_div (length b) WRITE_LIMIT_CHUNK →
  ∃ file,
    fs (setLargeBlob c key (Buf b)) !! getFilePath c key j = Some file
    ∧ 0 < length file ≤ WRITE_LIMIT_CHUNK
    ∧ (S j < ceil_div (length b) WRITE_LIMIT_CHUNK → length file = WRITE_LIMIT_CHUNK)
    ∧ (S j = ceil_div (length b) WRITE_LIMIT_CHUNK →
       length file = length b - j * WRITE_LIMIT_CHUNK).
Proof.
  intros HW Hj.
  rewrite setLargeBlob_lookup_chunk by done.
  eexists. split; [done|]. cbn. unfold slice.
  rewrite length_take, length_drop.
  replace ((j + 1) * WRITE_LIMIT_CHUNK - j * WRITE_LIMIT_CHUNK)
    with WRITE_LIMIT_CHUNK by lia.
  assert (0 < length b) as Hlen.
  { destruct b; [|simpl; lia]. simpl in Hj. unfold ceil_div in Hj.
    rewrite Nat.Div0.div_0_l, Nat.Div0.mod_0_l in Hj. simpl in Hj. lia. }
  pose proof (ceil_div_lower (length b) WRITE_LIMIT_CHUNK HW Hlen) as Hlow.
  pose proof (ceil_div_upper (length b) WRITE_LIMIT_CHUNK HW) as Hup.
  split; [nia|]. split; intros Hlast; nia.
Qed.

End LMDBCacheChunks.

Lemma chunk_files_respect_the_limit_witness :
  let c := LMDBCache.mkCache "cache" ∅ ∅ in
  let b := [Byte.x61; Byte.x62; Byte.x63; Byte.x64; Byte.x65] in
  1 < LMDBCache.ceil_div (length b) 2
  ∧ ∃ file,
      LMDBCache.fs (LMDBCache.setLargeBlob 2 (λ _, []) c "k" (LMDBCache.Buf b))
        !! LMDBCache.getFilePath c "k" 1 = Some file
      ∧ 0 < length file ≤ 2.
Proof.
  intros c b.
  assert (1 < LMDBCache.ceil_div (length b) 2) as Hj by (vm_compute; lia).
  split; [exact Hj|].
  destruct (chunk_files_respect_the_limit 2 (λ _, []) c "k" b 1 ltac:(lia) Hj)
    as (file & Hfile & Hlen & _).
  exists file. split; [exact Hfile|exact Hlen].
Defined.

(** ** regexReplaceWithLocations: the text it returns *)
Section ReplaceText.

Import ReplaceBundleReferences.

Lemma regexReplaceWithLocations_result (input : Text) (replacementMap : JsMap Text) :
  fst (regexReplaceWithLocations input replacementMap)
  = snd (scan input replacementMap).
Proof. unfold regexReplaceWithLocations. by destruct (scan input replacementMap). Qed.

(** What the callback returns depends on the match alone. *)
Lemma replace_callback_text (replacementMap : JsMap Text) (st st' : ScanState)
    (m : Text) (index index' : Z) :
  snd (replace_callback replacementMap st m index)
  = snd (replace_callback replacementMap st' m index').
Proof.
  unfold replace_callback. destruct (decide (m = newline)); [done|].
  destruct (map_get replacementMap m); [|done]. by case_decide.
Qed.

Lemma replace_callback_replacement (replacementMap : JsMap Text) (st : ScanState)
    (m r : Text) (index : Z) :
  m ≠ newline → map_get replacementMap m = Some r →
  snd (replace_callback replacementMap st m index) = r.
Proof.
  intros Hnl Hget. unfold replace_callback.
  rewrite decide_False, Hget by done. by case_decide.
Qed.

(** The text that the scan appends does not depend on the variables of
    the callback, on the index, or on the text produced before. *)
Lemma replace_from_text (replacementMap : JsMap Text) (alternatives : list Text) :
  ∀ s index index' skip st st' (out : Text),
    snd (replace_from alternatives (replace_callback replacementMap)
           s index skip st out)
    = out ++ snd (replace_from alternatives (replace_callback replacementMap)
                    s index' skip st' []).
Proof.
  induction s as [|c s IH]; intros index index' skip st st' out.
  - destruct skip as [|skip]; cbn [replace_from]; [|by rewrite app_nil_r].
    destruct (regex_exec alternatives []) as [m|]; [|by rewrite app_nil_r].
    pose proof (replace_callback_text replacementMap st st' m
                  (Z.of_nat index) (Z.of_nat index')) as Htext.
    destruct (replace_callback replacementMap st m (Z.of_nat index)) as [st1 r1].
    destruct (replace_callback replacementMap st' m (Z.of_nat index')) as [st2 r2].
    cbn [snd] in *. by subst.
  - destruct skip as [|skip]; cbn [replace_from]; [|by apply IH].
    destruct (regex_exec alternatives (c :: s)) as [m|].
    + pose proof (replace_callback_text replacementMap st st' m
                    (Z.of_nat index) (Z.of_nat index')) as Htext.
      destruct (replace_callback replacementMap st m (Z.of_nat index)) as [st1 r1].
      destruct (replace_callback replacementMap st' m (Z.of_nat index')) as [st2 r2].
      cbn [snd] in Htext. subst r2.
      destruct m as [|a m'].
      * rewrite (IH (S index) (S index') 0 st1 st2 (out ++ r1 ++ [c])).
        rewrite (IH (S index') (S index') 0 st2 st2 ([] ++ r1 ++ [c])).
        by rewrite !app_nil_l, <- !app_assoc.
      * rewrite (IH (S index) (S index') (length m') st1 st2 (out ++ r1)).
        rewrite (IH (S index') (S index') (length m') st2 st2 ([] ++ r1)).
        by rewrite !app_nil_l, <- !app_assoc.
    + rewrite (IH (S index) (S index') 0 st st' (out ++ [c])).
      rewrite (IH (S index') (S index') 0 st' st' ([] ++ [c])).
      by rewrite !app_nil_l, <- !app_assoc.
Qed.

(** A prefix in which no key begins passes through, newlines included. *)
Lemma replace_from_prefix (replacementMap : JsMap Text) (keys : list Text) :
  ∀ pre rest index st (out : Text),
    (∀ k i, k ∈ keys → i < length pre →
            starts_with k (drop i (pre ++ rest)) = false) →
    ∃ st',
      replace_from (newline :: keys) (replace_callback replacementMap)
        (pre ++ rest) index 0 st out
      = replace_from (newline :: keys) (replace_callback replacementMap)
          rest (index + length pre) 0 st' (out ++ pre).
Proof.
  induction pre as [|c pre IH]; intros rest index st out Hno.
  - exists st. simpl. by rewrite Nat.add_0_r, app_nil_r.
  - assert (∀ k i, k ∈ keys → i < length pre →
                   starts_with k (drop i (pre ++ rest)) = false) as Hno'.
    { intros k i Hk Hi. apply (Hno k (S i) Hk). simpl. lia. }
    assert (∀ k, k ∈ keys → starts_with k (c :: pre ++ rest) = false) as Hno0.
    { intros k Hk. apply (Hno k 0 Hk). simpl. lia. }
    rewrite <- app_comm_cons. cbn [replace_from length].
    replace (index + S (length pre)) with (S index + length pre) by lia.
    unfold regex_exec. cbn [List.find].
    destruct (starts_with newline (c :: pre ++ rest)) eqn:Enl.
    + apply starts_with_newline in Enl.
      rewrite replace_callback_newline.
      change newline with ["010"%char] at 1. cbv iota beta. cbn [length].
      destruct (IH rest (S index)
                  (mkScanState (line st + 1) (offset st)
                     (Z.of_nat index + offset st + 1) (offsets st))
                  (out ++ newline) Hno') as (st' & Hrun).
      exists st'. rewrite Hrun, <- Enl, <- app_assoc. done.
    + rewrite find_all_false by done.
      destruct (IH rest (S index) st (out ++ [c]) Hno') as (st' & Hrun).
      exists st'. rewrite Hrun, <- app_assoc. done.
Qed.

Lemma starts_with_app (k s : Text) : starts_with k (k ++ s) = true.
Proof. induction k as [|a k IH]; simpl; [done|]. by rewrite decide_True. Qed.

(** Two keys of one length that match at one position are one key. *)
Lemma starts_with_same (k1 k2 s : Text) :
  starts_with k1 s = true → starts_with k2 s = true →
  length k1 = length k2 → k1 = k2.
Proof.
  revert k2 s. induction k1 as [|a k1 IH]; intros [|b k2] [|c s]; simpl;
    try done.
  destruct (decide (a = c)) as [->|]; [|done].
  destruct (decide (b = c)) as [->|]; [|done].
  intros H1 H2 Hlen. f_equal. apply (IH k2 s); [done|done|lia].
Qed.

(** At a position that is not a newline, the pattern matches the longest
    key that matches there. *)
Lemma regex_exec_longest (keys : list Text) (k s : Text) :
  k ∈ keys →
  starts_with k s = true →
  starts_with newline s = false →
  (∀ k', k' ∈ keys → starts_with k' s = true → length k' ≤ length k) →
  regex_exec (newline :: sort_by_length keys) s = Some k.
Proof.
  intros Hin Hk Hnl Hmax. unfold regex_exec. cbn [List.find]. rewrite Hnl.
  destruct (find_is_Some (λ k0, starts_with k0 s) (sort_by_length keys) k)
    as [k0 Hk0]; [by apply sort_by_length_elem|done|].
  rewrite Hk0. f_equal.
  destruct (find_sorted_longest _ _ _ (sort_by_length_sorted _) Hk0)
    as (Hs & Hin0 & Hmax0).
  rewrite sort_by_length_elem in Hin0.
  apply (starts_with_same k0 k s Hs Hk).
  apply Nat.le_antisymm; [by apply Hmax|].
  apply Hmax0; [by apply sort_by_length_elem|done].
Qed.

(** The code units that a match covers are passed over, and the scan goes
    on behind them. *)
Lemma replace_from_skip_app {St : Type} (alternatives : list Text)
    (callback : St → Text → Z → St * Text) :
  ∀ s1 s2 index st out,
    replace_from alternatives callback (s1 ++ s2) index (length s1) st out
    = replace_from alternatives callback s2 (index + length s1) 0 st out.
Proof.
  induction s1 as [|c s1 IH]; intros s2 index st out.
  - simpl. by rewrite Nat.add_0_r.
  - rewrite <- app_comm_cons. cbn [length replace_from]. rewrite IH.
    by replace (index + S (length s1)) with (S index + length s1) by lia.
Qed.

(** A key that the pattern matches is replaced and the scan goes on behind
    it. *)
Lemma replace_from_match (replacementMap : JsMap Text) (alternatives : list Text)
    (k r post : Text) (index : nat) (st : ScanState) (out : Text) :
  regex_exec alternatives (k ++ post) = Some k →
  k ≠ [] → k ≠ newline →
  map_get replacementMap k = Some r →
  ∃ st',
    replace_from alternatives (replace_callback replacementMap)
      (k ++ post) index 0 st out
    = replace_from alternatives (replace_callback replacementMap)
        post (index + length k) 0 st' (out ++ r).
Proof.
  intros Hexec Hne Hnl Hget. destruct k as [|c k']; [done|].
  rewrite <- app_comm_cons in *. cbn [replace_from]. rewrite Hexec.
  pose proof (replace_callback_replacement replacementMap st (c :: k') r
                (Z.of_nat index) Hnl Hget) as Hr.
  destruct (replace_callback replacementMap st (c :: k') (Z.of_nat index))
    as [st1 r1].
  cbn [snd] in Hr. subst r1. exists st1.
  rewrite replace_from_skip_app. cbn [length].
  by replace (index + S (length k')) with (S index + length k') by lia.
Qed.

(** A text whose prefix holds no key: the prefix is kept and the rest is
    rewritten as it would be alone. *)
Lemma regexReplaceWithLocations_prefix (replacementMap : JsMap Text)
    (pre post : Text) :
  (∀ k i, k ∈ map_keys replacementMap → i < length pre →
          starts_with k (drop i (pre ++ post)) = false) →
  fst (regexReplaceWithLocations (pre ++ post) replacementMap)
  = pre ++ fst (regexReplaceWithLocations post replacementMap).
Proof.
  intros Hno. rewrite !regexReplaceWithLocations_result. unfold scan.
  destruct (replace_from_prefix replacementMap
              (sort_by_length (map_keys replacementMap)) pre post 0
              initial_state []) as (st' & ->).
  { intros k i Hk. apply Hno. by apply sort_by_length_elem. }
  apply replace_from_text.
Qed.

(** A text in which the first key to begin is [k], the longest key that
    matches there: [k] is replaced by its replacement and the rest is
    rewritten as it would be alone. *)
Lemma regexReplaceWithLocations_placeholder (replacementMap : JsMap Text)
    (pre k r post : Text) :
  map_get replacementMap k = Some r →
  k ≠ [] →
  starts_with newline k = false →
  (∀ k' i, k' ∈ map_keys replacementMap → i < length pre →
           starts_with k' (drop i (pre ++ k ++ post)) = false) →
  (∀ k', k' ∈ map_keys replacementMap → starts_with k' (k ++ post) = true →
         length k' ≤ length k) →
  fst (regexReplaceWithLocations (pre ++ k ++ post) replacementMap)
  = pre ++ r ++ fst (regexReplaceWithLocations post replacementMap).
Proof.
  intros Hget Hne Hnl Hno Hmax.
  rewrite !regexReplaceWithLocations_result. unfold scan.
  set (keys := sort_by_length (map_keys replacementMap)).
  destruct (replace_from_prefix replacementMap keys pre (k ++ post) 0
              initial_state []) as (st1 & ->).
  { intros k' i Hk'. apply Hno. by apply sort_by_length_elem. }
  assert (regex_exec (newline :: keys) (k ++ post) = Some k) as Hexec.
  { apply regex_exec_longest; [by eapply map_get_Some_key| |
      |done].
    - apply starts_with_app.
    - destruct k as [|c k']; [done|]. exact Hnl. }
  destruct (replace_from_match replacementMap (newline :: keys) k r post
              (0 + length pre) st1 ([] ++ pre) Hexec Hne) as (st2 & ->);
    [|done|].
  { intros ->. by rewrite starts_with_refl in Hnl. }
  rewrite (replace_from_text replacementMap (newline :: keys) post
             _ 0 0 st2 initial_state).
  by rewrite app_nil_l, <- app_assoc.
Qed.

(** C3. The keys are sorted by descending length before the pattern is
    built, and the sort only reorders them, so the longest key that
    matches at a position is the one that is replaced there. For keys that are literal tokens, free of pattern
    syntax characters: in a text [pre ++ k ++ post] where no key begins in
    [pre], [k] is a key that is not empty and does not begin with a
    newline, and no longer key matches where [k] does, the result of
    regexReplaceWithLocations is [pre], the replacement of [k], and then
    the result for [post]; a shorter key that is a prefix of [k] is not
    applied. With "abc" -> "X" and "abcdef" -> "Y", in either insertion
    order, the text "abcdef" becomes "Y". *)
Theorem longest_placeholder_wins (replacementMap : JsMap Text)
    (pre k r post : Text) :
  Forall literal_key (map_keys replacementMap) →
  map_get replacementMap k = Some r →
  k ≠ [] →
  starts_with newline k = false →
  (∀ k' i, k' ∈ map_keys replacementMap → i < length pre →
           starts_with k' (drop i (pre ++ k ++ post)) = false) →
  (∀ k', k' ∈ map_keys replacementMap → starts_with k' (k ++ post) = true →
         length k' ≤ length k) →
  StronglySorted longer_first (sort_by_length (map_keys replacementMap))
  ∧ (∀ k', k' ∈ sort_by_length (map_keys replacementMap)
           ↔ k' ∈ map_keys replacementMap)
  ∧ fst (regexReplaceWithLocations (pre ++ k ++ post) replacementMap)
    = pre ++ r ++ fst (regexReplaceWithLocations post replacementMap)
  ∧ (let abc := list_ascii_of_string "abc" in
     let abcdef := list_ascii_of_string "abcdef" in
     let X := list_ascii_of_string "X" in
     let Y := list_ascii_of_string "Y" in
     fst (regexReplaceWithLocations abcdef [(abc, X); (abcdef, Y)]) = Y
     ∧ fst (regexReplaceWithLocations abcdef [(abcdef, Y); (abc, X)]) = Y).
Proof.
  intros _ Hget Hne Hnl Hno Hmax.
  split; [apply sort_by_length_sorted|].
  split; [intros k'; apply sort_by_length_elem|].
  split; [by apply regexReplaceWithLocations_placeholder|].
  by vm_compute.
Qed.

End ReplaceText.

Lemma longest_placeholder_wins_witness :
  let t := list_ascii_of_string in
  let replacementMap := [(t "abc", t "X"); (t "abcdef", t "Y")] in
  Forall ReplaceBundleReferences.literal_key
    (ReplaceBundleReferences.map_keys replacementMap)
  ∧ ReplaceBundleReferences.map_get replacementMap (t "abcdef") = Some (t "Y")
  ∧ fst (ReplaceBundleReferences.regexReplaceWithLocations
           (t "1 " ++ t "abcdef" ++ t " abc") replacementMap)
    = t "1 Y X".
Proof.
  intros t replacementMap.
  assert (Forall ReplaceBundleReferences.literal_key
            (ReplaceBundleReferences.map_keys replacementMap)) as Hliteral
    by (apply (bool_decide_unpack _); vm_compute; exact I).
  split; [exact Hliteral|]. split; [reflexivity|].
  destruct (longest_placeholder_wins replacementMap (t "1 ") (t "abcdef")
              (t "Y") (t " abc") Hliteral) as (_ & _ & Htext & _).
  - reflexivity.
  - discriminate.
  - reflexivity.
  - intros k' i Hk' Hi.
    apply elem_of_cons in Hk' as [->|Hk'];
      [|apply list_elem_of_singleton in Hk' as ->];
      (destruct i as [|[|i]]; [reflexivity|reflexivity|simpl in Hi; lia]).
  - intros k' Hk' _.
    apply elem_of_cons in Hk' as [->|Hk'];
      [|apply list_elem_of_singleton in Hk' as ->]; simpl; lia.
  - etrans; [exact Htext|]. reflexivity.
Defined.

(** ** The two passes: the text they return *)
Section PassText.

Import ReplaceBundleReferences.

Context (getReferencedBundle : Dependency → Bundle → option Bundle)
        (Url : Type) (URL_parse : Text → Url) (set_pathname : Url → Text → Url)
        (URL_format : Url → Text) (relativeBundlePath : Bundle → Bundle → Text)
        (urlJoin : Text → Text → Text)
        (getInlineReplacement : Dependency → option Text → Text → Replacement)
        (getInlineBundleContents : Bundle → Outcome Blob)
        (buffer_toString : Buffer → Text).

Local Abbreviation url_step :=
  (ReplaceBundleReferences.url_step getReferencedBundle Url URL_parse
     set_pathname URL_format relativeBundlePath urlJoin).
Local Abbreviation url_replacements :=
  (ReplaceBundleReferences.url_replacements getReferencedBundle Url URL_parse
     set_pathname URL_format relativeBundlePath urlJoin).
Local Abbreviation replaceURLReferences :=
  (ReplaceBundleReferences.replaceURLReferences getReferencedBundle Url URL_parse
     set_pathname URL_format relativeBundlePath urlJoin).
Local Abbreviation inline_step :=
  (ReplaceBundleReferences.inline_step getReferencedBundle getInlineReplacement
     getInlineBundleContents buffer_toString).
Local Abbreviation inline_replacements :=
  (ReplaceBundleReferences.inline_replacements getReferencedBundle
     getInlineReplacement getInlineBundleContents buffer_toString).
Local Abbreviation replaceInlineReferences :=
  (ReplaceBundleReferences.replaceInlineReferences getReferencedBundle
     getInlineReplacement getInlineBundleContents buffer_toString).
Local Abbreviation blob_toString :=
  (ReplaceBundleReferences.blob_toString buffer_toString).

(** The map from [from] to [to] that [performReplacement] builds. *)
Local Abbreviation from_to replacements :=
  (new_Map ((λ val, (from val, to val)) <$> map_values replacements)).

(** *** [Map] *)

Lemma map_get_Some_elem {V} (m : JsMap V) (k : Text) (v : V) :
  map_get m k = Some v → (k, v) ∈ m.
Proof.
  induction m as [|[k0 v0] m IH]; simpl; [done|].
  destruct (decide (k0 = k)) as [->|].
  - intros [= ->]. by left.
  - intros H. right. by apply IH.
Qed.

Lemma new_Map_keys {V} (entries : list (Text * V)) (k : Text) :
  k ∈ map_keys (new_Map entries) ↔ k ∈ entries.*1.
Proof.
  induction entries as [|[k0 v0] es IH] using rev_ind; [done|].
  rewrite new_Map_snoc, map_set_keys_elem, IH, fmap_app, elem_of_app. simpl.
  rewrite list_elem_of_singleton. tauto.
Qed.

(** [new Map(entries)] when the entries of key [k] agree on its value. *)
Lemma new_Map_get_agree {V} (entries : list (Text * V)) (k : Text) (x : V) :
  (k, x) ∈ entries →
  (∀ y, (k, y) ∈ entries → y = x) →
  map_get (new_Map entries) k = Some x.
Proof.
  induction entries as [|[k0 v0] es IH] using rev_ind; intros Hin Hagree.
  - by apply elem_of_nil in Hin.
  - rewrite new_Map_snoc. destruct (decide (k0 = k)) as [->|Hne].
    + rewrite map_get_set_eq. f_equal. apply Hagree.
      apply elem_of_app. right. by left.
    + rewrite map_get_set_ne by done. apply IH.
      * apply elem_of_app in Hin as [Hin|Hin]; [done|].
        apply list_elem_of_singleton in Hin. congruence.
      * intros y Hy. apply Hagree. apply elem_of_app. by left.
Qed.

(** *** [performReplacement] *)

(** Every key of the pattern is the [from] of a replacement. *)
Lemma from_to_keys (replacements : JsMap Replacement) (k : Text) :
  k ∈ map_keys (from_to replacements) →
  ∃ v, v ∈ map_values replacements ∧ from v = k.
Proof.
  rewrite new_Map_keys. intros H.
  apply list_elem_of_fmap in H as ([k0 t0] & -> & H).
  apply list_elem_of_fmap in H as (v & [= -> ->] & Hv). by exists v.
Qed.

Lemma performReplacement_contents (replacements : JsMap Replacement)
    (contents : Text) (map : option SourceMap) :
  fst (performReplacement replacements contents map)
  = fst (regexReplaceWithLocations contents (from_to replacements)).
Proof.
  unfold performReplacement.
  by destruct (regexReplaceWithLocations contents (from_to replacements)).
Qed.

Lemma performReplacement_returns (replacements : JsMap Replacement)
    (contents result : Text) (map : option SourceMap) :
  fst (regexReplaceWithLocations contents (from_to replacements)) = result →
  ∃ map', performReplacement replacements contents map = (result, map').
Proof.
  intros <-. unfold performReplacement.
  destruct (regexReplaceWithLocations contents (from_to replacements)). eauto.
Qed.

(** *** The URL pass *)

(** Every replacement that the URL pass sets is keyed by the id of a URL
    dependency that does not resolve to an inline bundle. *)
Lemma url_step_origin (bundle : Bundle) (relative : bool)
    (acc acc' : JsMap Replacement) (d : Dependency) :
  d ∈ urlDependencies bundle →
  url_step bundle relative acc d = Resolved acc' →
  Forall (λ kr, ∃ d', d' ∈ urlDependencies bundle ∧ dep_id d' = kr.1
                      ∧ ∀ t, getReferencedBundle d' bundle = Some t →
                             bundle_isInline t = false) acc →
  Forall (λ kr, ∃ d', d' ∈ urlDependencies bundle ∧ dep_id d' = kr.1
                      ∧ ∀ t, getReferencedBundle d' bundle = Some t →
                             bundle_isInline t = false) acc'.
Proof.
  unfold ReplaceBundleReferences.url_step. intros Hd H Hall.
  destruct (negb (isURL d)); [by injection H as <-|].
  destruct (getReferencedBundle d bundle) as [resolved|] eqn:Et.
  - destruct (bundle_isInline resolved) eqn:Ei; [by injection H as <-|].
    destruct (getURLReplacement _ _ _ _ _ _ _ _ _ _) as [r|e]; [|done].
    injection H as <-. apply map_set_Forall; [done|]. simpl.
    exists d. split; [done|]. split; [done|].
    intros t Ht. rewrite Et in Ht. by injection Ht as <-.
  - injection H as <-. apply map_set_Forall; [done|]. simpl.
    exists d. split; [done|]. split; [done|].
    intros t Ht. by rewrite Et in Ht.
Qed.

Lemma url_replacements_entries (bundle : Bundle) (relative : bool)
    (replacements : JsMap Replacement) :
  url_replacements bundle relative = Resolved replacements →
  (NoDup (map_keys replacements) ∧ Forall (λ kr, from kr.2 = kr.1) replacements)
  ∧ Forall (λ kr, ∃ d', d' ∈ urlDependencies bundle ∧ dep_id d' = kr.1
                        ∧ ∀ t, getReferencedBundle d' bundle = Some t →
                               bundle_isInline t = false) replacements.
Proof.
  intros Hrun. split.
  - apply (for_of_invariant (url_step bundle relative)
             (λ acc, NoDup (map_keys acc) ∧ Forall (λ kr, from kr.2 = kr.1) acc)
             (urlDependencies bundle) [] replacements); [| |done].
    + intros d' acc acc' _ Hacc Hstep. by eapply url_step_keyed.
    + split; [apply NoDup_nil_2|constructor].
  - apply (for_of_invariant (url_step bundle relative) _
             (urlDependencies bundle) [] replacements); [| |done].
    + intros d' acc acc' Hd' Hacc Hstep. by eapply url_step_origin.
    + constructor.
Qed.

(** The keys of the pattern of the URL pass. *)
Lemma url_pattern_keys (bundle : Bundle) (relative : bool)
    (replacements : JsMap Replacement) (k : Text) :
  url_replacements bundle relative = Resolved replacements →
  k ∈ map_keys (from_to replacements) →
  ∃ d', d' ∈ urlDependencies bundle ∧ dep_id d' = k
        ∧ ∀ t, getReferencedBundle d' bundle = Some t → bundle_isInline t = false.
Proof.
  intros Hrun Hk. apply from_to_keys in Hk as (v & Hv & <-).
  apply list_elem_of_fmap in Hv as ([k0 v0] & -> & Hkr).
  destruct (url_replacements_entries bundle relative replacements Hrun)
    as [[_ Hkeyed] Horigin].
  rewrite Forall_forall in Hkeyed. rewrite Forall_forall in Horigin.
  specialize (Hkeyed _ Hkr). specialize (Horigin _ Hkr). simpl in *.
  by rewrite Hkeyed.
Qed.

(** C7. A URL dependency of the bundle for which the bundle graph has no
    target, its id shared with no other URL dependency: the iteration on
    it sets [{from: id, to: moduleSpecifier}], the pass registers that
    replacement for it, and replaceURLReferences returns a text in which
    its placeholder is replaced by the module specifier as it is. For the
    text, the ids of the URL dependencies are literal tokens, free of
    pattern syntax characters; the contents are [pre], the placeholder
    and [post], where no id of a URL dependency begins in [pre], the
    placeholder is not empty and does not begin with a newline, and no
    longer id matches where the placeholder does; [post] is rewritten as
    it would be alone. *)
Theorem unresolved_url_dependency (bundle : Bundle) (relative : bool)
    (d : Dependency) :
  d ∈ urlDependencies bundle →
  (∀ d', d' ∈ urlDependencies bundle → dep_id d' = dep_id d → d' = d) →
  getReferencedBundle d bundle = None →
  (∀ acc, url_step bundle relative acc d
          = Resolved (map_set acc (dep_id d)
                        (mkReplacement (dep_id d) (moduleSpecifier d))))
  ∧ (∀ replacements,
       url_replacements bundle relative = Resolved replacements →
       map_get replacements (dep_id d)
       = Some (mkReplacement (dep_id d) (moduleSpecifier d))
       ∧ ∀ pre post map,
           Forall (λ d', literal_key (dep_id d')) (urlDependencies bundle) →
           dep_id d ≠ [] →
           starts_with newline (dep_id d) = false →
           (∀ d' i, d' ∈ urlDependencies bundle → i < length pre →
                    starts_with (dep_id d') (drop i (pre ++ dep_id d ++ post))
                    = false) →
           (∀ d', d' ∈ urlDependencies bundle →
                  starts_with (dep_id d') (dep_id d ++ post) = true →
                  length (dep_id d') ≤ length (dep_id d)) →
           ∃ map',
             replaceURLReferences bundle (pre ++ dep_id d ++ post) map relative
             = Resolved (pre ++ moduleSpecifier d
                             ++ fst (performReplacement replacements post map),
                         map')).
Proof.
  intros Hd Huniq Hnone.
  assert (∀ acc, url_step bundle relative acc d
                 = Resolved (map_set acc (dep_id d)
                               (mkReplacement (dep_id d) (moduleSpecifier d))))
    as Hstep.
  { intros acc. unfold ReplaceBundleReferences.url_step.
    destruct (urlDependencies_elem bundle d Hd) as [_ ->]. simpl.
    by rewrite Hnone. }
  split; [done|]. intros replacements Hrun.
  assert (map_get replacements (dep_id d)
          = Some (mkReplacement (dep_id d) (moduleSpecifier d))) as Hget.
  { apply (for_of_established (url_step bundle relative)
             (λ acc, map_get acc (dep_id d)
                     = Some (mkReplacement (dep_id d) (moduleSpecifier d)))
             (urlDependencies bundle) d [] replacements); [done| | |done].
    - intros acc acc'. rewrite Hstep. intros [= <-]. apply map_get_set_eq.
    - intros d' acc acc' Hd' Hacc Hstep'.
      destruct (decide (dep_id d' = dep_id d)) as [Heq|Hneq].
      + rewrite (Huniq d' Hd' Heq), Hstep in Hstep'.
        injection Hstep' as <-. apply map_get_set_eq.
      + by rewrite (url_step_frame _ _ _ _ _ _ _ _ _ _ _ _ _ Hstep' Hneq). }
  split; [done|]. intros pre post map _ Hne Hnl Hno Hmax.
  destruct (url_replacements_entries bundle relative replacements Hrun)
    as [[Hnd Hkeyed] _].
  destruct (performReplacement_returns replacements (pre ++ dep_id d ++ post)
              (pre ++ moduleSpecifier d
                   ++ fst (performReplacement replacements post map)) map)
    as [map' Hresult].
  - rewrite performReplacement_contents.
    apply regexReplaceWithLocations_placeholder; [|done|done| |].
    + by rewrite new_Map_from_to, Hget.
    + intros k i Hk Hi.
      destruct (url_pattern_keys bundle relative replacements k Hrun Hk)
        as (d' & Hd' & <- & _).
      by apply Hno.
    + intros k Hk Hmatch.
      destruct (url_pattern_keys bundle relative replacements k Hrun Hk)
        as (d' & Hd' & <- & _).
      by apply Hmax.
  - exists map'. unfold ReplaceBundleReferences.replaceURLReferences.
    by rewrite Hrun, Hresult.
Qed.

(** *** The inline pass *)

(** Every replacement that the inline pass sets is the one that the
    iteration on a dependency of the bundle sets in an empty map. *)
Lemma inline_step_origin (bundle : Bundle) (acc acc' : JsMap Replacement)
    (d : Dependency) :
  d ∈ dependencies bundle →
  inline_step bundle acc d = Resolved acc' →
  Forall (λ kr, ∃ d', d' ∈ dependencies bundle
                      ∧ inline_step bundle [] d' = Resolved [(dep_id d', kr.2)]) acc →
  Forall (λ kr, ∃ d', d' ∈ dependencies bundle
                      ∧ inline_step bundle [] d' = Resolved [(dep_id d', kr.2)]) acc'.
Proof.
  intros Hd H Hall.
  assert (acc' = acc
          ∨ ∃ v, inline_step bundle [] d = Resolved [(dep_id d, v)]
                 ∧ acc' = map_set acc (dep_id d) v) as [->|(v & Hv & ->)].
  { unfold ReplaceBundleReferences.inline_step in *.
    destruct (getReferencedBundle d bundle) as [entryBundle|];
      [|left; by injection H].
    destruct (negb (bundle_isInline entryBundle)); [left; by injection H|].
    destruct (getInlineBundleContents entryBundle) as [blob|e]; [|done].
    destruct (nullthrows (head (getEntryAssets entryBundle))) as [entry|e];
      [|done].
    case_bool_decide; injection H as <-; [|by left].
    right. eexists. split; reflexivity. }
  - done.
  - apply map_set_Forall; [done|]. simpl. eauto.
Qed.

Lemma inline_replacements_entries (bundle : Bundle)
    (replacements : JsMap Replacement) :
  inline_replacements bundle = Resolved replacements →
  Forall (λ kr, ∃ d', d' ∈ dependencies bundle
                      ∧ inline_step bundle [] d' = Resolved [(dep_id d', kr.2)])
    replacements.
Proof.
  intros Hrun.
  apply (for_of_invariant (inline_step bundle) _
           (dependencies bundle) [] replacements); [| |done].
  - intros d' acc acc' Hd' Hacc Hstep. by eapply inline_step_origin.
  - constructor.
Qed.

(** C6. A dependency whose target is an inline bundle, its id shared with
    no other dependency of the bundle. For the texts, the ids and tokens
    are literal tokens, free of pattern syntax characters, and [post] is
    rewritten as it would be alone.

    The iteration of the URL pass on it sets nothing, the URL pass
    registers no replacement for it, and replaceURLReferences returns a
    text in which its placeholder stands as it was: the contents are
    [pre], the placeholder and [post], where the id of no other URL
    dependency begins in [pre] or in the placeholder.

    When the inline type of the target's first entry asset is unset or
    "string", the inline pass registers what [getInlineReplacement]
    returns for the dependency, the inline type and the packaged contents,
    and replaceInlineReferences returns a text in which the [from] of that
    replacement is replaced by its [to]: the contents are [pre], the
    token and [post], where no registered token begins in [pre], the
    token is not empty and does not begin with a newline, no longer
    registered token matches where it does, and the replacements
    registered for the token agree.

    When the inline type is anything else, the inline pass registers
    nothing for it, and replaceInlineReferences returns a text in which a
    placeholder stands as it was: the contents are [pre], the placeholder
    and [post], where no token that another dependency registers begins
    in [pre] or in the placeholder. *)
Theorem inline_bundle_dependency (bundle : Bundle) (relative : bool)
    (d : Dependency) (target : Bundle) (blob : Blob) (entry : EntryAsset) :
  d ∈ dependencies bundle →
  (∀ d', d' ∈ dependencies bundle → dep_id d' = dep_id d → d' = d) →
  getReferencedBundle d bundle = Some target →
  bundle_isInline target = true →
  getInlineBundleContents target = Resolved blob →
  head (getEntryAssets target) = Some entry →
  let accepted :=
    inlineType entry = None
    ∨ inlineType entry = Some (list_ascii_of_string "string") in
  let replacement :=
    getInlineReplacement d (inlineType entry) (blob_toString blob) in
  (∀ acc, url_step bundle relative acc d = Resolved acc)
  ∧ (∀ replacements,
       url_replacements bundle relative = Resolved replacements →
       map_get replacements (dep_id d) = None
       ∧ ∀ pre post map,
           Forall (λ d', literal_key (dep_id d')) (urlDependencies bundle) →
           (∀ d' i, d' ∈ urlDependencies bundle → d' ≠ d →
                    i < length (pre ++ dep_id d) →
                    starts_with (dep_id d') (drop i (pre ++ dep_id d ++ post))
                    = false) →
           ∃ map',
             replaceURLReferences bundle (pre ++ dep_id d ++ post) map relative
             = Resolved (pre ++ dep_id d
                             ++ fst (performReplacement replacements post map),
                         map'))
  ∧ (∀ replacements,
       inline_replacements bundle = Resolved replacements →
       (accepted →
        map_get replacements (dep_id d) = Some replacement
        ∧ ∀ pre post map,
            Forall (λ v, literal_key (from v)) (map_values replacements) →
            from replacement ≠ [] →
            starts_with newline (from replacement) = false →
            (∀ v, v ∈ map_values replacements → from v = from replacement →
                  to v = to replacement) →
            (∀ v i, v ∈ map_values replacements → i < length pre →
                    starts_with (from v)
                      (drop i (pre ++ from replacement ++ post)) = false) →
            (∀ v, v ∈ map_values replacements →
                  starts_with (from v) (from replacement ++ post) = true →
                  length (from v) ≤ length (from replacement)) →
            ∃ map',
              replaceInlineReferences bundle (pre ++ from replacement ++ post)
                map
              = Resolved (pre ++ to replacement
                              ++ fst (performReplacement replacements post map),
                          map'))
       ∧ (¬ accepted →
          map_get replacements (dep_id d) = None
          ∧ ∀ placeholder pre post map,
              (∀ d' v, d' ∈ dependencies bundle → d' ≠ d →
                       inline_step bundle [] d' = Resolved [(dep_id d', v)] →
                       literal_key (from v)
                       ∧ ∀ i, i < length (pre ++ placeholder) →
                              starts_with (from v)
                                (drop i (pre ++ placeholder ++ post)) = false) →
              ∃ map',
                replaceInlineReferences bundle (pre ++ placeholder ++ post) map
                = Resolved (pre ++ placeholder
                                ++ fst (performReplacement replacements post map),
                            map'))).
Proof.
  intros Hin Huniq Htarget Hinline Hblob Hentry accepted replacement.
  assert (∀ acc, url_step bundle relative acc d = Resolved acc) as Hurl.
  { intros acc. unfold ReplaceBundleReferences.url_step.
    destruct (negb (isURL d)); [done|]. by rewrite Htarget, Hinline. }
  assert (∀ acc, inline_step bundle acc d
                 = Resolved (if bool_decide accepted
                             then map_set acc (dep_id d) replacement
                             else acc)) as Hstep.
  { intros acc. unfold ReplaceBundleReferences.inline_step.
    rewrite Htarget, Hinline, Hblob, Hentry. cbn [negb nullthrows].
    unfold accepted, replacement. by case_bool_decide. }
  split; [done|]. split.
  - intros replacements Hrun. split.
    + apply (for_of_invariant (url_step bundle relative)
               (λ acc, map_get acc (dep_id d) = None)
               (urlDependencies bundle) [] replacements); [|done|done].
      intros d' acc acc' Hd' Hacc Hstep'.
      destruct (decide (dep_id d' = dep_id d)) as [Heq|Hne].
      * apply urlDependencies_elem in Hd' as [Hd' _].
        rewrite (Huniq d' Hd' Heq), Hurl in Hstep'. by injection Hstep' as <-.
      * by rewrite (url_step_frame _ _ _ _ _ _ _ _ _ _ _ _ _ Hstep' Hne).
    + intros pre post map _ Hno.
      destruct (performReplacement_returns replacements
                  (pre ++ dep_id d ++ post)
                  (pre ++ dep_id d
                       ++ fst (performReplacement replacements post map)) map)
        as [map' Hresult].
      * rewrite performReplacement_contents, !(app_assoc pre).
        apply regexReplaceWithLocations_prefix.
        intros k i Hk Hi. rewrite <- app_assoc.
        destruct (url_pattern_keys bundle relative replacements k Hrun Hk)
          as (d' & Hd' & <- & Hother).
        apply Hno; [done| |done].
        intros ->. specialize (Hother target Htarget). congruence.
      * exists map'. unfold ReplaceBundleReferences.replaceURLReferences.
        by rewrite Hrun, Hresult.
  - intros replacements Hrun. split.
    + intros Haccepted.
      assert (map_get replacements (dep_id d) = Some replacement) as Hget.
      { apply (for_of_established (inline_step bundle)
                 (λ acc, map_get acc (dep_id d) = Some replacement)
                 (dependencies bundle) d [] replacements); [done| | |done].
        - intros acc acc'. rewrite Hstep, bool_decide_eq_true_2 by done.
          intros [= <-]. apply map_get_set_eq.
        - intros d' acc acc' Hd' Hacc Hstep'.
          destruct (decide (dep_id d' = dep_id d)) as [Heq|Hneq].
          + rewrite (Huniq d' Hd' Heq), Hstep, bool_decide_eq_true_2 in Hstep'
              by done.
            injection Hstep' as <-. apply map_get_set_eq.
          + by rewrite (inline_step_frame _ _ _ _ _ _ _ _ _ Hstep' Hneq). }
      split; [done|]. intros pre post map _ Hne Hnl Hagree Hno Hmax.
      destruct (performReplacement_returns replacements
                  (pre ++ from replacement ++ post)
                  (pre ++ to replacement
                       ++ fst (performReplacement replacements post map)) map)
        as [map' Hresult].
      * rewrite performReplacement_contents.
        apply regexReplaceWithLocations_placeholder; [|done|done| |].
        -- apply new_Map_get_agree.
           ++ apply list_elem_of_fmap. exists replacement. split; [done|].
              apply list_elem_of_fmap. exists (dep_id d, replacement).
              split; [done|]. by apply map_get_Some_elem.
           ++ intros y Hy.
              apply list_elem_of_fmap in Hy as (v & [= Hfrom ->] & Hv).
              by apply Hagree.
        -- intros k i Hk Hi. apply from_to_keys in Hk as (v & Hv & <-).
           by apply Hno.
        -- intros k Hk Hmatch. apply from_to_keys in Hk as (v & Hv & <-).
           by apply Hmax.
      * exists map'. unfold ReplaceBundleReferences.replaceInlineReferences.
        by rewrite Hrun, Hresult.
    + intros Hother. split.
      * apply (for_of_invariant (inline_step bundle)
                 (λ acc, map_get acc (dep_id d) = None)
                 (dependencies bundle) [] replacements); [|done|done].
        intros d' acc acc' Hd' Hacc Hstep'.
        destruct (decide (dep_id d' = dep_id d)) as [Heq|Hneq].
        -- rewrite (Huniq d' Hd' Heq), Hstep, bool_decide_eq_false_2 in Hstep'
             by done.
           by injection Hstep' as <-.
        -- by rewrite (inline_step_frame _ _ _ _ _ _ _ _ _ Hstep' Hneq).
      * intros placeholder pre post map Hno.
        destruct (performReplacement_returns replacements
                    (pre ++ placeholder ++ post)
                    (pre ++ placeholder
                         ++ fst (performReplacement replacements post map)) map)
          as [map' Hresult].
        -- rewrite performReplacement_contents, !(app_assoc pre).
           apply regexReplaceWithLocations_prefix.
           intros k i Hk Hi. rewrite <- app_assoc.
           apply from_to_keys in Hk as (v & Hv & <-).
           apply list_elem_of_fmap in Hv as ([k0 v0] & -> & Hkr).
           pose proof (inline_replacements_entries bundle replacements Hrun)
             as Horigin.
           rewrite Forall_forall in Horigin.
           destruct (Horigin _ Hkr) as (d' & Hd' & Hsets). simpl in *.
           apply (Hno d' v0); [done| |done|done].
           intros ->. rewrite Hstep, bool_decide_eq_false_2 in Hsets by done.
           discriminate Hsets.
        -- exists map'. unfold ReplaceBundleReferences.replaceInlineReferences.
           by rewrite Hrun, Hresult.
Qed.

End PassText.

Lemma unresolved_url_dependency_witness :
  let t := list_ascii_of_string in
  let d := ReplaceBundleReferences.mkDependency (t "dep1") true
             (t "https://example.com/a.js") in
  let other := ReplaceBundleReferences.mkDependency (t "dep2") true (t "./b") in
  let target := ReplaceBundleReferences.mkBundle (Some (t "b.js")) false (t "/")
                  [] [] in
  let bundle := ReplaceBundleReferences.mkBundle (Some (t "index.js")) false (t "/")
                  [ReplaceBundleReferences.dependency d;
                   ReplaceBundleReferences.dependency other] [] in
  let getReferencedBundle :=
    λ (x : ReplaceBundleReferences.Dependency) (_ : ReplaceBundleReferences.Bundle),
      if bool_decide (ReplaceBundleReferences.dep_id x = t "dep2")
      then Some target else None in
  d ∈ ReplaceBundleReferences.urlDependencies bundle
  ∧ getReferencedBundle d bundle = None
  ∧ Forall (λ d', ReplaceBundleReferences.literal_key
                    (ReplaceBundleReferences.dep_id d'))
      (ReplaceBundleReferences.urlDependencies bundle)
  ∧ ∃ map',
      ReplaceBundleReferences.replaceURLReferences getReferencedBundle
        ReplaceBundleReferences.Text (λ s, s) (λ _ p, p) (λ u, u)
        (λ _ _, t "out/b.js") app
        bundle (t "import('dep1'); import('dep2')") None true
      = Resolved (t "import('https://example.com/a.js'); import('out/b.js')",
                  map').
Proof.
  intros t d other target bundle getReferencedBundle.
  assert (d ∈ ReplaceBundleReferences.urlDependencies bundle) as Hd by (by left).
  assert (Forall (λ d', ReplaceBundleReferences.literal_key
                          (ReplaceBundleReferences.dep_id d'))
            (ReplaceBundleReferences.urlDependencies bundle)) as Hliteral
    by (apply (bool_decide_unpack _); vm_compute; exact I).
  split; [exact Hd|]. split; [reflexivity|]. split; [exact Hliteral|].
  destruct (unresolved_url_dependency getReferencedBundle
              ReplaceBundleReferences.Text (λ s, s) (λ _ p, p) (λ u, u)
              (λ _ _, t "out/b.js") app bundle true d Hd) as (_ & Hpass).
  - intros d' Hd' Hid. change (d' ∈ [d; other]) in Hd'.
    apply elem_of_cons in Hd' as [->|Hd']; [reflexivity|].
    apply list_elem_of_singleton in Hd' as ->. discriminate Hid.
  - reflexivity.
  - destruct (Hpass
                [(t "dep1", ReplaceBundleReferences.mkReplacement (t "dep1")
                              (t "https://example.com/a.js"));
                 (t "dep2", ReplaceBundleReferences.mkReplacement (t "dep2")
                              (t "out/b.js"))] eq_refl) as (_ & Htext).
    destruct (Htext (t "import('") (t "'); import('dep2')") None Hliteral)
      as (map' & Hresult).
    + discriminate.
    + reflexivity.
    + intros d' i Hd' Hi. change (d' ∈ [d; other]) in Hd'.
      apply elem_of_cons in Hd' as [->|Hd'];
        [|apply list_elem_of_singleton in Hd' as ->];
        (do 8 (destruct i as [|i]; [reflexivity|])); cbn in Hi; lia.
    + intros d' Hd' _. change (d' ∈ [d; other]) in Hd'.
      apply elem_of_cons in Hd' as [->|Hd'];
        [|apply list_elem_of_singleton in Hd' as ->]; cbn; lia.
    + exists map'. etrans; [exact Hresult|]. reflexivity.
Defined.

Lemma inline_bundle_dependency_witness :
  let t := list_ascii_of_string in
  let d := ReplaceBundleReferences.mkDependency (t "dep1") true (t "./icon.svg") in
  let external := ReplaceBundleReferences.mkDependency (t "dep2") true
                    (t "https://example.com/a.js") in
  let binary := ReplaceBundleReferences.mkDependency (t "dep3") true
                  (t "./photo.png") in
  let icon := ReplaceBundleReferences.mkBundle None true (t "/") []
                [ReplaceBundleReferences.mkEntryAsset (Some (t "string"))] in
  let photo := ReplaceBundleReferences.mkBundle None true (t "/") []
                 [ReplaceBundleReferences.mkEntryAsset (Some (t "binary"))] in
  let bundle := ReplaceBundleReferences.mkBundle (Some (t "index.js")) false (t "/")
                  [ReplaceBundleReferences.dependency d;
                   ReplaceBundleReferences.dependency external;
                   ReplaceBundleReferences.dependency binary] [] in
  let getReferencedBundle :=
    λ (x : ReplaceBundleReferences.Dependency) (_ : ReplaceBundleReferences.Bundle),
      if bool_decide (ReplaceBundleReferences.dep_id x = t "dep1") then Some icon
      else if bool_decide (ReplaceBundleReferences.dep_id x = t "dep3")
           then Some photo else None in
  let getInlineReplacement :=
    λ (x : ReplaceBundleReferences.Dependency) (_ : option (list ascii))
      (contents : list ascii),
      ReplaceBundleReferences.mkReplacement (ReplaceBundleReferences.dep_id x)
        contents in
  let getInlineBundleContents :=
    λ (_ : ReplaceBundleReferences.Bundle),
      Resolved (ReplaceBundleReferences.BlobString (t "<svg/>")) in
  let replaceURLReferences :=
    ReplaceBundleReferences.replaceURLReferences getReferencedBundle
      ReplaceBundleReferences.Text (λ s, s) (λ _ p, p) (λ u, u)
      (λ _ _, t "out/b.js") app in
  let replaceInlineReferences :=
    ReplaceBundleReferences.replaceInlineReferences getReferencedBundle
      getInlineReplacement getInlineBundleContents (λ _, []) in
  d ∈ ReplaceBundleReferences.dependencies bundle
  ∧ ReplaceBundleReferences.isURL d = true
  ∧ getReferencedBundle d bundle = Some icon
  ∧ getReferencedBundle binary bundle = Some photo
  ∧ (∃ map', replaceURLReferences bundle (t "url(dep1) import('dep2')") None true
             = Resolved (t "url(dep1) import('https://example.com/a.js')", map'))
  ∧ (∃ map', replaceInlineReferences bundle (t "url(dep1) url(dep3)") None
             = Resolved (t "url(<svg/>) url(dep3)", map'))
  ∧ (∃ map', replaceInlineReferences bundle (t "url(dep3) url(dep1)") None
             = Resolved (t "url(dep3) url(<svg/>)", map')).
Proof.
  intros t d external binary icon photo bundle getReferencedBundle
    getInlineReplacement getInlineBundleContents replaceURLReferences
    replaceInlineReferences.
  assert (d ∈ ReplaceBundleReferences.dependencies bundle) as Hd by (by left).
  assert (binary ∈ ReplaceBundleReferences.dependencies bundle) as Hbinary
    by (right; right; by left).
  split; [exact Hd|]. split; [reflexivity|]. split; [reflexivity|].
  split; [reflexivity|].
  pose proof (inline_bundle_dependency getReferencedBundle
                ReplaceBundleReferences.Text (λ s, s) (λ _ p, p) (λ u, u)
                (λ _ _, t "out/b.js") app getInlineReplacement
                getInlineBundleContents (λ _, []) bundle true d icon
                (ReplaceBundleReferences.BlobString (t "<svg/>"))
                (ReplaceBundleReferences.mkEntryAsset (Some (t "string"))) Hd)
    as Hicon.
  pose proof (inline_bundle_dependency getReferencedBundle
                ReplaceBundleReferences.Text (λ s, s) (λ _ p, p) (λ u, u)
                (λ _ _, t "out/b.js") app getInlineReplacement
                getInlineBundleContents (λ _, []) bundle true binary photo
                (ReplaceBundleReferences.BlobString (t "<svg/>"))
                (ReplaceBundleReferences.mkEntryAsset (Some (t "binary")))
                Hbinary)
    as Hphoto.
  assert (∀ x, x ∈ ReplaceBundleReferences.dependencies bundle →
               x = d ∨ x = external ∨ x = binary) as Hcases.
  { intros x Hx. change (x ∈ [d; external; binary]) in Hx.
    apply elem_of_cons in Hx as [Hx|Hx]; [by left|].
    apply elem_of_cons in Hx as [Hx|Hx]; [right; by left|].
    apply list_elem_of_singleton in Hx. right. by right. }
  destruct Hicon as (_ & Hurl & Hinlined);
    [|reflexivity|reflexivity|reflexivity|reflexivity|].
  { intros x Hx Hid.
    destruct (Hcases x Hx) as [-> | [-> | ->]];
      [reflexivity|discriminate Hid|discriminate Hid]. }
  destruct Hphoto as (_ & _ & Hkept);
    [|reflexivity|reflexivity|reflexivity|reflexivity|].
  { intros x Hx Hid.
    destruct (Hcases x Hx) as [-> | [-> | ->]];
      [discriminate Hid|discriminate Hid|reflexivity]. }
  split; [|split].
  - destruct (Hurl [(t "dep2", ReplaceBundleReferences.mkReplacement (t "dep2")
                                 (t "https://example.com/a.js"))] eq_refl)
      as (_ & Htext).
    destruct (Htext (t "url(") (t ") import('dep2')") None)
      as (map' & Hresult).
    + apply (bool_decide_unpack _). vm_compute. exact I.
    + intros x i Hx Hne Hi.
      destruct (Hcases x (proj1 (urlDependencies_elem bundle x Hx)))
        as [-> | [-> | ->]]; [done| |];
        (do 8 (destruct i as [|i]; [reflexivity|])); cbn in Hi; lia.
    + exists map'. etrans; [exact Hresult|]. reflexivity.
  - destruct (Hinlined [(t "dep1", ReplaceBundleReferences.mkReplacement
                                     (t "dep1") (t "<svg/>"))] eq_refl)
      as ((_ & Htext) & _); [right; reflexivity|].
    destruct (Htext (t "url(") (t ") url(dep3)") None) as (map' & Hresult).
    + apply (bool_decide_unpack _). vm_compute. exact I.
    + discriminate.
    + reflexivity.
    + intros v Hv _. apply list_elem_of_singleton in Hv as ->. reflexivity.
    + intros v i Hv Hi. apply list_elem_of_singleton in Hv as ->.
      (do 4 (destruct i as [|i]; [reflexivity|])); cbn in Hi; lia.
    + intros v Hv _. apply list_elem_of_singleton in Hv as ->. cbn. lia.
    + exists map'. etrans; [exact Hresult|]. reflexivity.
  - destruct (Hkept [(t "dep1", ReplaceBundleReferences.mkReplacement
                                  (t "dep1") (t "<svg/>"))] eq_refl)
      as (_ & Hbinary').
    destruct Hbinary' as (_ & Htext);
      [intros [Hnone|Hstring]; discriminate|].
    destruct (Htext (t "dep3") (t "url(") (t ") url(dep1)") None)
      as (map' & Hresult).
    + intros x v Hx Hne Hsets.
      destruct (Hcases x Hx) as [-> | [-> | ->]]; [| |done].
      * injection Hsets as <-. split.
        -- apply (bool_decide_unpack _). vm_compute. exact I.
        -- intros i Hi.
           (do 8 (destruct i as [|i]; [reflexivity|])); cbn in Hi; lia.
      * discriminate Hsets.
    + exists map'. etrans; [exact Hresult|]. reflexivity.
Defined.
